(** * svelte2tsx helpers: insertion ledger, SvelteKit file augmentor, transpiler

    A shallow embedding of [packages/svelte2tsx/src/helpers/sveltekit.ts]
    (the [AddedCode] ledger and the SvelteKit file augmentor) and of the
    [svelte2tsx] transpiler entry point, followed by the properties of the
    specification that were checked against them.

    Conventions.
    - A JavaScript number that holds an offset or a length is a [Z].
    - A JavaScript string is a [string]; [.length] is [String.length].
    - [undefined] results are [None].
    - A thrown exception is the [Thrown] constructor of [outcome]. *)

From Stdlib Require Import ZArith List String Ascii Bool Lia Sorted Permutation.
Import ListNotations.

Local Open Scope string_scope.
Local Open Scope Z_scope.
Local Open Scope list_scope.

(* ================================================================= *)
(** * Part I: the program *)
(* ================================================================= *)

(** ** JavaScript array helpers *)

Module JS.

(** [Array.prototype.findIndex]; [None] stands for the result [-1]. *)
Fixpoint findIndex {A : Type} (f : A -> bool) (l : list A) : option nat :=
  match l with
  | [] => None
  | x :: rest => if f x then Some O else option_map S (findIndex f rest)
  end.

(** [arr.splice(idx, 0, x)]. *)
Definition splice {A : Type} (idx : nat) (x : A) (l : list A) : list A :=
  firstn idx l ++ x :: skipn idx l.

(** [arr[i]] for a numeric index: [undefined] when out of range. *)
Definition at_ {A : Type} (l : list A) (i : Z) : option A :=
  if i <? 0 then None else nth_error l (Z.to_nat i).

(** Length of a string as a number. *)
Definition strlen (s : string) : Z := Z.of_nat (String.length s).

End JS.

(** ** The insertion ledger ([AddedCode], [insertCode], [toVirtualPos],
       [toOriginalPos]) *)

Module Ledger.

Record AddedCode : Type := mkAddedCode {
  generatedPos : Z;
  originalPos : Z;
  length : Z;
  total : Z;
  inserted : string
}.

(** Body of the [for] loop of [insertCode]:
    [generatedPos += inserted.length; total += inserted.length]. *)
Definition shift (n : Z) (c : AddedCode) : AddedCode :=
  {| generatedPos := generatedPos c + n;
     originalPos := originalPos c;
     length := length c;
     total := total c + n;
     inserted := inserted c |}.

(** [addedCode[i]?.total ?? 0]. *)
Definition totalAt (addedCode : list AddedCode) (i : Z) : Z :=
  match JS.at_ addedCode i with
  | Some c => total c
  | None => 0
  end.

(** The object literal built in both branches of [insertCode]. *)
Definition entry (prevTotal pos : Z) (text : string) : AddedCode :=
  {| generatedPos := pos + prevTotal;
     originalPos := pos;
     length := JS.strlen text;
     total := prevTotal + JS.strlen text;
     inserted := text |}.

(** [insertCode(addedCode, pos, inserted)]; the array is updated in place
    in the source, here the updated array is returned. *)
Definition insertCode (addedCode : list AddedCode) (pos : Z) (text : string)
  : list AddedCode :=
  match JS.findIndex (fun c => originalPos c >? pos) addedCode with
  | Some insertionIdx =>
      let shifted :=
        firstn insertionIdx addedCode
          ++ map (shift (JS.strlen text)) (skipn insertionIdx addedCode) in
      let prevTotal := totalAt shifted (Z.of_nat insertionIdx - 1) in
      JS.splice insertionIdx (entry prevTotal pos text) shifted
  | None =>
      let prevTotal :=
        totalAt addedCode (Z.of_nat (List.length addedCode) - 1) in
      addedCode ++ [entry prevTotal pos text]
  end.

(** The loop of [toVirtualPos]: the running [total]. *)
Fixpoint toVirtualPos_loop (pos : Z) (addedCode : list AddedCode) (tot : Z) : Z :=
  match addedCode with
  | [] => tot
  | added :: rest =>
      if pos <? originalPos added then tot
      else toVirtualPos_loop pos rest (tot + length added)
  end.

Definition toVirtualPos (pos : Z) (addedCode : list AddedCode) : Z :=
  pos + toVirtualPos_loop pos addedCode 0.

(** Result object of [toOriginalPos]. *)
Record OriginalPos : Type := mkOriginalPos {
  pos : Z;
  inGenerated : bool
}.

(** The loop of [toOriginalPos]: the running [total] and [idx]. *)
Fixpoint toOriginalPos_loop (p : Z) (addedCode : list AddedCode)
         (tot : Z) (idx : nat) : Z * nat :=
  match addedCode with
  | [] => (tot, idx)
  | added :: rest =>
      if p <? generatedPos added then (tot, idx)
      else toOriginalPos_loop p rest (tot + length added) (S idx)
  end.

Definition toOriginalPos (p : Z) (addedCode : list AddedCode) : OriginalPos :=
  let '(tot, idx) := toOriginalPos_loop p addedCode 0 O in
  let plain := {| pos := p - tot; inGenerated := false |} in
  match idx with
  | O => plain
  | S i =>
      match nth_error addedCode i with
      | Some prev =>
          if (p >? generatedPos prev) && (p <? generatedPos prev + length prev)
          then {| pos := originalPos prev; inGenerated := true |}
          else plain
      | None => plain
      end
  end.

(** A sequence of [insert(pos, text)] calls on a fresh ledger
    ([const addedCode = []] followed by the calls, in order). *)
Definition build (calls : list (Z * string)) : list AddedCode :=
  fold_left (fun l call => insertCode l (fst call) (snd call)) calls [].

(** The ledgers the code can produce: every array reachable from the
    empty one by [insertCode]. *)
Inductive reachable : list AddedCode -> Prop :=
| reachable_nil : reachable []
| reachable_insert l p text :
    reachable l -> reachable (insertCode l p text).

(** Sum of [length] over a run of records. *)
Definition sumLength (l : list AddedCode) : Z :=
  fold_right (fun c acc => length c + acc) 0 l.

(** A position lies strictly inside the inserted span of a record. *)
Definition insideSpan (g : Z) (c : AddedCode) : Prop :=
  generatedPos c < g < generatedPos c + length c.

End Ledger.

(** ** JavaScript string helpers *)

Module JSString.

(** [s.slice(start, end)]; [None] for an omitted [end]. *)
Definition slice (s : string) (start : Z) (stop : option Z) : string :=
  let len := JS.strlen s in
  let clamp i := if i <? 0 then Z.max (len + i) 0 else Z.min i len in
  let from := clamp start in
  let upto := match stop with None => len | Some e => clamp e end in
  substring (Z.to_nat from) (Z.to_nat (Z.max (upto - from) 0)) s.

(** [s.substring(start, end)]: both offsets are clamped to the string and
    swapped when they are out of order. *)
Definition substring_ (s : string) (start stop : Z) : string :=
  let len := JS.strlen s in
  let clamp i := Z.min (Z.max i 0) len in
  let a := Z.min (clamp start) (clamp stop) in
  let b := Z.max (clamp start) (clamp stop) in
  substring (Z.to_nat a) (Z.to_nat (b - a)) s.

(** [s.endsWith(suffix)]. *)
Definition endsWith (s suffix : string) : bool :=
  let n := String.length s in
  let m := String.length suffix in
  (m <=? n)%nat && String.eqb (substring (n - m) m s) suffix.

(** [s.indexOf(needle, from)] for a non-empty [needle]; [-1] when absent. *)
Definition indexOf (s needle : string) (from : Z) : Z :=
  match String.index (Z.to_nat from) needle s with
  | Some i => Z.of_nat i
  | None => -1
  end.

(** [s.includes(needle)] for a non-empty [needle]. *)
Definition includes (s needle : string) : bool :=
  0 <=? indexOf s needle 0.

(** The text from offset [k] on. *)
Definition from_ (k : nat) (s : string) : string :=
  substring k (String.length s - k) s.

Fixpoint lastIndexOf_down (s needle : string) (k : nat) : Z :=
  if String.prefix needle (from_ k s) then Z.of_nat k
  else match k with
       | O => -1
       | S k' => lastIndexOf_down s needle k'
       end.

(** [s.lastIndexOf(needle, from)]; [-1] when absent. *)
Definition lastIndexOf (s needle : string) (from : Z) : Z :=
  let start := Z.min (Z.max from 0) (JS.strlen s - JS.strlen needle) in
  if start <? 0 then -1 else lastIndexOf_down s needle (Z.to_nat start).

(** [s.split(sep)[0]] for a one-character separator. *)
Fixpoint splitHead (sep : ascii) (s : string) : string :=
  match s with
  | EmptyString => EmptyString
  | String c rest =>
      if Ascii.eqb c sep then EmptyString else String c (splitHead sep rest)
  end.

(** [parts.join(sep)]. *)
Definition join (sep : string) (parts : list string) : string :=
  String.concat sep parts.

(** Truthiness of a string: only the empty string is falsy. *)
Definition truthy (s : string) : bool := negb (String.eqb s "").

(** Truthiness of an optional string ([undefined] is falsy). *)
Definition truthyOpt (s : option string) : bool :=
  match s with
  | None => false
  | Some s => truthy s
  end.

End JSString.

(** ** Node's [path] module, as far as the helpers use it *)

Class PathModule : Type := {
  basename : string -> string;
  extname : string -> string
}.

Module PosixPath.

Definition slash : ascii := "/"%char.

Fixpoint dropSlashes (cs : list ascii) : list ascii :=
  match cs with
  | c :: rest => if Ascii.eqb c slash then dropSlashes rest else cs
  | [] => []
  end.

Fixpoint takeSegment (cs : list ascii) : list ascii :=
  match cs with
  | c :: rest => if Ascii.eqb c slash then [] else c :: takeSegment rest
  | [] => []
  end.

(** [path.posix.basename(p)]: trailing slashes are ignored, the result is
    what follows the last remaining slash. *)
Definition basename (p : string) : string :=
  string_of_list_ascii
    (rev (takeSegment (dropSlashes (rev (list_ascii_of_string p))))).

(** [path.posix.extname(p)]: from the last dot of the last segment on,
    empty when there is no dot, when the segment starts with its only
    dot, or when the segment is [..]. *)
Definition extname (p : string) : string :=
  let b := basename p in
  let d := JSString.lastIndexOf b "." (JS.strlen b) in
  if (d <=? 0) || String.eqb b ".." then ""
  else JSString.slice b d None.

Definition posix : PathModule :=
  Build_PathModule basename extname.

End PosixPath.

(** ** The syntax tree of the TypeScript compiler, as far as the SvelteKit
       helpers read it *)

Module Ts.

(** A node with its [getStart()] and [getEnd()] offsets. *)
Record Node : Type := mkNode {
  getStart : Z;
  getEnd : Z
}.

(** The three function-like nodes; only an arrow function carries an
    [equalsGreaterThanToken]. *)
Inductive FunctionKind : Type :=
| FunctionDeclaration
| FunctionExpression
| ArrowFunction (equalsGreaterThanToken : Node).

Record FunctionNode : Type := mkFunctionNode {
  kind : FunctionKind;
  parameters : list Node;
  type : option Node;          (* the return type annotation *)
  body : option Node
}.

Record VariableDeclaration : Type := mkVariableDeclaration {
  name : Node;
  initializer : option Node
}.

(** A value of the map returned by [findExports]. *)
Inductive Export : Type :=
| function (node : FunctionNode) (hasTypeDefinition : bool)
| var (node : VariableDeclaration) (hasTypeDefinition : bool).

(** [exports.get(name)] of the map returned by [findExports]. *)
Definition Exports : Type := string -> option Export.

End Ts.

(** What the helpers take from their environment: the source file type of
    the compiler with [getFullText], and [findExports] of [./typescript]
    (called as [findExports(ts, source, isTsFile)]). *)
Class TsHost : Type := {
  SourceFile : Type;
  getFullText : SourceFile -> string;
  findExports : SourceFile -> bool -> Ts.Exports
}.

(** ** The SvelteKit file augmentor *)

Module Kit.

Import Ledger.
Local Open Scope string_scope.

Record KitFilesSettings : Type := mkKitFilesSettings {
  serverHooksPath : string;
  clientHooksPath : string;
  paramsPath : string
}.

Definition kitPageFiles : list string :=
  ["+page"; "+layout"; "+page.server"; "+layout.server"; "+server"].

(** [kitPageFiles.has(name)]. *)
Definition kitPageFiles_has (name : string) : bool :=
  existsb (String.eqb name) kitPageFiles.

Section Classification.
Context {path : PathModule}.

Definition isKitRouteFile (basename : string) : bool :=
  let basename :=
    if JSString.includes basename "@"
    then JSString.splitHead "@" basename
    else JSString.slice basename 0
           (Some (- JS.strlen (extname basename))) in
  kitPageFiles_has basename.

Definition isServerHooksFile (fileName basename serverHooksPath : string)
  : bool :=
  ((String.eqb basename "index.ts" || String.eqb basename "index.js")
   && JSString.endsWith
        (JSString.slice fileName 0 (Some (- JS.strlen basename - 1)))
        serverHooksPath)
  || JSString.endsWith
       (JSString.slice fileName 0 (Some (- JS.strlen (extname basename))))
       serverHooksPath.

Definition isClientHooksFile (fileName basename clientHooksPath : string)
  : bool :=
  ((String.eqb basename "index.ts" || String.eqb basename "index.js")
   && JSString.endsWith
        (JSString.slice fileName 0 (Some (- JS.strlen basename - 1)))
        clientHooksPath)
  || JSString.endsWith
       (JSString.slice fileName 0 (Some (- JS.strlen (extname basename))))
       clientHooksPath.

Definition isParamsFile (fileName basename paramsPath : string) : bool :=
  JSString.endsWith
    (JSString.slice fileName 0 (Some (- JS.strlen basename - 1)))
    paramsPath
  && negb (JSString.includes basename ".test")
  && negb (JSString.includes basename ".spec").

Definition isKitFile (fileName : string) (options : KitFilesSettings) : bool :=
  let basename := basename fileName in
  isKitRouteFile basename
  || isServerHooksFile fileName basename (serverHooksPath options)
  || isClientHooksFile fileName basename (clientHooksPath options)
  || isParamsFile fileName basename (paramsPath options).

End Classification.

(** An update of the [addedCode] array of the enclosing function; the
    [insert] closure of the [upserKit...File] functions is
    [insertCode] on that array. *)
Definition Step : Type := list AddedCode -> list AddedCode.

Definition insert (pos : Z) (text : string) : Step :=
  fun addedCode => insertCode addedCode pos text.

Definition skip : Step := fun addedCode => addedCode.

Definition andThen (first second : Step) : Step :=
  fun addedCode => second (first addedCode).

Notation "a ;; b" := (andThen a b) (at level 61, right associativity).

Definition addTypeToVariable (exports : Ts.Exports)
           (surround : string -> string) (name type : string) : Step :=
  match exports name with
  | Some (Ts.var node hasTypeDefinition) =>
      match negb hasTypeDefinition, Ts.initializer node with
      | true, Some _ =>
          insert (Ts.getEnd (Ts.name node)) (surround (" : " ++ type))
      | _, _ => skip
      end
  | _ => skip
  end.

Definition addTypeToFunction (exports : Ts.Exports)
           (surround : string -> string) (name type : string)
           (returnType : option string) : Step :=
  match exports name with
  | Some (Ts.function node hasTypeDefinition) =>
      match Ts.parameters node, negb hasTypeDefinition with
      | [param], true =>
          let paramInsertion :=
            surround (if negb (JSString.truthyOpt returnType)
                      then ": Parameters<" ++ type ++ ">[0]"
                      else ": " ++ type) in
          insert (Ts.getEnd param) paramInsertion ;;
          match Ts.type node, Ts.body node with
          | None, Some body =>
              let returnPos :=
                match Ts.kind node with
                | Ts.ArrowFunction equalsGreaterThanToken =>
                    Ts.getStart equalsGreaterThanToken
                | _ => Ts.getStart body
                end in
              let returnInsertion :=
                surround
                  (match returnType with
                   | Some r =>
                       if JSString.truthy r then ": " ++ r ++ " "
                       else ": ReturnType<" ++ type ++ "> "
                   | None => ": ReturnType<" ++ type ++ "> "
                   end) in
              insert returnPos returnInsertion
          | _, _ => skip
          end
      | _, _ => skip
      end
  | _ => skip
  end.

(** The block [// add type to load function if not explicitly typed] of
    [upserKitRouteFile]. *)
Definition addTypeToLoad (basename : string) (exports : Ts.Exports)
           (surround : string -> string) : Step :=
  match exports "load" with
  | Some (Ts.function node hasTypeDefinition) =>
      match Ts.parameters node, negb hasTypeDefinition with
      | [param], true =>
          insert (Ts.getEnd param)
            (surround
               (": import('./$types.js')."
                ++ (if JSString.includes basename "layout"
                    then "Layout" else "Page")
                ++ (if JSString.includes basename "server"
                    then "Server" else "")
                ++ "LoadEvent"))
      | _, _ => skip
      end
  | _ => skip
  end.

(** The block [// add type to actions variable if not explicitly typed]
    of [upserKitRouteFile]. *)
Definition addTypeToActions (exports : Ts.Exports)
           (surround : string -> string) : Step :=
  match exports "actions" with
  | Some (Ts.var node hasTypeDefinition) =>
      match negb hasTypeDefinition, Ts.initializer node with
      | true, Some initializer =>
          insert (Ts.getEnd initializer)
            (surround " satisfies import('./$types.js').Actions")
      | _, _ => skip
      end
  | _ => skip
  end.

(** The value returned by the four [upserKit...File] functions. *)
Record Upserted : Type := mkUpserted {
  addedCode : list AddedCode;
  originalText : string
}.

Section Augmentor.
Context {path : PathModule} {host : TsHost}.

Definition upserKitRouteFile (basename : string)
           (getSource : unit -> option SourceFile)
           (surround : string -> string) : option Upserted :=
  if negb (isKitRouteFile basename) then None
  else
    match getSource tt with
    | None => None
    | Some source =>
        let isTsFile := JSString.endsWith basename ".ts" in
        let exports := findExports source isTsFile in
        let insertApiMethod name :=
          addTypeToFunction exports surround name
            "import('./$types.js').RequestEvent"
            (Some "Response | Promise<Response>") in
        let steps :=
          addTypeToLoad basename exports surround ;;
          addTypeToActions exports surround ;;
          addTypeToVariable exports surround "prerender" "boolean | 'auto'" ;;
          addTypeToVariable exports surround "trailingSlash"
            "'never' | 'always' | 'ignore'" ;;
          addTypeToVariable exports surround "ssr" "boolean" ;;
          addTypeToVariable exports surround "csr" "boolean" ;;
          insertApiMethod "GET" ;;
          insertApiMethod "PUT" ;;
          insertApiMethod "POST" ;;
          insertApiMethod "PATCH" ;;
          insertApiMethod "DELETE" ;;
          insertApiMethod "OPTIONS" in
        Some {| addedCode := steps [];
                originalText := getFullText source |}
    end.

Definition upserKitParamsFile (fileName basename paramsPath : string)
           (getSource : unit -> option SourceFile)
           (surround : string -> string) : option Upserted :=
  if negb (isParamsFile fileName basename paramsPath) then None
  else
    match getSource tt with
    | None => None
    | Some source =>
        let isTsFile := JSString.endsWith basename ".ts" in
        let exports := findExports source isTsFile in
        let steps :=
          addTypeToFunction exports surround "match" "string"
            (Some "boolean") in
        Some {| addedCode := steps [];
                originalText := getFullText source |}
    end.

Definition upserKitClientHooksFile
           (fileName basename clientHooksPath : string)
           (getSource : unit -> option SourceFile)
           (surround : string -> string) : option Upserted :=
  if negb (isClientHooksFile fileName basename clientHooksPath) then None
  else
    match getSource tt with
    | None => None
    | Some source =>
        let isTsFile := JSString.endsWith basename ".ts" in
        let exports := findExports source isTsFile in
        let steps :=
          addTypeToFunction exports surround "handleError"
            "import('@sveltejs/kit').HandleClientError" None in
        Some {| addedCode := steps [];
                originalText := getFullText source |}
    end.

Definition upserKitServerHooksFile
           (fileName basename serverHooksPath : string)
           (getSource : unit -> option SourceFile)
           (surround : string -> string) : option Upserted :=
  if negb (isServerHooksFile fileName basename serverHooksPath) then None
  else
    match getSource tt with
    | None => None
    | Some source =>
        let isTsFile := JSString.endsWith basename ".ts" in
        let exports := findExports source isTsFile in
        let addType name type :=
          addTypeToFunction exports surround name type None in
        let steps :=
          addType "handleError" "import('@sveltejs/kit').HandleServerError" ;;
          addType "handle" "import('@sveltejs/kit').Handle" ;;
          addType "handleFetch" "import('@sveltejs/kit').HandleFetch" in
        Some {| addedCode := steps [];
                originalText := getFullText source |}
    end.

(** [a ?? b] on results that are an object or [undefined]. *)
Definition orElse {A : Type} (a b : option A) : option A :=
  match a with
  | Some _ => a
  | None => b
  end.

(** The constant [result] of [upsertKitFile]. *)
Definition upsertKitFile_result (fileName : string)
           (kitFilesSettings : KitFilesSettings)
           (getSource : unit -> option SourceFile)
           (surround : string -> string) : option Upserted :=
  let basename := basename fileName in
  orElse (upserKitRouteFile basename getSource surround)
    (orElse (upserKitServerHooksFile fileName basename
               (serverHooksPath kitFilesSettings) getSource surround)
       (orElse (upserKitClientHooksFile fileName basename
                  (clientHooksPath kitFilesSettings) getSource surround)
          (upserKitParamsFile fileName basename
             (paramsPath kitFilesSettings) getSource surround))).

(** The loop of [upsertKitFile] that builds the generated text:
    the running [pos] and [text]. *)
Fixpoint assemble_loop (originalText : string) (added : list AddedCode)
         (pos : Z) (text : string) : Z * string :=
  match added with
  | [] => (pos, text)
  | a :: rest =>
      assemble_loop originalText rest (originalPos a)
        (text ++ JSString.slice originalText pos (Some (originalPos a))
              ++ inserted a)
  end.

(** The value returned by [upsertKitFile]. *)
Record KitFile : Type := mkKitFile {
  text : string;
  kitAddedCode : list AddedCode
}.

Definition upsertKitFile (fileName : string)
           (kitFilesSettings : KitFilesSettings)
           (getSource : unit -> option SourceFile)
           (surround : string -> string) : option KitFile :=
  match upsertKitFile_result fileName kitFilesSettings getSource surround with
  | None => None
  | Some result =>
      let '(pos, text) :=
        assemble_loop (originalText result) (addedCode result) 0 "" in
      Some {| text := text ++ JSString.slice (originalText result) pos None;
              kitAddedCode := addedCode result |}
  end.

End Augmentor.

End Kit.

(** ** Exceptions and insertion-ordered maps *)

(** The result of a call that may throw. *)
Inductive outcome (A : Type) : Type :=
| Returned (a : A)
| Thrown (error : string).

Arguments Returned {A} a.
Arguments Thrown {A} error.

Module JSMap.

(** A JavaScript [Map] with string-like keys: entries in insertion order. *)
Definition t (K V : Type) : Type := list (K * V).

(** [map.set(k, v)]: an existing key keeps its place and gets the new
    value, a new key goes to the end. *)
Fixpoint set {K V : Type} (eqb : K -> K -> bool) (k : K) (v : V) (m : t K V)
  : t K V :=
  match m with
  | [] => [(k, v)]
  | (k', v') :: rest =>
      if eqb k' k then (k', v) :: rest else (k', v') :: set eqb k v rest
  end.

(** [map.get(k)]. *)
Fixpoint get {K V : Type} (eqb : K -> K -> bool) (k : K) (m : t K V)
  : option V :=
  match m with
  | [] => None
  | (k', v') :: rest => if eqb k' k then Some v' else get eqb k rest
  end.

End JSMap.

(** ** The text-splicing primitive ([magic-string]) *)

Module Magic.

(** The calls the transpiler makes on its [MagicString]. *)
Inductive Edit : Type :=
| move (start end_ index : Z)
| overwrite (start end_ : Z) (content : string)
| remove (start end_ : Z)
| prependRight (index : Z) (content : string)
| append (content : string).

(** A [MagicString]: the original text and the calls made so far, oldest
    first. What the calls do to the text is the business of the library. *)
Record MagicString : Type := mkMagicString {
  original : string;
  edits : list Edit
}.

Definition new (text : string) : MagicString :=
  {| original := text; edits := [] |}.

Definition record (e : Edit) (str : MagicString) : MagicString :=
  {| original := original str; edits := edits str ++ [e] |}.

End Magic.

(** Code that edits the [MagicString] [str] and may throw. *)
Definition Tx (A : Type) : Type :=
  Magic.MagicString -> outcome (A * Magic.MagicString).

Definition ret {A : Type} (a : A) : Tx A := fun str => Returned (a, str).

Definition bind {A B : Type} (m : Tx A) (k : A -> Tx B) : Tx B :=
  fun str =>
    match m str with
    | Returned (a, str') => k a str'
    | Thrown e => Thrown e
    end.

Definition throw {A : Type} (error : string) : Tx A := fun _ => Thrown error.

Definition edit (e : Magic.Edit) : Tx unit :=
  fun str => Returned (tt, Magic.record e str).

(** [str.original]. *)
Definition original : Tx string := fun str => Returned (Magic.original str, str).

Notation "'do' x <- m ; k" := (bind m (fun x => k))
  (at level 10, x name, m at level 100, k at level 200).
Notation "'do' ' p <- m ; k" := (bind m (fun x => match x with p => k end))
  (at level 10, p pattern, m at level 100, k at level 200).
Notation "m >> k" := (bind m (fun _ => k))
  (at level 65, right associativity).

(** [for (const x of xs) body(x)]. *)
Fixpoint forEach {A : Type} (xs : list A) (body : A -> Tx unit) : Tx unit :=
  match xs with
  | [] => ret tt
  | x :: rest => body x >> forEach rest body
  end.

(** A loop that updates local variables of type [B] along the way. *)
Fixpoint foldM {A B : Type} (body : B -> A -> Tx B) (b : B) (xs : list A)
  : Tx B :=
  match xs with
  | [] => ret b
  | x :: rest => do b' <- body b x; foldM body b' rest
  end.

(** ** The template syntax tree ([svelte/compiler]), as far as the
       transpiler reads it *)

Module Htmlx.

(** One part of an attribute value. *)
Inductive ValuePart : Type :=
| AttributeShorthand (expression_name : string)
| Text (raw : string)
| MustacheTag (start end_ expression_start expression_end : Z)
| OtherPart (type : string).

(** [part.raw]. *)
Definition raw (part : ValuePart) : option string :=
  match part with
  | Text raw => Some raw
  | _ => None
  end.

(** An attribute; its [value] is [true] ([None]) or an array of parts. *)
Record Attribute : Type := mkAttribute {
  attr_name : string;
  value : option (list ValuePart)
}.

(** An element of the tree. *)
Record Node : Type := mkNode {
  type : string;
  start : Z;
  end_ : Z;
  name : string;
  attributes : option (list Attribute);
  content_start : Z;
  content_end : Z
}.

(** The root of the tree. *)
Record Ast : Type := mkAst {
  children : list Node
}.

End Htmlx.

(** ** The script syntax tree ([typescript]), as far as the transpiler
       reads it *)

Module TsAst.

Inductive BindingName : Type :=
| Identifier (text : string)
| ObjectBindingPattern
| ArrayBindingPattern.

Inductive SyntaxKind : Type :=
| ExportKeyword
| EqualsToken
| OtherKind.

Record Modifier : Type := mkModifier {
  modifier_kind : SyntaxKind;
  modifier_pos : Z;
  modifier_end : Z
}.

Inductive Expression : Type :=
| IdentifierExpression (text : string)
| BinaryExpression (left : Expression) (operatorToken : SyntaxKind)
                   (right : Expression)
| OtherExpression.

Record ExportSpecifier : Type := mkExportSpecifier {
  propertyName : option BindingName;
  name : BindingName
}.

(** A statement with its [pos] and [end]. *)
#[warnings="-register-all"]
Inductive Statement : Type :=
| VariableStatement (pos end_ : Z) (modifiers : option (list Modifier))
                    (declarations : list BindingName)
| FunctionDeclaration (pos end_ : Z) (modifiers : option (list Modifier))
                      (name : option BindingName)
| ExportDeclaration (pos end_ : Z)
                    (exportClause : option (list ExportSpecifier))
| LabeledStatement (pos end_ : Z) (label : string)
                   (statement : option Statement)
| ExpressionStatement (pos end_ : Z) (expression : option Expression)
| ImportDeclaration (pos end_ : Z)
| OtherStatement (pos end_ : Z).

Record SourceFile : Type := mkSourceFile {
  statements : list Statement
}.

Definition isExportKeyword (m : Modifier) : bool :=
  match modifier_kind m with
  | ExportKeyword => true
  | _ => false
  end.

End TsAst.

(** What the transpiler takes from its environment: the template parser
    [parseHtmlx], the walk and the edits of [convertHtmlxToJsx], the script
    parser [createSourceFile], and [toString] and [generateMap] of the
    [MagicString]. *)
Class Collaborators : Type := {
  parseHtmlx : string -> Htmlx.Ast;
  (* the nodes on which [convertHtmlxToJsx] calls [onWalk], in order *)
  walked : string -> Htmlx.Ast -> list Htmlx.Node;
  (* the calls [convertHtmlxToJsx] itself makes on [str] *)
  converted : string -> Htmlx.Ast -> list Magic.Edit;
  createSourceFile : string -> TsAst.SourceFile;
  toString : Magic.MagicString -> string;
  SourceMap : Type;
  generateMap : Magic.MagicString -> SourceMap
}.

(** ** The transpiler ([svelte2tsx]) *)

Module Svelte2tsx.

Local Open Scope string_scope.

(** The one-character strings for a line feed and a double quote. *)
Definition nl : string := String "010"%char "".
Definition dq : string := String "034"%char "".

(** A pure computation that may throw, run inside [Tx]. *)
Definition lift {A : Type} (r : outcome A) : Tx A :=
  fun str =>
    match r with
    | Returned a => Returned (a, str)
    | Thrown e => Thrown e
    end.

(** [SlotInfo]; a slot name read from a part without [raw] is [undefined]
    ([None]). *)
Definition SlotInfo : Type := JSMap.t (option string) (JSMap.t string string).

Definition slotName_eqb (a b : option string) : bool :=
  match a, b with
  | Some a, Some b => String.eqb a b
  | None, None => true
  | _, _ => false
  end.

Definition AttributeValueAsJsExpression (htmlx : string)
           (attr : Htmlx.Attribute) : outcome string :=
  match Htmlx.value attr with
  | None => Thrown "TypeError: attr.value.map is not a function"
  | Some [] => Returned "''"
  | Some [attrVal] =>
      match attrVal with
      | Htmlx.AttributeShorthand expression_name => Returned expression_name
      | Htmlx.Text raw => Returned (dq ++ raw ++ dq)
      | Htmlx.MustacheTag _ _ expression_start expression_end =>
          Returned (JSString.substring_ htmlx expression_start expression_end)
      | Htmlx.OtherPart type =>
          Thrown ("Unknown attribute value type:" ++ type)
      end
  | Some parts =>
      let valueParts :=
        map (fun n =>
               match n with
               | Htmlx.Text raw => "${" ++ dq ++ raw ++ dq ++ "}"
               | Htmlx.MustacheTag start end_ _ _ =>
                   "$" ++ JSString.substring_ htmlx start end_
               | _ => ""          (* [undefined] joins as the empty string *)
               end) parts in
      Returned ("`" ++ JSString.join "" valueParts ++ "`")
  end.

(** The variables that the walk callbacks of [svelte2tsx] update. *)
Record Walk : Type := mkWalk {
  uses_props : bool;                       (* [uses$$props] *)
  slots : SlotInfo
}.

Definition handleIdentifier (w : Walk) (node : Htmlx.Node) : Walk :=
  if String.eqb (Htmlx.name node) "$$props"
  then {| uses_props := true; slots := slots w |}
  else w.

(** The loop [// collect attributes] of [handleSlot]. *)
Fixpoint collectAttributes (svelte : string) (attrs : list Htmlx.Attribute)
         (attributes : JSMap.t string string)
  : outcome (JSMap.t string string) :=
  match attrs with
  | [] => Returned attributes
  | attr :: rest =>
      if String.eqb (Htmlx.attr_name attr) "name"
      then collectAttributes svelte rest attributes
      else
        match Htmlx.value attr with
        | None | Some [] => collectAttributes svelte rest attributes
        | Some _ =>
            match AttributeValueAsJsExpression svelte attr with
            | Returned e =>
                collectAttributes svelte rest
                  (JSMap.set String.eqb (Htmlx.attr_name attr) e attributes)
            | Thrown e => Thrown e
            end
        end
  end.

Definition handleSlot (svelte : string) (w : Walk) (node : Htmlx.Node)
  : outcome Walk :=
  match Htmlx.attributes node with
  | None => Thrown "TypeError: cannot read properties of undefined"
  | Some attrs =>
      let nameAttr :=
        find (fun a => String.eqb (Htmlx.attr_name a) "name") attrs in
      let slotName :=
        match nameAttr with
        | Some a =>
            match Htmlx.value a with
            | Some (first :: _) => Returned (Htmlx.raw first)
            | _ => Thrown "TypeError: cannot read properties of undefined"
            end
        | None => Returned (Some "default")
        end in
      match slotName with
      | Thrown e => Thrown e
      | Returned slotName =>
          match collectAttributes svelte attrs [] with
          | Thrown e => Thrown e
          | Returned attributes =>
              Returned
                {| uses_props := uses_props w;
                   slots := JSMap.set slotName_eqb slotName attributes
                              (slots w) |}
          end
      end
  end.

(** [onHtmlxWalk(node, parent)]; [parent] is not used. *)
Definition onHtmlxWalk (svelte : string) (w : Walk) (node : Htmlx.Node)
  : outcome Walk :=
  if String.eqb (Htmlx.type node) "Identifier"
  then Returned (handleIdentifier w node)
  else if String.eqb (Htmlx.type node) "Slot"
  then handleSlot svelte w node
  else Returned w.

(** The callbacks over the walked nodes, in order. *)
Fixpoint walkAll (svelte : string) (w : Walk) (nodes : list Htmlx.Node)
  : outcome Walk :=
  match nodes with
  | [] => Returned w
  | node :: rest =>
      match onHtmlxWalk svelte w node with
      | Returned w' => walkAll svelte w' rest
      | Thrown e => Thrown e
      end
  end.

Definition processImports (tsAst : TsAst.SourceFile) (astOffset target : Z)
  : Tx unit :=
  forEach (TsAst.statements tsAst) (fun st =>
    match st with
    | TsAst.ImportDeclaration pos end_ =>
        edit (Magic.move (pos + astOffset) (end_ + astOffset) target) >>
        edit (Magic.overwrite (end_ + astOffset - 1) (end_ + astOffset)
                (dq ++ nl))
    | _ => ret tt
    end).

Definition removeStyleTags (ast : Htmlx.Ast) : Tx unit :=
  forEach (Htmlx.children ast) (fun n =>
    if String.eqb (Htmlx.type n) "Style"
    then edit (Magic.remove (Htmlx.start n) (Htmlx.end_ n))
    else ret tt).

(** The body of the loop of [declareImplictReactiveVariables]. *)
Definition declareImplictReactiveVariable (declaredNames : list string)
           (astOffset : Z) (le : TsAst.Statement) : Tx unit :=
  match le with
  | TsAst.LabeledStatement pos _ label statement =>
      if negb (String.eqb label "$") then ret tt
      else
        match statement with
        | Some (TsAst.ExpressionStatement _ _
                  (Some (TsAst.BinaryExpression
                           (TsAst.IdentifierExpression text)
                           TsAst.EqualsToken _))) =>
            (* are we already declared? *)
            if JSString.truthyOpt (find (fun n => String.eqb text n) declaredNames)
            then ret tt
            else edit (Magic.prependRight (pos + astOffset + 1)
                         (";let " ++ text ++ "; "))
        | _ => ret tt
        end
  | _ => ret tt
  end.

Definition declareImplictReactiveVariables (declaredNames : list string)
           (tsAst : TsAst.SourceFile) (astOffset : Z) : Tx unit :=
  forEach (TsAst.statements tsAst)
    (declareImplictReactiveVariable declaredNames astOffset).

(** The local variables of [replaceExports]. *)
Record Names : Type := mkNames {
  exportedNames : JSMap.t string (option string);
  declaredNames : list string
}.

Definition addDeclaredName (name : option TsAst.BindingName) (ns : Names)
  : outcome Names :=
  match name with
  | None => Thrown "TypeError: cannot read properties of undefined"
  | Some (TsAst.Identifier text) =>
      Returned {| exportedNames := exportedNames ns;
                  declaredNames := declaredNames ns ++ [text] |}
  | Some _ => Returned ns
  end.

Definition addExport (name : option TsAst.BindingName)
           (target : option TsAst.BindingName) (ns : Names) : outcome Names :=
  match name with
  | None => Thrown "TypeError: cannot read properties of undefined"
  | Some (TsAst.Identifier text) =>
      match target with
      | Some (TsAst.Identifier target_text) =>
          Returned {| exportedNames :=
                        JSMap.set String.eqb text (Some target_text)
                          (exportedNames ns);
                      declaredNames := declaredNames ns |}
      | None =>
          Returned {| exportedNames :=
                        JSMap.set String.eqb text None (exportedNames ns);
                      declaredNames := declaredNames ns |}
      | Some _ =>
          Thrown "export target kind not supported [object Object]"
      end
  | Some _ => Thrown "export source kind not supported [object Object]"
  end.

Definition removeExport (astOffset start end_ : Z) : Tx unit :=
  do text <- original;
  let exportStart := JSString.indexOf text "export" (start + astOffset) in
  let exportEnd := exportStart + JS.strlen "export" in
  edit (Magic.remove exportStart exportEnd).

(** The body of the loop over [statements] of [replaceExports]. *)
Definition replaceExport (astOffset : Z) (ns : Names) (s : TsAst.Statement)
  : Tx Names :=
  match s with
  | TsAst.VariableStatement _ _ modifiers declarations =>
      let exportModifier :=
        match modifiers with
        | Some ms => find TsAst.isExportKeyword ms
        | None => None
        end in
      match exportModifier with
      | Some m => removeExport astOffset (TsAst.modifier_pos m)
                    (TsAst.modifier_end m)
      | None => ret tt
      end >>
      foldM (fun ns v =>
               do ns <- match exportModifier with
                        | Some _ => lift (addExport (Some v) None ns)
                        | None => ret ns
                        end;
               lift (addDeclaredName (Some v) ns))
            ns declarations
  | TsAst.FunctionDeclaration _ _ modifiers name =>
      do ns <- match modifiers with
               | Some ms =>
                   match find TsAst.isExportKeyword ms with
                   | Some m =>
                       do ns <- lift (addExport name None ns);
                       removeExport astOffset (TsAst.modifier_pos m)
                         (TsAst.modifier_end m) >>
                       ret ns
                   | None => ret ns
                   end
               | None => ret ns
               end;
      lift (addDeclaredName name ns)
  | TsAst.ExportDeclaration pos end_ exportClause =>
      match exportClause with
      | None => throw "TypeError: cannot read properties of undefined"
      | Some elements =>
          foldM (fun ns ne =>
                   do ns <- match TsAst.propertyName ne with
                            | Some propertyName =>
                                lift (addExport (Some propertyName)
                                        (Some (TsAst.name ne)) ns)
                            | None =>
                                lift (addExport (Some (TsAst.name ne)) None ns)
                            end;
                   (* we can remove entire modifier *)
                   removeExport astOffset pos end_ >>
                   ret ns)
                ns elements
      end
  | _ => ret ns
  end.

Definition replaceExports (tsAst : TsAst.SourceFile) (astOffset : Z)
  : Tx Names :=
  foldM (replaceExport astOffset)
        {| exportedNames := []; declaredNames := [] |}
        (TsAst.statements tsAst).

Definition isModuleContext (a : Htmlx.Attribute) : bool :=
  String.eqb (Htmlx.attr_name a) "context"
  && match Htmlx.value a with
     | Some [part] =>
         match Htmlx.raw part with
         | Some raw => String.eqb raw "module"
         | None => false
         end
     | _ => false
     end.

(** The test of the loop of [findModuleScriptTag]. *)
Definition isModuleScript (n : Htmlx.Node) : bool :=
  String.eqb (Htmlx.type n) "Script"
  && match Htmlx.attributes n with
     | Some attrs => existsb isModuleContext attrs
     | None => false
     end.

(** The test of the loop [//find the script] of [processScriptTag]. *)
Definition isInstanceScript (n : Htmlx.Node) : bool :=
  String.eqb (Htmlx.type n) "Script"
  && match Htmlx.attributes n with
     | Some attrs => negb (existsb isModuleContext attrs)
     | None => false
     end.

Definition findModuleScriptTag (ast : Htmlx.Ast) : option Htmlx.Node :=
  find isModuleScript (Htmlx.children ast).

Definition processModuleScriptTag (script : Htmlx.Node) : Tx unit :=
  do htmlx <- original;
  let scriptStartTagEnd :=
    JSString.indexOf htmlx ">" (Htmlx.start script) + 1 in
  let scriptEndTagStart :=
    JSString.lastIndexOf htmlx "<" (Htmlx.end_ script - 1) in
  edit (Magic.overwrite (Htmlx.start script) scriptStartTagEnd "</>;") >>
  edit (Magic.overwrite scriptEndTagStart (Htmlx.end_ script) ";<>").

(** The instance script: the last child that passes the test. *)
Definition findInstanceScript (ast : Htmlx.Ast) : option Htmlx.Node :=
  fold_left (fun script n => if isInstanceScript n then Some n else script)
            (Htmlx.children ast) None.

Definition slotName_toString (name : option string) : string :=
  match name with
  | Some name => name
  | None => "undefined"
  end.

Definition slotsAsString (slots : SlotInfo) : string :=
  "{"
  ++ JSString.join ", "
       (map (fun entry =>
               let attrsAsString :=
                 JSString.join ", "
                   (map (fun a => fst a ++ ":" ++ snd a) (snd entry)) in
               slotName_toString (fst entry) ++ ": {" ++ attrsAsString ++ "}")
            slots)
  ++ "}".

(** The array [returnElements] of [processScriptTag]. *)
Definition returnElements (exportedNames : JSMap.t string (option string))
  : list string :=
  map (fun entry =>
         match snd entry with
         | Some value =>
             if JSString.truthy value then value ++ ": " ++ fst entry
             else fst entry
         | None => fst entry
         end) exportedNames.

Definition returnString (exportedNames : JSMap.t string (option string))
           (slots : SlotInfo) : string :=
  nl ++ "return { props: {" ++ JSString.join " , " (returnElements exportedNames)
     ++ "}, slots: " ++ slotsAsString slots ++ " }}".

Section Transpiler.
Context {env : Collaborators}.

(** [convertHtmlxToJsx(str, htmlxAst, onHtmlxWalk)]: the callbacks on the
    walked nodes and the edits of the conversion. *)
Definition convertHtmlxToJsx (htmlxAst : Htmlx.Ast) (w : Walk) : Tx Walk :=
  do svelte <- original;
  do w <- lift (walkAll svelte w (walked svelte htmlxAst));
  forEach (converted svelte htmlxAst) edit >>
  ret w.

Definition processScriptTag (ast : Htmlx.Ast) (slots : SlotInfo) (target : Z)
  : Tx unit :=
  do htmlx <- original;
  match findInstanceScript ast with
  | None =>
      edit (Magic.prependRight target ("</>;function render() {" ++ nl ++ "<>")) >>
      edit (Magic.append (";" ++ nl ++ "return { props: {}, slots: "
                          ++ slotsAsString slots ++ " }}"))
  | Some script =>
      (* move it to the top *)
      (if negb (Z.eqb (Htmlx.start script) target)
       then edit (Magic.move (Htmlx.start script) (Htmlx.end_ script) target)
       else ret tt) >>
      let tsAst :=
        createSourceFile
          (JSString.substring_ htmlx (Htmlx.content_start script)
             (Htmlx.content_end script)) in
      let scriptTagEnd :=
        JSString.lastIndexOf htmlx ">" (Htmlx.content_start script) + 1 in
      edit (Magic.overwrite (Htmlx.start script) (Htmlx.start script + 1) "</>;") >>
      edit (Magic.overwrite (Htmlx.start script + 1) scriptTagEnd
              ("function render() {" ++ nl)) >>
      let scriptEndTagStart :=
        JSString.lastIndexOf htmlx "<" (Htmlx.end_ script - 1) in
      edit (Magic.overwrite scriptEndTagStart (Htmlx.end_ script)
              (";" ++ nl ++ "<>")) >>
      do names <- replaceExports tsAst (Htmlx.content_start script);
      declareImplictReactiveVariables (declaredNames names) tsAst
        (Htmlx.content_start script) >>
      edit (Magic.append (returnString (exportedNames names) slots)) >>
      processImports tsAst (Htmlx.content_start script) (Htmlx.start script + 1)
  end.

Definition addComponentExport (uses_props : bool) : Tx unit :=
  edit (Magic.append
          (nl ++ nl ++ "export default class {" ++ nl
           ++ "    $$prop_def = __sveltets_partial"
           ++ (if uses_props then "_with_any" else "")
           ++ "(render().props)" ++ nl
           ++ "    $$slot_def = render().slots" ++ nl ++ "}")).

(** The object returned by [svelte2tsx]. *)
Record Transpiled : Type := mkTranspiled {
  code : string;
  map_ : SourceMap
}.

(** The statements of [svelte2tsx] up to its [return]. *)
Definition transpile (htmlxAst : Htmlx.Ast) : Tx unit :=
  do w <- convertHtmlxToJsx htmlxAst {| uses_props := false; slots := [] |};
  removeStyleTags htmlxAst >>
  let moduleScript := findModuleScriptTag htmlxAst in
  (* move it to the top *)
  match moduleScript with
  | Some m =>
      if negb (Z.eqb (Htmlx.start m) 0)
      then edit (Magic.move (Htmlx.start m) (Htmlx.end_ m) 0)
      else ret tt
  | None => ret tt
  end >>
  let moveScriptTarget :=
    match moduleScript with
    | Some m => if Z.eqb (Htmlx.start m) 0 then Htmlx.end_ m else 0
    | None => 0
    end in
  processScriptTag htmlxAst (slots w) moveScriptTarget >>
  match moduleScript with
  | Some m => processModuleScriptTag m
  | None => ret tt
  end >>
  addComponentExport (uses_props w).

Definition svelte2tsx (svelte : string) : outcome Transpiled :=
  let str := Magic.new svelte in
  let htmlxAst := parseHtmlx svelte in
  match transpile htmlxAst str with
  | Returned (_, str) =>
      Returned {| code := toString str; map_ := generateMap str |}
  | Thrown e => Thrown e
  end.

End Transpiler.

End Svelte2tsx.

(* ================================================================= *)
(** * Part II: vocabulary of the properties *)
(* ================================================================= *)

Import Ledger.

(** [insertCode] scans for the first record beyond [pos]; [insertFrom]
    is the same scan carrying the [total] of the record just passed. *)
Fixpoint insertFrom (prevTotal : Z) (l : list AddedCode) (p : Z) (text : string)
  : list AddedCode :=
  match l with
  | [] => [entry prevTotal p text]
  | c :: rest =>
      if originalPos c >? p
      then entry prevTotal p text :: map (shift (JS.strlen text)) (c :: rest)
      else c :: insertFrom (total c) rest p text
  end.

(** [total] of the last record of a run, [base] for an empty run. *)
Definition lastTotal (base : Z) (l : list AddedCode) : Z :=
  match rev l with
  | [] => base
  | c :: _ => total c
  end.

(** Every record's [total] extends the previous one by its own [length],
    and its [generatedPos] is its [originalPos] moved by the previous
    [total]; [base] is the total in front of the run. *)
Fixpoint chained (base : Z) (l : list AddedCode) : Prop :=
  match l with
  | [] => True
  | c :: rest =>
      0 <= length c
      /\ total c = base + length c
      /\ generatedPos c = originalPos c + base
      /\ chained (total c) rest
  end.

(** Records ordered by [originalPos] under a relation on offsets. *)
Definition orderedBy (R : Z -> Z -> Prop) : list AddedCode -> Prop :=
  StronglySorted (fun a b => R (originalPos a) (originalPos b)).

(** Records are strictly ordered by [originalPos]. *)
Definition strictlyOrdered (l : list AddedCode) : Prop :=
  forall i j a b, (i < j)%nat ->
    nth_error l i = Some a -> nth_error l j = Some b ->
    originalPos a < originalPos b.

(** [total] of the record at index [i] is the sum of [length] over the
    records of index [<= i]. *)
Definition totalsAccumulate (l : list AddedCode) : Prop :=
  forall i c, nth_error l i = Some c -> total c = sumLength (firstn (S i) l).

(** [total] of the record in front of index [i], [0] in front of the first. *)
Definition totalBefore (l : list AddedCode) (i : nat) : Z :=
  match i with
  | O => 0
  | S j => match nth_error l j with Some prev => total prev | None => 0 end
  end.

(** [generatedPos] of the record at index [i] is its [originalPos] plus the
    [total] of the record at index [i - 1]. *)
Definition generatedPosFollows (l : list AddedCode) : Prop :=
  forall i c, nth_error l i = Some c ->
    generatedPos c = originalPos c + totalBefore l i.

(** Each span ends before the next one starts, and no span is negative. *)
Definition spansOrdered (l : list AddedCode) : Prop :=
  StronglySorted (fun a b => generatedPos a + length a <= generatedPos b) l
  /\ Forall (fun c => 0 <= length c) l.

(** The loop of [toOriginalPos] walks over the records that start at or
    before [g] and stops at the first one that starts after it. *)
Definition stopsAt (g : Z) (l : list AddedCode) : Prop :=
  match l with
  | [] => True
  | d :: _ => g < generatedPos d
  end.

(** The records whose [generatedPos] is [<=] the query. *)
Definition startedBy (g : Z) (l : list AddedCode) : list AddedCode :=
  filter (fun c => generatedPos c <=? g) l.

(** The loop of [toVirtualPos] stops at the first record placed after [p]. *)
Definition stopsAtOriginal (p : Z) (l : list AddedCode) : Prop :=
  match l with
  | [] => True
  | d :: _ => p < originalPos d
  end.

(** Strictly increasing positions of a sequence of calls. *)
Definition increasing (calls : list (Z * string)) : Prop :=
  StronglySorted Z.lt (map fst calls).

Import Kit.

(** The ledger carried by a result of the augmentor; nothing for
    [undefined]. *)
Definition recorded {path : PathModule} {host : TsHost}
           (r : option KitFile) : list AddedCode :=
  match r with
  | Some file => kitAddedCode file
  | None => []
  end.

(** The annotation that [upserKitRouteFile] gives to the parameter of
    [load]. *)
Definition loadEventType (basename : string) : string :=
  (": import('./$types.js')."
   ++ (if JSString.includes basename "layout" then "Layout" else "Page")
   ++ (if JSString.includes basename "server" then "Server" else "")
   ++ "LoadEvent")%string.

(** A host for worked examples: a source file is its text together with
    the table that [findExports] returns for it. *)
Definition tableHost : TsHost :=
  {| SourceFile := string * list (string * Ts.Export);
     getFullText := fst;
     findExports := fun source _ name =>
       option_map snd
         (find (fun e => String.eqb (fst e) name) (snd source)) |}.

(** The offset and text of each record of a ledger. *)
Definition insertions (l : list AddedCode) : list (Z * string) :=
  map (fun a => (originalPos a, inserted a)) l.

Import Svelte2tsx.

(** A [MagicString] after some more calls. *)
Definition withEdits (str : Magic.MagicString) (more : list Magic.Edit)
  : Magic.MagicString :=
  {| Magic.original := Magic.original str;
     Magic.edits := Magic.edits str ++ more |}.

(** A run that returns [a] after making exactly the calls [more]. *)
Definition returnsWith {A : Type} (t : Tx A) (str : Magic.MagicString)
           (a : A) (more : list Magic.Edit) : Prop :=
  t str = Returned (a, withEdits str more).

Definition isIdentifier (n : TsAst.BindingName) : bool :=
  match n with
  | TsAst.Identifier _ => true
  | _ => false
  end.

(** The statement carries the [export] modifier. *)
Definition hasExportModifier (modifiers : option (list TsAst.Modifier)) : bool :=
  match modifiers with
  | Some ms => existsb TsAst.isExportKeyword ms
  | None => false
  end.

(** An export whose binding name or rename target is not a plain
    identifier. *)
Definition unsupportedExport (s : TsAst.Statement) : bool :=
  match s with
  | TsAst.VariableStatement _ _ modifiers declarations =>
      hasExportModifier modifiers
      && existsb (fun v => negb (isIdentifier v)) declarations
  | TsAst.FunctionDeclaration _ _ modifiers (Some name) =>
      hasExportModifier modifiers && negb (isIdentifier name)
  | TsAst.ExportDeclaration _ _ (Some elements) =>
      existsb (fun ne =>
                 negb (isIdentifier (TsAst.name ne))
                 || match TsAst.propertyName ne with
                    | Some p => negb (isIdentifier p)
                    | None => false
                    end) elements
  | _ => false
  end.

(** The script that [processScriptTag] parses for the instance script. *)
Definition instanceAst {env : Collaborators} (svelte : string)
           (script : Htmlx.Node) : TsAst.SourceFile :=
  createSourceFile
    (JSString.substring_ svelte (Htmlx.content_start script)
       (Htmlx.content_end script)).

(** A top-level statement declares the name [x]: a variable declaration
    bound to the identifier [x], or a function declaration named [x]. *)
Definition declaresName (x : string) (s : TsAst.Statement) : Prop :=
  match s with
  | TsAst.VariableStatement _ _ _ declarations =>
      In (TsAst.Identifier x) declarations
  | TsAst.FunctionDeclaration _ _ _ (Some (TsAst.Identifier y)) => y = x
  | _ => False
  end.

Definition declaredAtTopLevel (x : string) (stmts : list TsAst.Statement)
  : Prop :=
  exists s, In s stmts /\ declaresName x s.


(** The source identifier under which an export specifier is recorded. *)
Definition specifierSource (ne : TsAst.ExportSpecifier) : list string :=
  match TsAst.propertyName ne, TsAst.name ne with
  | Some (TsAst.Identifier a), _ => [a]
  | None, TsAst.Identifier a => [a]
  | _, _ => []
  end.

Definition identifierTexts (names : list TsAst.BindingName) : list string :=
  flat_map (fun n => match n with
                     | TsAst.Identifier t => [t]
                     | _ => []
                     end) names.

(** The source identifiers that a statement exports. *)
Definition exportedSources (s : TsAst.Statement) : list string :=
  match s with
  | TsAst.VariableStatement _ _ modifiers declarations =>
      if hasExportModifier modifiers then identifierTexts declarations else []
  | TsAst.FunctionDeclaration _ _ modifiers (Some (TsAst.Identifier y)) =>
      if hasExportModifier modifiers then [y] else []
  | TsAst.ExportDeclaration _ _ (Some elements) =>
      flat_map specifierSource elements
  | _ => []
  end.

(** An environment for worked examples: the parsers return the given
    trees, the conversion of the markup does nothing, and the text of the
    result is not looked at. *)
Definition fixedTrees (ast : Htmlx.Ast) (tsAst : TsAst.SourceFile)
  : Collaborators :=
  {| parseHtmlx := fun _ => ast;
     walked := fun _ _ => [];
     converted := fun _ _ => [];
     createSourceFile := fun _ => tsAst;
     toString := Magic.original;
     SourceMap := unit;
     generateMap := fun _ => tt |}.

(** A run that keeps [str.original]. *)
Definition keepsOriginal {A : Type} (t : Tx A) : Prop :=
  forall str a str', t str = Returned (a, str') ->
    Magic.original str' = Magic.original str.

(** A run that cannot throw. *)
Definition neverThrows {A : Type} (t : Tx A) : Prop :=
  forall str, exists a str', t str = Returned (a, str').

(** A run that leaves the earlier calls in place and only adds calls. *)
Definition onlyAdds {A : Type} (t : Tx A) : Prop :=
  forall str a str', t str = Returned (a, str') ->
    exists more, str' = withEdits str more.


(** The records that a sequence of insertions, already in ledger order,
    stands for: each record starts where the previous [total] puts it. *)
Fixpoint rebuild (base : Z) (ps : list (Z * string)) : list AddedCode :=
  match ps with
  | [] => []
  | (p, text) :: rest =>
      entry base p text :: rebuild (base + JS.strlen text) rest
  end.

(** An insertion put in front of the first one at a greater offset. *)
Fixpoint insertPair (p : Z) (text : string) (ps : list (Z * string))
  : list (Z * string) :=
  match ps with
  | [] => [(p, text)]
  | (q, t) :: rest =>
      if q >? p then (p, text) :: (q, t) :: rest
      else (q, t) :: insertPair p text rest
  end.

(** The text that [upsertKitFile] builds from offset [pos] of the original
    text on: for each record the original text up to it and its inserted
    text, then the rest of the original text. *)
Fixpoint pieces (orig : string) (pos : Z) (l : list AddedCode) : string :=
  match l with
  | [] => JSString.slice orig pos None
  | a :: rest =>
      (JSString.slice orig pos (Some (originalPos a))
       ++ inserted a ++ pieces orig (originalPos a) rest)%string
  end.

(** Every record is placed at an offset of the original text. *)
Definition inBounds (orig : string) (l : list AddedCode) : Prop :=
  Forall (fun c => 0 <= originalPos c <= JS.strlen orig) l.

(** A run of records at ascending offsets of the original text from [pos]
    on, each with the length of its text. *)
Fixpoint runFrom (orig : string) (pos : Z) (l : list AddedCode) : Prop :=
  match l with
  | [] => 0 <= pos <= JS.strlen orig
  | a :: rest =>
      0 <= pos <= originalPos a
      /\ length a = JS.strlen (inserted a)
      /\ runFrom orig (originalPos a) rest
  end.

(** A step that takes a ledger the code can build to another one. *)
Definition keepsLedger (s : Step) : Prop :=
  forall l, reachable l -> reachable (s l).

(** No export waits for a type: every export that [findExports] reports
    has a type definition. *)
Definition allTyped (exports : Ts.Exports) : Prop :=
  forall name,
    match exports name with
    | Some (Ts.function _ hasTypeDefinition)
    | Some (Ts.var _ hasTypeDefinition) => hasTypeDefinition = true
    | None => True
    end.

(** A worked example: the server route [export function GET(event) {}],
    the usual settings, and what the route strategy returns for it. *)
Definition getSourceFile : @SourceFile tableHost :=
  ("export function GET(event) {}"%string,
   [("GET"%string,
     Ts.function
       {| Ts.kind := Ts.FunctionDeclaration;
          Ts.parameters := [Ts.mkNode 20 25];
          Ts.type := None;
          Ts.body := Some (Ts.mkNode 27 29) |}
       false)]).

Definition usualSettings : KitFilesSettings :=
  {| serverHooksPath := "src/hooks.server";
     clientHooksPath := "src/hooks.client";
     paramsPath := "src/params" |}.

Definition getUpserted : Upserted :=
  {| addedCode :=
       [ {| generatedPos := 25; originalPos := 25; length := 36; total := 36;
            inserted := ": import('./$types.js').RequestEvent" |};
         {| generatedPos := 63; originalPos := 27; length := 31; total := 67;
            inserted := ": Response | Promise<Response> " |} ];
     originalText := "export function GET(event) {}" |}.

(** A statement on which the scan of the exports throws: an unsupported
    export, a function declaration without a name, or an export
    declaration without an export clause. *)
Definition throwsOn (s : TsAst.Statement) : bool :=
  unsupportedExport s
  || match s with
     | TsAst.FunctionDeclaration _ _ _ None => true
     | TsAst.ExportDeclaration _ _ None => true
     | _ => false
     end.

(** An identifier node of the template named [$$props]. *)
Definition isPropsIdentifier (node : Htmlx.Node) : bool :=
  String.eqb (Htmlx.type node) "Identifier"
  && String.eqb (Htmlx.name node) "$$props".

(** The state of the walk when [svelte2tsx] starts. *)
Definition walkStart : Walk := {| uses_props := false; slots := [] |}.

(* ================================================================= *)
(** * Part III: properties *)
(* ================================================================= *)

(** ** Ledger: a recursive reading of [insertCode] *)

Lemma lastTotal_snoc base l c : lastTotal base (l ++ [c]) = total c.
Proof. unfold lastTotal. now rewrite rev_app_distr. Qed.

Lemma totalAt_last l :
  totalAt l (Z.of_nat (List.length l) - 1) = lastTotal 0 l.
Proof.
  unfold totalAt, JS.at_, lastTotal.
  destruct l as [|c l] using rev_ind; [reflexivity|].
  rewrite length_app, rev_app_distr. cbn [List.length rev app].
  destruct (Z.ltb_spec (Z.of_nat (List.length l + 1) - 1) 0); [lia|].
  replace (Z.to_nat (Z.of_nat (List.length l + 1) - 1)) with (List.length l) by lia.
  now rewrite nth_error_app2, Nat.sub_diag by lia.
Qed.

Lemma findIndex_app_none {A} (f : A -> bool) pre l :
  Forall (fun x => f x = false) pre ->
  JS.findIndex f (pre ++ l)
  = option_map (fun i => (List.length pre + i)%nat) (JS.findIndex f l).
Proof.
  induction 1 as [|x pre Hx _ IH]; cbn.
  - now destruct (JS.findIndex f l).
  - rewrite Hx, IH. now destruct (JS.findIndex f l).
Qed.

Lemma insertCode_app pre l p text :
  Forall (fun c => (originalPos c >? p) = false) pre ->
  insertCode (pre ++ l) p text = pre ++ insertFrom (lastTotal 0 pre) l p text.
Proof.
  revert pre. induction l as [|c rest IH]; intros pre Hpre.
  - unfold insertCode. rewrite findIndex_app_none by assumption. cbn.
    now rewrite app_nil_r, totalAt_last.
  - cbn [insertFrom]. destruct (originalPos c >? p) eqn:Hc.
    + unfold insertCode. rewrite findIndex_app_none by assumption.
      cbn [JS.findIndex]. rewrite Hc. cbn [option_map].
      rewrite Nat.add_0_r.
      rewrite firstn_app, skipn_app, Nat.sub_diag, firstn_all, skipn_all.
      cbn [firstn skipn app]. rewrite app_nil_r.
      unfold JS.splice.
      rewrite firstn_app, skipn_app, Nat.sub_diag, firstn_all, skipn_all.
      cbn [firstn skipn app]. rewrite app_nil_r.
      f_equal. f_equal. f_equal.
      unfold totalAt, JS.at_, lastTotal.
      destruct pre as [|d pre'] using rev_ind.
      * reflexivity.
      * rewrite length_app, rev_app_distr. cbn [List.length rev app].
        destruct (Z.ltb_spec (Z.of_nat (List.length pre' + 1) - 1) 0); [lia|].
        replace (Z.to_nat (Z.of_nat (List.length pre' + 1) - 1))
          with (List.length pre') by lia.
        rewrite <- app_assoc. now rewrite nth_error_app2, Nat.sub_diag by lia.
    + replace (pre ++ c :: rest) with ((pre ++ [c]) ++ rest)
        by now rewrite <- app_assoc.
      rewrite IH.
      * now rewrite lastTotal_snoc, <- app_assoc.
      * apply Forall_app. split; [assumption|]. now constructor.
Qed.

Lemma insertCode_insertFrom l p text :
  insertCode l p text = insertFrom 0 l p text.
Proof. exact (insertCode_app [] l p text (Forall_nil _)). Qed.

(** ** Ledger: the invariant kept by [insertCode] *)

Lemma strlen_nonneg s : 0 <= JS.strlen s.
Proof. unfold JS.strlen. lia. Qed.

Lemma chained_shift n base l :
  chained base l -> chained (base + n) (map (shift n) l).
Proof.
  revert base. induction l as [|c rest IH]; intros base; cbn; [trivial|].
  intros (Hlen & Htot & Hgen & Hrest). repeat split; try lia.
  now apply IH.
Qed.

Lemma chained_insertFrom base l p text :
  chained base l -> chained base (insertFrom base l p text).
Proof.
  revert base. induction l as [|c rest IH]; intros base H.
  - cbn. pose proof (strlen_nonneg text). repeat split; lia.
  - cbn [insertFrom]. destruct (originalPos c >? p).
    + pose proof (strlen_nonneg text) as Hn.
      split; [exact Hn|]. split; [reflexivity|]. split; [reflexivity|].
      cbn [total entry]. now apply chained_shift.
    + cbn in H |- *. destruct H as (Hlen & Htot & Hgen & Hrest).
      repeat split; try assumption. now apply IH.
Qed.

Lemma originalPos_shift n c : originalPos (shift n c) = originalPos c.
Proof. reflexivity. Qed.

Lemma orderedBy_shift R n l : orderedBy R l -> orderedBy R (map (shift n) l).
Proof.
  unfold orderedBy. induction 1 as [|c rest Hs IH Hall]; cbn; constructor.
  - exact IH.
  - rewrite Forall_map. exact Hall.
Qed.

Lemma in_insertFrom base l p text x :
  In x (insertFrom base l p text) ->
  originalPos x = p \/ exists y, In y l /\ originalPos x = originalPos y.
Proof.
  revert base. induction l as [|c rest IH]; intros base; cbn [insertFrom].
  - intros [<-|[]]. now left.
  - destruct (originalPos c >? p).
    + intros [<-|Hin]; [now left|]. right.
      apply in_map_iff in Hin. destruct Hin as (y & <- & Hy). now exists y.
    + intros [<-|Hin].
      * right. eexists. split; [left; reflexivity|reflexivity].
      * destruct (IH _ Hin) as [->|(y & Hy & ->)]; [now left|].
        right. exists y. split; [now right|reflexivity].
Qed.

(** Inserting keeps the order, for an order between [<] and [<=] that
    places [p] after the offsets of the ledger that do not exceed it. *)
Lemma orderedBy_insertFrom (R : Z -> Z -> Prop) base l p text :
  (forall x y, R x y -> x <= y) ->
  (forall x, p < x -> R p x) ->
  (forall c, In c l -> originalPos c <= p -> R (originalPos c) p) ->
  orderedBy R l -> orderedBy R (insertFrom base l p text).
Proof.
  intros Hsub Hgt. revert base.
  induction l as [|c rest IH]; intros base Hle Hs; cbn [insertFrom].
  - constructor; constructor.
  - apply StronglySorted_inv in Hs. destruct Hs as [Hrest Hall].
    rewrite Forall_forall in Hall.
    destruct (Z.gtb_spec (originalPos c) p) as [Hc|Hc].
    + constructor.
      * apply (orderedBy_shift R _ (c :: rest)). constructor; [exact Hrest|].
        now apply Forall_forall.
      * apply Forall_forall. intros x Hx. cbn [originalPos entry].
        apply Hgt. apply in_map_iff in Hx. destruct Hx as (y & <- & Hy).
        rewrite originalPos_shift. destruct Hy as [<-|Hy]; [lia|].
        specialize (Hsub _ _ (Hall _ Hy)). lia.
    + constructor.
      * apply IH; [|exact Hrest]. intros d Hd. apply Hle. now right.
      * apply Forall_forall. intros x Hx.
        destruct (in_insertFrom _ _ _ _ _ Hx) as [->|(y & Hy & ->)].
        -- apply Hle; [now left|lia].
        -- now apply Hall.
Qed.

Lemma reachable_chained l : reachable l -> chained 0 l.
Proof.
  induction 1 as [|l p text _ IH]; [exact I|].
  rewrite insertCode_insertFrom. now apply chained_insertFrom.
Qed.

Lemma reachable_ordered l : reachable l -> orderedBy Z.le l.
Proof.
  induction 1 as [|l p text _ IH]; [constructor|].
  rewrite insertCode_insertFrom. apply orderedBy_insertFrom; try assumption.
  - trivial.
  - intros; lia.
  - intros; assumption.
Qed.

Lemma reachable_build calls : reachable (build calls).
Proof.
  unfold build. induction calls as [|call calls IH] using rev_ind.
  - constructor.
  - rewrite fold_left_app. cbn. now constructor.
Qed.

(** ** Ledger: the invariant read by index *)

Lemma ordered_lt_index l :
  orderedBy Z.lt l -> strictlyOrdered l.
Proof.
  unfold orderedBy, strictlyOrdered.
  induction 1 as [|c rest Hs IH Hall]; intros i j a b Hij Ha Hb.
  - now destruct i.
  - destruct j as [|j]; [lia|]. cbn in Hb. destruct i as [|i]; cbn in Ha.
    + injection Ha as <-. rewrite Forall_forall in Hall.
      apply Hall. eapply nth_error_In; eassumption.
    + apply (IH i j); [lia|assumption..].
Qed.

Lemma strictlyOrdered_NoDup l :
  strictlyOrdered l -> NoDup (map originalPos l).
Proof.
  intros H. apply (proj2 (NoDup_nth_error _)). intros i j Hi Heq.
  rewrite length_map in Hi.
  rewrite !nth_error_map in Heq.
  destruct (nth_error l i) as [a|] eqn:Ha;
    [|apply nth_error_None in Ha; lia].
  destruct (nth_error l j) as [b|] eqn:Hb; [|discriminate].
  cbn in Heq. injection Heq as Heq.
  destruct (Nat.lt_total i j) as [Hlt|[->|Hgt]]; [|reflexivity|].
  - specialize (H _ _ _ _ Hlt Ha Hb). lia.
  - specialize (H _ _ _ _ Hgt Hb Ha). lia.
Qed.

Lemma chained_index base l i c :
  chained base l -> nth_error l i = Some c ->
  total c = base + sumLength (firstn (S i) l)
  /\ generatedPos c
     = originalPos c
       + match i with
         | O => base
         | S j => match nth_error l j with Some prev => total prev | None => 0 end
         end.
Proof.
  revert base i. induction l as [|d rest IH]; intros base i Hch Hi.
  - now destruct i.
  - destruct Hch as (Hlen & Htot & Hgen & Hrest). destruct i as [|i].
    + cbn in Hi. injection Hi as <-. cbn. split; lia.
    + cbn in Hi. destruct (IH _ _ Hrest Hi) as [Ht Hg]. split.
      * rewrite Ht, Htot. cbn [firstn sumLength fold_right].
        unfold sumLength. cbn. lia.
      * rewrite Hg. destruct i as [|i]; reflexivity.
Qed.

Lemma in_build_positions calls p :
  In p (map originalPos (build calls)) -> In p (map fst calls).
Proof.
  unfold build. revert p.
  induction calls as [|call calls IH] using rev_ind; intros p; [trivial|].
  rewrite fold_left_app, map_app, in_app_iff. cbn [fold_left map].
  rewrite insertCode_insertFrom. intros Hin.
  apply in_map_iff in Hin. destruct Hin as (x & <- & Hx).
  destruct (in_insertFrom _ _ _ _ _ Hx) as [->|(y & Hy & ->)].
  - right. now left.
  - left. apply IH. now apply in_map.
Qed.

Lemma build_distinct_ordered calls :
  NoDup (map fst calls) -> orderedBy Z.lt (build calls).
Proof.
  induction calls as [|call calls IH] using rev_ind; intros Hnd.
  - constructor.
  - rewrite map_app in Hnd. cbn in Hnd.
    apply NoDup_remove in Hnd. rewrite app_nil_r in Hnd.
    destruct Hnd as [Hnd Hnew].
    unfold build. rewrite fold_left_app. cbn [fold_left].
    rewrite insertCode_insertFrom. apply orderedBy_insertFrom.
    + intros; lia.
    + trivial.
    + intros c Hc Hle. destruct (Z.eq_dec (originalPos c) (fst call)) as [E|E]; [|lia].
      exfalso. apply Hnew. apply in_build_positions. rewrite <- E. now apply in_map.
    + now apply IH.
Qed.

(** C2. After any sequence of [insert] calls at pairwise distinct positions
    on a fresh ledger, the records are strictly ordered by [originalPos]
    (so no [originalPos] occurs twice), [total] at index [i] is the sum of
    [length] over the indices [<= i], and [generatedPos] at index [i] is
    [originalPos] plus the [total] at index [i - 1] (plus [0] at index 0). *)
Theorem insert_distinct_invariant (calls : list (Z * string)) :
  NoDup (map fst calls) ->
  strictlyOrdered (build calls)
  /\ NoDup (map originalPos (build calls))
  /\ totalsAccumulate (build calls)
  /\ generatedPosFollows (build calls).
Proof.
  intros Hnd.
  pose proof (ordered_lt_index _ (build_distinct_ordered _ Hnd)) as Hord.
  pose proof (reachable_chained _ (reachable_build calls)) as Hch.
  split; [exact Hord|]. split; [now apply strictlyOrdered_NoDup|]. split.
  - intros i c Hi. now destruct (chained_index _ _ _ _ Hch Hi) as [-> _].
  - intros i c Hi. destruct (chained_index _ _ _ _ Hch Hi) as [_ ->].
    destruct i; reflexivity.
Qed.

Lemma insert_distinct_invariant_witness :
  let l := build [(20, "cd"); (5, "abc"); (9, "")] in
  map originalPos l = [5; 9; 20]
  /\ map total l = [3; 3; 5]
  /\ map generatedPos l = [5; 12; 23]
  /\ strictlyOrdered l /\ NoDup (map originalPos l)
  /\ totalsAccumulate l /\ generatedPosFollows l.
Proof.
  repeat (split; [reflexivity|]).
  apply (insert_distinct_invariant [(20, "cd"); (5, "abc"); (9, "")]).
  cbn. repeat constructor; cbn; intuition lia.
Defined.

(** ** Ledger: spans of a reachable ledger do not overlap *)

Lemma chained_offset base l c :
  chained base l -> In c l ->
  0 <= length c /\ base <= generatedPos c - originalPos c
  /\ generatedPos c + length c = originalPos c + total c.
Proof.
  revert base. induction l as [|d rest IH]; intros base Hch Hin; [easy|].
  destruct Hch as (Hlen & Htot & Hgen & Hrest). destruct Hin as [<-|Hin].
  - lia.
  - destruct (IH _ Hrest Hin) as (H1 & H2 & H3). lia.
Qed.

Lemma chained_spansOrdered base l :
  chained base l -> orderedBy Z.le l -> spansOrdered l.
Proof.
  unfold spansOrdered, orderedBy. revert base.
  induction l as [|c rest IH]; intros base Hch Hs.
  - split; constructor.
  - apply StronglySorted_inv in Hs. destruct Hs as [Hs Hall].
    pose proof Hch as (Hlen & Htot & Hgen & Hrest).
    destruct (IH _ Hrest Hs) as [IH1 IH2]. split; constructor; try assumption.
    rewrite Forall_forall in Hall |- *. intros d Hd.
    specialize (Hall _ Hd). destruct (chained_offset _ _ _ Hrest Hd). lia.
Qed.

Lemma reachable_spansOrdered l : reachable l -> spansOrdered l.
Proof.
  intros H. eapply chained_spansOrdered.
  - now apply reachable_chained.
  - now apply reachable_ordered.
Qed.

Lemma StronglySorted_middle {A} (R : A -> A -> Prop) l1 x l2 :
  StronglySorted R (l1 ++ x :: l2) ->
  Forall (fun c => R c x) l1 /\ Forall (R x) l2.
Proof.
  induction l1 as [|a l1 IH]; cbn; intros H;
    apply StronglySorted_inv in H; destruct H as [Hs Hall].
  - split; [constructor|assumption].
  - destruct (IH Hs) as [H1 H2]. split; [|assumption]. constructor; [|assumption].
    rewrite Forall_forall in Hall. apply Hall. apply in_elt.
Qed.

Lemma toOriginalPos_loop_app g l1 l2 tot idx :
  Forall (fun c => generatedPos c <= g) l1 -> stopsAt g l2 ->
  toOriginalPos_loop g (l1 ++ l2) tot idx
  = (tot + sumLength l1, (idx + List.length l1)%nat).
Proof.
  intros H. revert tot idx. induction H as [|c l1 Hc _ IH]; intros tot idx Hstop.
  - cbn. rewrite Z.add_0_r, Nat.add_0_r. destruct l2 as [|d l2]; [reflexivity|].
    cbn in *. now destruct (Z.ltb_spec g (generatedPos d)); [|lia].
  - cbn. destruct (Z.ltb_spec g (generatedPos c)); [lia|].
    rewrite IH by assumption. f_equal; [|lia].
    unfold sumLength. cbn. lia.
Qed.

Lemma toOriginalPos_split g l :
  exists l1 l2, l = l1 ++ l2
    /\ Forall (fun c => generatedPos c <= g) l1 /\ stopsAt g l2.
Proof.
  induction l as [|c rest (l1 & l2 & -> & H1 & H2)].
  - exists [], []. repeat split; constructor.
  - destruct (Z.lt_ge_cases g (generatedPos c)).
    + exists [], (c :: l1 ++ l2). repeat split; [constructor|assumption].
    + exists (c :: l1), l2. repeat split; [constructor|]; assumption.
Qed.

Lemma toOriginalPos_inside_span g l r :
  spansOrdered l -> In r l -> insideSpan g r ->
  toOriginalPos g l = {| pos := originalPos r; inGenerated := true |}.
Proof.
  intros [Hs Hlen] Hin [Hlo Hhi].
  apply in_split in Hin. destruct Hin as (l1 & l2 & ->).
  destruct (StronglySorted_middle _ _ _ _ Hs) as [Hbefore Hafter].
  unfold toOriginalPos.
  replace (l1 ++ r :: l2) with ((l1 ++ [r]) ++ l2) by now rewrite <- app_assoc.
  rewrite toOriginalPos_loop_app.
  - rewrite length_app, Nat.add_0_l, Nat.add_comm. cbn [List.length Nat.add].
    rewrite <- app_assoc. cbn [app].
    rewrite nth_error_app2, Nat.sub_diag by lia. cbn [nth_error].
    destruct (Z.gtb_spec g (generatedPos r)); [|lia].
    now destruct (Z.ltb_spec g (generatedPos r + length r)); [|lia].
  - apply Forall_app. split; [|constructor; [lia|constructor]].
    rewrite Forall_forall in Hbefore, Hlen |- *. intros c Hc.
    specialize (Hbefore _ Hc). specialize (Hlen c (in_or_app _ _ _ (or_introl Hc))).
    cbn in Hbefore. lia.
  - destruct l2 as [|d l2]; [exact I|]. cbn.
    rewrite Forall_forall in Hafter. specialize (Hafter d (or_introl eq_refl)).
    cbn in Hafter. lia.
Qed.

Lemma startedBy_split g l1 l2 :
  spansOrdered (l1 ++ l2) ->
  Forall (fun c => generatedPos c <= g) l1 -> stopsAt g l2 ->
  startedBy g (l1 ++ l2) = l1.
Proof.
  intros [Hs Hlen] H1 H2. unfold startedBy. rewrite filter_app.
  rewrite <- (app_nil_r l1) at 2. f_equal.
  - apply forallb_filter_id. apply forallb_forall. rewrite Forall_forall in H1.
    intros c Hc. apply Z.leb_le. now apply H1.
  - destruct l2 as [|d l2]; [reflexivity|]. cbn in H2.
    destruct (StronglySorted_middle _ _ _ _ Hs) as [_ Hafter].
    rewrite Forall_forall in Hafter, Hlen.
    pose proof (Hlen d (in_elt _ _ _)) as Hd.
    assert (Hall : forall c, In c (d :: l2) -> (generatedPos c <=? g) = false).
    { intros c [<-|Hc]; apply Z.leb_gt; [lia|]. specialize (Hafter _ Hc). cbn in Hafter. lia. }
    clear - Hall. induction (d :: l2) as [|c rest IH]; [reflexivity|].
    cbn. rewrite (Hall c (or_introl eq_refl)). apply IH.
    intros c' Hc'. apply Hall. now right.
Qed.

Lemma toOriginalPos_outside_spans g l :
  spansOrdered l -> (forall c, In c l -> ~ insideSpan g c) ->
  toOriginalPos g l
  = {| pos := g - sumLength (startedBy g l); inGenerated := false |}.
Proof.
  intros Hsp Hout. destruct (toOriginalPos_split g l) as (l1 & l2 & -> & H1 & H2).
  rewrite (startedBy_split _ _ _ Hsp H1 H2).
  unfold toOriginalPos. rewrite toOriginalPos_loop_app by assumption.
  rewrite Z.add_0_l, Nat.add_0_l.
  destruct (List.length l1) as [|n] eqn:Hn; [reflexivity|].
  destruct (nth_error (l1 ++ l2) n) as [prev|] eqn:Hprev; [|reflexivity].
  assert (Hin : In prev (l1 ++ l2)) by (eapply nth_error_In; eassumption).
  specialize (Hout _ Hin). unfold insideSpan in Hout.
  destruct (Z.gtb_spec g (generatedPos prev)); [|reflexivity].
  destruct (Z.ltb_spec g (generatedPos prev + length prev)); [lia|reflexivity].
Qed.

(** C3. On every ledger the code can build, a generated position strictly
    inside the span of a record maps to that record's [originalPos] with
    [inGenerated = true]; any other generated position maps to itself minus
    the lengths of the records whose [generatedPos] is [<=] it, with
    [inGenerated = false]. *)
Theorem toOriginalPos_spec (l : list AddedCode) (g : Z) :
  reachable l ->
  (forall r, In r l -> insideSpan g r ->
     toOriginalPos g l = {| pos := originalPos r; inGenerated := true |})
  /\ ((forall c, In c l -> ~ insideSpan g c) ->
     toOriginalPos g l
     = {| pos := g - sumLength (startedBy g l); inGenerated := false |}).
Proof.
  intros Hr. pose proof (reachable_spansOrdered _ Hr) as Hsp. split.
  - intros r Hin Hspan. now apply toOriginalPos_inside_span.
  - now apply toOriginalPos_outside_spans.
Qed.

Lemma toOriginalPos_spec_witness :
  let l := insertCode (insertCode [] 5 "abc") 9 "de" in
  let r := {| generatedPos := 5; originalPos := 5; length := 3; total := 3;
              inserted := "abc" |} in
  reachable l
  /\ toOriginalPos 6 l = {| pos := 5; inGenerated := true |}
  /\ toOriginalPos 20 l = {| pos := 15; inGenerated := false |}.
Proof.
  intros l r.
  assert (Hl : reachable l) by (repeat constructor).
  split; [exact Hl|]. split.
  - apply (proj1 (toOriginalPos_spec l 6 Hl) r).
    + left. reflexivity.
    + unfold insideSpan. cbn. lia.
  - apply (proj2 (toOriginalPos_spec l 20 Hl)).
    intros c [<-|[<-|[]]]; unfold insideSpan; cbn; lia.
Defined.

(** ** Ledger: the round trip through [toVirtualPos] *)

Lemma toVirtualPos_loop_app p l1 l2 tot :
  Forall (fun c => originalPos c <= p) l1 -> stopsAtOriginal p l2 ->
  toVirtualPos_loop p (l1 ++ l2) tot = tot + sumLength l1.
Proof.
  intros H. revert tot. induction H as [|c l1 Hc _ IH]; intros tot Hstop.
  - cbn. rewrite Z.add_0_r. destruct l2 as [|d l2]; [reflexivity|].
    cbn in *. now destruct (Z.ltb_spec p (originalPos d)); [|lia].
  - cbn. destruct (Z.ltb_spec p (originalPos c)); [lia|].
    rewrite IH by assumption. unfold sumLength. cbn. lia.
Qed.

Lemma toVirtualPos_split p l :
  exists l1 l2, l = l1 ++ l2
    /\ Forall (fun c => originalPos c <= p) l1 /\ stopsAtOriginal p l2.
Proof.
  induction l as [|c rest (l1 & l2 & -> & H1 & H2)].
  - exists [], []. repeat split; constructor.
  - destruct (Z.lt_ge_cases p (originalPos c)).
    + exists [], (c :: l1 ++ l2). repeat split; [constructor|assumption].
    + exists (c :: l1), l2. repeat split; [constructor|]; assumption.
Qed.

Lemma chained_app base l1 l2 :
  chained base (l1 ++ l2) ->
  chained base l1 /\ chained (base + sumLength l1) l2.
Proof.
  revert base. induction l1 as [|c l1 IH]; intros base H; cbn in *.
  - now rewrite Z.add_0_r.
  - destruct H as (Hlen & Htot & Hgen & Hrest).
    destruct (IH _ Hrest) as [H1 H2]. repeat split; try assumption.
    unfold sumLength in *. cbn. rewrite Htot in H2.
    now replace (base + (length c + fold_right (fun c acc => length c + acc) 0 l1))
      with (base + length c + fold_right (fun c acc => length c + acc) 0 l1) by lia.
Qed.

Lemma chained_total_bound base l c :
  chained base l -> In c l -> total c <= base + sumLength l.
Proof.
  revert base. induction l as [|d rest IH]; intros base H Hin; [easy|].
  destruct H as (Hlen & Htot & Hgen & Hrest). unfold sumLength in *. cbn.
  assert (Hsum : total d <= total d + fold_right (fun c acc => length c + acc) 0 rest).
  { clear - Hrest. revert Hrest. generalize (total d).
    induction rest as [|e rest IH]; intros b H; cbn; [lia|].
    destruct H as (Hlen & Htot & Hgen & Hrest). specialize (IH _ Hrest). lia. }
  destruct Hin as [<-|Hin]; [lia|].
  specialize (IH _ Hrest Hin). lia.
Qed.

(** Where the loop of [toVirtualPos] stops is where the loop of
    [toOriginalPos] stops on the image. *)
Lemma virtual_image_split p l1 l2 :
  chained 0 (l1 ++ l2) ->
  Forall (fun c => originalPos c <= p) l1 -> stopsAtOriginal p l2 ->
  Forall (fun c => generatedPos c + length c <= p + sumLength l1) l1
  /\ stopsAt (p + sumLength l1) l2.
Proof.
  intros Hch H1 H2. destruct (chained_app _ _ _ Hch) as [Hc1 Hc2]. split.
  - rewrite Forall_forall in H1 |- *. intros c Hc.
    destruct (chained_offset _ _ _ Hc1 Hc) as (_ & _ & ->).
    pose proof (chained_total_bound _ _ _ Hc1 Hc). specialize (H1 _ Hc). lia.
  - destruct l2 as [|d l2]; [exact I|]. cbn in *.
    destruct Hc2 as (_ & _ & -> & _). lia.
Qed.

Lemma virtual_image_outside_spans l p c :
  reachable l -> In c l -> ~ insideSpan (toVirtualPos p l) c.
Proof.
  intros Hr Hin. pose proof (reachable_chained _ Hr) as Hch.
  pose proof (reachable_spansOrdered _ Hr) as [Hs Hlen].
  destruct (toVirtualPos_split p l) as (l1 & l2 & -> & H1 & H2).
  unfold toVirtualPos. rewrite toVirtualPos_loop_app, Z.add_0_l by assumption.
  destruct (virtual_image_split _ _ _ Hch H1 H2) as [Hin1 Hstop].
  unfold insideSpan. apply in_app_or in Hin. destruct Hin as [Hc|Hc].
  - rewrite Forall_forall in Hin1. specialize (Hin1 _ Hc). lia.
  - destruct l2 as [|d l2]; [easy|]. cbn in Hstop.
    destruct Hc as [<-|Hc]; [lia|].
    destruct (StronglySorted_middle _ _ _ _ Hs) as [_ Hafter].
    rewrite Forall_forall in Hafter, Hlen. specialize (Hafter _ Hc). cbn in Hafter.
    pose proof (Hlen d (in_elt _ _ _)). lia.
Qed.

Lemma startedBy_virtual_image l p :
  reachable l ->
  sumLength (startedBy (toVirtualPos p l) l) = toVirtualPos_loop p l 0.
Proof.
  intros Hr. pose proof (reachable_chained _ Hr) as Hch.
  pose proof (reachable_spansOrdered _ Hr) as Hsp.
  destruct (toVirtualPos_split p l) as (l1 & l2 & -> & H1 & H2).
  unfold toVirtualPos. rewrite toVirtualPos_loop_app, Z.add_0_l by assumption.
  destruct (virtual_image_split _ _ _ Hch H1 H2) as [Hin1 Hstop].
  rewrite (startedBy_split _ l1 l2); try assumption; [reflexivity|].
  destruct Hsp as [_ Hlen]. apply Forall_app in Hlen. destruct Hlen as [Hlen _].
  rewrite Forall_forall in Hin1, Hlen |- *. intros c Hc.
  specialize (Hin1 _ Hc). specialize (Hlen _ Hc). cbn in Hlen. lia.
Qed.

(** C1. For a ledger built by [insert] calls at strictly increasing
    positions and an original offset [p] whose image under [toVirtualPos]
    is not strictly inside an inserted span,
    [toOriginalPos (toVirtualPos p)] is [p] with [inGenerated = false].
    (By [virtual_image_outside_spans] the image never is inside a span.) *)
Theorem roundtrip_original (calls : list (Z * string)) (p : Z) :
  increasing calls ->
  (forall c, In c (build calls) -> ~ insideSpan (toVirtualPos p (build calls)) c) ->
  toOriginalPos (toVirtualPos p (build calls)) (build calls)
  = {| pos := p; inGenerated := false |}.
Proof.
  intros _ Hout. pose proof (reachable_build calls) as Hr.
  rewrite toOriginalPos_outside_spans.
  - rewrite startedBy_virtual_image by assumption. unfold toVirtualPos.
    f_equal. lia.
  - now apply reachable_spansOrdered.
  - exact Hout.
Qed.

Lemma roundtrip_original_witness :
  let calls := [(5, "abc"); (9, "de")] in
  increasing calls
  /\ toVirtualPos 7 (build calls) = 10
  /\ toOriginalPos 10 (build calls) = {| pos := 7; inGenerated := false |}.
Proof.
  intros calls.
  assert (Hinc : increasing calls).
  { unfold increasing. cbn. repeat constructor. }
  split; [exact Hinc|]. split; [reflexivity|].
  apply (roundtrip_original calls 7 Hinc).
  intros c [<-|[<-|[]]]; unfold insideSpan; cbn; lia.
Defined.

(** ** Ledger: inserting at a position that is already recorded *)

Lemma chained_indexwise l :
  chained 0 l -> totalsAccumulate l /\ generatedPosFollows l.
Proof.
  intros Hch. split; intros i c Hi.
  - now destruct (chained_index _ _ _ _ Hch Hi) as [-> _].
  - destruct (chained_index _ _ _ _ Hch Hi) as [_ ->]. destruct i; reflexivity.
Qed.

Lemma insertFrom_positions base l p text :
  Permutation (map originalPos (insertFrom base l p text))
              (p :: map originalPos l).
Proof.
  revert base. induction l as [|c rest IH]; intros base; cbn [insertFrom].
  - reflexivity.
  - destruct (originalPos c >? p).
    + cbn [map]. rewrite map_map. cbn. reflexivity.
    + cbn [map]. rewrite IH. apply perm_swap.
Qed.

(** Where [insertCode] puts the new record: behind the leading records
    whose [originalPos] does not exceed the position, in front of the
    (shifted) rest. *)
Lemma insertFrom_place base l p text :
  exists l1 l2, l = l1 ++ l2
    /\ Forall (fun c => originalPos c <= p) l1 /\ stopsAtOriginal p l2
    /\ insertFrom base l p text
       = l1 ++ entry (lastTotal base l1) p text
            :: map (shift (JS.strlen text)) l2.
Proof.
  revert base. induction l as [|c rest IH]; intros base.
  - exists [], []. repeat split; constructor.
  - cbn [insertFrom]. destruct (Z.gtb_spec (originalPos c) p) as [Hc|Hc].
    + exists [], (c :: rest). repeat split; [constructor|exact Hc].
    + destruct (IH (total c)) as (l1 & l2 & -> & H1 & H2 & ->).
      exists (c :: l1), l2. repeat split; [constructor; assumption|assumption|].
      cbn [app]. f_equal. f_equal. f_equal.
      unfold lastTotal. cbn [rev]. destruct (rev l1); reflexivity.
Qed.

(** C5 (as the code behaves). [insertCode] has no failure path: called with
    a position that the ledger already records, it returns the ledger with
    one more record, placed behind the records whose [originalPos] is [<=]
    the position. The result records the position twice, is still ordered
    by [originalPos] (not strictly), and keeps the [total] and
    [generatedPos] relations. *)
Theorem insert_recorded_position (l : list AddedCode) (p : Z) (text : string) :
  reachable l -> In p (map originalPos l) ->
  let l' := insertCode l p text in
  (exists l1 l2, l = l1 ++ l2
     /\ Forall (fun c => originalPos c <= p) l1 /\ stopsAtOriginal p l2
     /\ l' = l1 ++ entry (lastTotal 0 l1) p text
                :: map (shift (JS.strlen text)) l2)
  /\ Permutation (map originalPos l') (p :: map originalPos l)
  /\ ~ NoDup (map originalPos l')
  /\ orderedBy Z.le l' /\ totalsAccumulate l' /\ generatedPosFollows l'.
Proof.
  intros Hr Hin l'.
  assert (Hr' : reachable l') by now constructor.
  subst l'. rewrite insertCode_insertFrom in *.
  split; [apply insertFrom_place|].
  split; [apply insertFrom_positions|].
  split.
  - intros Hnd. apply (Permutation_NoDup (insertFrom_positions 0 l p text)) in Hnd.
    apply NoDup_cons_iff in Hnd. now destruct Hnd.
  - rewrite <- insertCode_insertFrom in *. split; [now apply reachable_ordered|].
    apply chained_indexwise. now apply reachable_chained.
Qed.

Lemma insert_recorded_position_witness :
  let l := insertCode [] 5 "abc" in
  reachable l /\ In 5 (map originalPos l)
  /\ ~ NoDup (map originalPos (insertCode l 5 "de"))
  /\ totalsAccumulate (insertCode l 5 "de").
Proof.
  intros l.
  assert (Hl : reachable l) by (repeat constructor).
  assert (Hin : In 5 (map originalPos l)) by (left; reflexivity).
  split; [exact Hl|]. split; [exact Hin|].
  destruct (insert_recorded_position l 5 "de" Hl Hin) as (_ & _ & Hd & _ & Ht & _).
  split; [exact Hd|exact Ht].
Defined.

(** C5 (as the specification words it) does not hold: the second call at
    offset 5 returns normally, and the ledger it returns records the offset
    twice. *)
Lemma insert_recorded_position_counterexample :
  let l := insertCode [] 5 "abc" in
  In 5 (map originalPos l)
  /\ insertCode l 5 "de"
     = [ {| generatedPos := 5; originalPos := 5; length := 3; total := 3;
            inserted := "abc" |};
         {| generatedPos := 8; originalPos := 5; length := 2; total := 5;
            inserted := "de" |} ]
  /\ ~ NoDup (map originalPos (insertCode l 5 "de")).
Proof.
  cbn. split; [now left|]. split; [reflexivity|].
  intros H. apply NoDup_cons_iff in H. destruct H as [H _]. apply H. now left.
Qed.

(** ** Augmentor: the order of the strategies *)

Section AugmentorFacts.
Context {path : PathModule} {host : TsHost}.

Lemma upserKitRouteFile_no_source b getSource surround :
  getSource tt = None -> upserKitRouteFile b getSource surround = None.
Proof. intros H. unfold upserKitRouteFile. rewrite H. now destruct (negb _). Qed.

Lemma upserKitServerHooksFile_no_source f b s getSource surround :
  getSource tt = None -> upserKitServerHooksFile f b s getSource surround = None.
Proof.
  intros H. unfold upserKitServerHooksFile. rewrite H. now destruct (negb _).
Qed.

Lemma upserKitClientHooksFile_no_source f b s getSource surround :
  getSource tt = None -> upserKitClientHooksFile f b s getSource surround = None.
Proof.
  intros H. unfold upserKitClientHooksFile. rewrite H. now destruct (negb _).
Qed.

Lemma upserKitParamsFile_no_source f b s getSource surround :
  getSource tt = None -> upserKitParamsFile f b s getSource surround = None.
Proof. intros H. unfold upserKitParamsFile. rewrite H. now destruct (negb _). Qed.

Lemma upserKitRouteFile_no_match b getSource surround :
  isKitRouteFile b = false -> upserKitRouteFile b getSource surround = None.
Proof. intros H. unfold upserKitRouteFile. now rewrite H. Qed.

Lemma upserKitServerHooksFile_no_match f b s getSource surround :
  isServerHooksFile f b s = false ->
  upserKitServerHooksFile f b s getSource surround = None.
Proof. intros H. unfold upserKitServerHooksFile. now rewrite H. Qed.

Lemma upserKitClientHooksFile_no_match f b s getSource surround :
  isClientHooksFile f b s = false ->
  upserKitClientHooksFile f b s getSource surround = None.
Proof. intros H. unfold upserKitClientHooksFile. now rewrite H. Qed.

Lemma upserKitParamsFile_no_match f b s getSource surround :
  isParamsFile f b s = false ->
  upserKitParamsFile f b s getSource surround = None.
Proof. intros H. unfold upserKitParamsFile. now rewrite H. Qed.

(** A strategy that matches and gets a source always yields a result. *)
Lemma upserKitRouteFile_match b getSource surround source :
  isKitRouteFile b = true -> getSource tt = Some source ->
  exists r, upserKitRouteFile b getSource surround = Some r.
Proof. intros H Hs. unfold upserKitRouteFile. rewrite H, Hs. cbn. eauto. Qed.

Lemma upserKitServerHooksFile_match f b s getSource surround source :
  isServerHooksFile f b s = true -> getSource tt = Some source ->
  exists r, upserKitServerHooksFile f b s getSource surround = Some r.
Proof.
  intros H Hs. unfold upserKitServerHooksFile. rewrite H, Hs. cbn. eauto.
Qed.

Lemma upserKitClientHooksFile_match f b s getSource surround source :
  isClientHooksFile f b s = true -> getSource tt = Some source ->
  exists r, upserKitClientHooksFile f b s getSource surround = Some r.
Proof.
  intros H Hs. unfold upserKitClientHooksFile. rewrite H, Hs. cbn. eauto.
Qed.

(** C6. The strategies are tried in the order route, server hooks, client
    hooks, params, and the result is that of the first one whose pattern
    matches; so a path that matches the route pattern and a hooks suffix
    gets the route result. *)
Theorem first_matching_strategy (fileName : string)
        (settings : KitFilesSettings)
        (getSource : unit -> option SourceFile)
        (surround : string -> string) :
  let b := basename fileName in
  upsertKitFile_result fileName settings getSource surround
  = (if isKitRouteFile b
     then upserKitRouteFile b getSource surround
     else if isServerHooksFile fileName b (serverHooksPath settings)
     then upserKitServerHooksFile fileName b (serverHooksPath settings)
            getSource surround
     else if isClientHooksFile fileName b (clientHooksPath settings)
     then upserKitClientHooksFile fileName b (clientHooksPath settings)
            getSource surround
     else upserKitParamsFile fileName b (paramsPath settings)
            getSource surround)
  /\ (isKitRouteFile b = true ->
      isServerHooksFile fileName b (serverHooksPath settings) = true
      \/ isClientHooksFile fileName b (clientHooksPath settings) = true ->
      upsertKitFile_result fileName settings getSource surround
      = upserKitRouteFile b getSource surround).
Proof.
  intros b.
  assert (Hmain :
    upsertKitFile_result fileName settings getSource surround
    = (if isKitRouteFile b
       then upserKitRouteFile b getSource surround
       else if isServerHooksFile fileName b (serverHooksPath settings)
       then upserKitServerHooksFile fileName b (serverHooksPath settings)
              getSource surround
       else if isClientHooksFile fileName b (clientHooksPath settings)
       then upserKitClientHooksFile fileName b (clientHooksPath settings)
              getSource surround
       else upserKitParamsFile fileName b (paramsPath settings)
              getSource surround)).
  { unfold upsertKitFile_result. fold b.
    destruct (getSource tt) as [source|] eqn:Hsrc.
    - destruct (isKitRouteFile b) eqn:Hr.
      + destruct (upserKitRouteFile_match b getSource surround source Hr Hsrc)
          as [r ->]. reflexivity.
      + rewrite (upserKitRouteFile_no_match _ _ _ Hr). cbn [orElse].
        destruct (isServerHooksFile fileName b (serverHooksPath settings)) eqn:Hs.
        * destruct (upserKitServerHooksFile_match _ _ _ getSource surround
                      source Hs Hsrc) as [r ->]. reflexivity.
        * rewrite (upserKitServerHooksFile_no_match _ _ _ _ _ Hs). cbn [orElse].
          destruct (isClientHooksFile fileName b (clientHooksPath settings)) eqn:Hc.
          -- destruct (upserKitClientHooksFile_match _ _ _ getSource surround
                         source Hc Hsrc) as [r ->]. reflexivity.
          -- now rewrite (upserKitClientHooksFile_no_match _ _ _ _ _ Hc).
    - rewrite (upserKitRouteFile_no_source _ _ _ Hsrc),
        (upserKitServerHooksFile_no_source _ _ _ _ _ Hsrc),
        (upserKitClientHooksFile_no_source _ _ _ _ _ Hsrc),
        (upserKitParamsFile_no_source _ _ _ _ _ Hsrc).
      cbn. now repeat destruct (_ : bool). }
  split; [exact Hmain|].
  intros Hr _. rewrite Hmain. now rewrite Hr.
Qed.

(** C7. A path that matches none of the four patterns, and any path whose
    source is not supplied, gives the [undefined] result: nothing is
    inserted and no ledger is returned. The function has no failure
    path. *)
Theorem no_match_or_no_source (fileName : string)
        (settings : KitFilesSettings)
        (getSource : unit -> option SourceFile)
        (surround : string -> string) :
  isKitFile fileName settings = false \/ getSource tt = None ->
  upsertKitFile fileName settings getSource surround = None
  /\ recorded (upsertKitFile fileName settings getSource surround) = [].
Proof.
  intros H.
  assert (Hres : upsertKitFile_result fileName settings getSource surround = None).
  { unfold upsertKitFile_result. destruct H as [H|H].
    - unfold isKitFile in H.
      apply orb_false_iff in H. destruct H as [H Hp].
      apply orb_false_iff in H. destruct H as [H Hc].
      apply orb_false_iff in H. destruct H as [Hr Hs].
      now rewrite (upserKitRouteFile_no_match _ _ _ Hr),
        (upserKitServerHooksFile_no_match _ _ _ _ _ Hs),
        (upserKitClientHooksFile_no_match _ _ _ _ _ Hc),
        (upserKitParamsFile_no_match _ _ _ _ _ Hp).
    - now rewrite (upserKitRouteFile_no_source _ _ _ H),
        (upserKitServerHooksFile_no_source _ _ _ _ _ H),
        (upserKitClientHooksFile_no_source _ _ _ _ _ H),
        (upserKitParamsFile_no_source _ _ _ _ _ H). }
  unfold upsertKitFile. rewrite Hres. split; reflexivity.
Qed.

End AugmentorFacts.

(** ** Augmentor: worked examples on POSIX paths *)

Lemma first_matching_strategy_witness :
  let settings :=
    {| serverHooksPath := "src/routes/+server";
       clientHooksPath := "src/hooks.client";
       paramsPath := "src/params" |} in
  let fn p b :=
    {| Ts.kind := Ts.FunctionDeclaration; Ts.parameters := [p];
       Ts.type := None; Ts.body := Some b |} in
  let source : @SourceFile tableHost :=
    ("export function GET(event) {}" ++ String "010"%char ""
       ++ "export function handle(input) {}",
     [ ("GET", Ts.function (fn (Ts.mkNode 20 25) (Ts.mkNode 27 29)) false);
       ("handle", Ts.function (fn (Ts.mkNode 53 58) (Ts.mkNode 60 62)) false) ])%string in
  isKitRouteFile (path := PosixPath.posix) "+server.ts" = true
  /\ isServerHooksFile (path := PosixPath.posix)
       "src/routes/+server.ts" "+server.ts" "src/routes/+server" = true
  /\ option_map (fun r => insertions (addedCode r))
       (upsertKitFile_result (path := PosixPath.posix) (host := tableHost)
          "src/routes/+server.ts" settings (fun _ => Some source) (fun t => t))
     = Some [ (25, ": import('./$types.js').RequestEvent");
              (27, ": Response | Promise<Response> ") ].
Proof.
  intros settings fn source.
  assert (Hr : isKitRouteFile (path := PosixPath.posix) "+server.ts" = true)
    by reflexivity.
  assert (Hs : isServerHooksFile (path := PosixPath.posix)
                 "src/routes/+server.ts" "+server.ts" "src/routes/+server" = true)
    by reflexivity.
  split; [exact Hr|]. split; [exact Hs|].
  rewrite (proj2 (first_matching_strategy (path := PosixPath.posix)
                    (host := tableHost) "src/routes/+server.ts" settings
                    (fun _ => Some source) (fun t => t)) Hr (or_introl Hs)).
  reflexivity.
Defined.

Lemma no_match_or_no_source_witness :
  let settings :=
    {| serverHooksPath := "src/hooks.server";
       clientHooksPath := "src/hooks.client";
       paramsPath := "src/params" |} in
  let source : @SourceFile tableHost := ("export const a = 1;", [])%string in
  isKitFile (path := PosixPath.posix) "src/lib/util.ts" settings = false
  /\ upsertKitFile (path := PosixPath.posix) (host := tableHost)
       "src/lib/util.ts" settings (fun _ => Some source) (fun t => t) = None
  /\ upsertKitFile (path := PosixPath.posix) (host := tableHost)
       "src/routes/+page.ts" settings (fun _ => None) (fun t => t) = None.
Proof.
  intros settings source.
  assert (H : isKitFile (path := PosixPath.posix) "src/lib/util.ts" settings = false)
    by reflexivity.
  split; [exact H|]. split.
  - exact (proj1 (no_match_or_no_source (path := PosixPath.posix)
                    (host := tableHost) "src/lib/util.ts" settings
                    (fun _ => Some source) (fun t => t) (or_introl H))).
  - exact (proj1 (no_match_or_no_source (path := PosixPath.posix)
                    (host := tableHost) "src/routes/+page.ts" settings
                    (fun _ => None) (fun t => t) (or_intror eq_refl))).
Defined.

(** ** Augmentor: the annotation of [load] *)

Lemma length_insertCode l p text :
  List.length (insertCode l p text) = S (List.length l).
Proof.
  rewrite insertCode_insertFrom.
  pose proof (Permutation_length (insertFrom_positions 0 l p text)) as H.
  cbn [List.length] in H. now rewrite !length_map in H.
Qed.

(** C4 (as the code behaves). For a [load] export that is a function with
    exactly one parameter and no type definition, the [load] block of
    [upserKitRouteFile] makes exactly one insertion, the [...LoadEvent]
    annotation at the end of the parameter, whether or not the function
    has a return type; for a [load] export that has a type definition it
    makes none. *)
Theorem load_annotation (basename : string) (exports : Ts.Exports)
        (surround : string -> string) (node : Ts.FunctionNode)
        (hasTypeDefinition : bool) (l : list AddedCode) :
  exports "load"%string = Some (Ts.function node hasTypeDefinition) ->
  (forall param, Ts.parameters node = [param] -> hasTypeDefinition = false ->
     addTypeToLoad basename exports surround l
     = insertCode l (Ts.getEnd param) (surround (loadEventType basename))
     /\ List.length (addTypeToLoad basename exports surround l)
        = S (List.length l))
  /\ (hasTypeDefinition = true ->
      addTypeToLoad basename exports surround l = l).
Proof.
  intros Hload. unfold addTypeToLoad. rewrite Hload. split.
  - intros param -> ->. cbn. split; [reflexivity|].
    unfold insert. apply length_insertCode.
  - intros ->. now destruct (Ts.parameters node) as [|? [|? ?]].
Qed.

Lemma load_annotation_witness :
  let node :=
    {| Ts.kind := Ts.FunctionDeclaration; Ts.parameters := [Ts.mkNode 21 26];
       Ts.type := None; Ts.body := Some (Ts.mkNode 28 42) |} in
  let exports : Ts.Exports :=
    fun name => if String.eqb name "load" then Some (Ts.function node false)
                else None in
  insertions (addTypeToLoad "+layout.server.ts" exports (fun t => t) [])
  = [(26, ": import('./$types.js').LayoutServerLoadEvent")].
Proof.
  intros node exports.
  rewrite (proj1 (proj1 (load_annotation "+layout.server.ts" exports
                           (fun t => t) node false [] eq_refl)
                    (Ts.mkNode 21 26) eq_refl eq_refl)).
  reflexivity.
Defined.

(** C4 (as the specification words it) does not hold. For
    [export function load(event) { return {}; }] in [+page.ts] the
    augmentor makes one insertion, not two; and with a return type present
    (and the parameter untyped) it still makes that insertion. *)
Lemma load_annotation_counterexample :
  let fn ty :=
    {| Ts.kind := Ts.FunctionDeclaration; Ts.parameters := [Ts.mkNode 21 26];
       Ts.type := ty; Ts.body := Some (Ts.mkNode 28 42) |} in
  let source ty : @SourceFile tableHost :=
    ("export function load(event) { return {}; }",
     [("load", Ts.function (fn ty) false)])%string in
  let run ty :=
    option_map (fun r => insertions (addedCode r))
      (upserKitRouteFile (path := PosixPath.posix) (host := tableHost)
         "+page.ts" (fun _ => Some (source ty)) (fun t => t)) in
  run None = Some [(26, ": import('./$types.js').PageLoadEvent")]
  /\ run (Some (Ts.mkNode 28 31))
     = Some [(26, ": import('./$types.js').PageLoadEvent")].
Proof. split; reflexivity. Qed.

(** ** Transpiler: runs that keep the original text, runs that return *)

Create HintDb tx.

Lemma keepsOriginal_ret {A} (a : A) : keepsOriginal (ret a).
Proof. intros str a' str' H. now injection H as _ <-. Qed.

Lemma keepsOriginal_edit e : keepsOriginal (edit e).
Proof. intros str a' str' H. now injection H as _ <-. Qed.

Lemma keepsOriginal_original : keepsOriginal original.
Proof. intros str a' str' H. now injection H as _ <-. Qed.

Lemma keepsOriginal_lift {A} (r : outcome A) : keepsOriginal (lift r).
Proof.
  intros str a' str' H. unfold lift in H. destruct r; [|discriminate].
  now injection H as _ <-.
Qed.

Lemma keepsOriginal_bind {A B} (m : Tx A) (k : A -> Tx B) :
  keepsOriginal m -> (forall a, keepsOriginal (k a)) -> keepsOriginal (bind m k).
Proof.
  intros Hm Hk str b str' H. unfold bind in H.
  destruct (m str) as [[a str1]|e] eqn:E; [|discriminate].
  rewrite (Hk _ _ _ _ H). now apply (Hm _ _ _ E).
Qed.

Lemma keepsOriginal_forEach {A} (xs : list A) (body : A -> Tx unit) :
  (forall x, keepsOriginal (body x)) -> keepsOriginal (forEach xs body).
Proof.
  intros Hb. induction xs as [|x xs IH]; cbn [forEach].
  - apply keepsOriginal_ret.
  - apply keepsOriginal_bind; [apply Hb|intros _; exact IH].
Qed.

Lemma neverThrows_ret {A} (a : A) : neverThrows (ret a).
Proof. intros str. now exists a, str. Qed.

Lemma neverThrows_edit e : neverThrows (edit e).
Proof. intros str. now exists tt, (Magic.record e str). Qed.

Lemma neverThrows_original : neverThrows original.
Proof. intros str. now exists (Magic.original str), str. Qed.

Lemma neverThrows_bind {A B} (m : Tx A) (k : A -> Tx B) :
  neverThrows m -> (forall a, neverThrows (k a)) -> neverThrows (bind m k).
Proof.
  intros Hm Hk str. unfold bind. destruct (Hm str) as (a & str1 & ->).
  apply Hk.
Qed.

Lemma neverThrows_forEach {A} (xs : list A) (body : A -> Tx unit) :
  (forall x, neverThrows (body x)) -> neverThrows (forEach xs body).
Proof.
  intros Hb. induction xs as [|x xs IH]; cbn [forEach].
  - apply neverThrows_ret.
  - apply neverThrows_bind; [apply Hb|intros _; exact IH].
Qed.

#[local] Hint Resolve keepsOriginal_ret keepsOriginal_edit keepsOriginal_original
  keepsOriginal_lift keepsOriginal_bind keepsOriginal_forEach
  neverThrows_ret neverThrows_edit neverThrows_original neverThrows_bind
  neverThrows_forEach : tx.


Lemma bind_returned {A B} (m : Tx A) (k : A -> Tx B) str a str1 :
  m str = Returned (a, str1) -> bind m k str = k a str1.
Proof. intros H. unfold bind. now rewrite H. Qed.

(** A loop whose body throws on one of the elements throws. *)
Lemma foldM_throws {A B} (body : B -> A -> Tx B) x xs :
  In x xs -> (forall b str, exists e, body b x str = Thrown e) ->
  forall b str, exists e, foldM body b xs str = Thrown e.
Proof.
  intros Hin Hx. induction xs as [|y ys IH]; [easy|]. intros b str.
  cbn [foldM]. unfold bind.
  destruct (body b y str) as [[b' str']|e] eqn:E; [|eauto].
  destruct Hin as [->|Hin].
  - destruct (Hx b str) as [e He]. congruence.
  - now apply IH.
Qed.

Lemma existsb_find {A} (f : A -> bool) l :
  existsb f l = true -> exists m, find f l = Some m.
Proof.
  induction l as [|x l IH]; cbn; [discriminate|].
  destruct (f x); [eauto|exact IH].
Qed.

Lemma find_none_existsb {A} (f : A -> bool) l :
  existsb f l = false -> find f l = None.
Proof.
  induction l as [|x l IH]; cbn; [reflexivity|].
  destruct (f x); [discriminate|exact IH].
Qed.

(** ** Transpiler: an unsupported export throws *)

Lemma replaceExport_unsupported astOffset ns s str :
  unsupportedExport s = true ->
  exists e, replaceExport astOffset ns s str = Thrown e.
Proof.
  destruct s as [p e ms ds|p e ms [n|]|p e [els|]|p e l st|p e ex|p e|p e];
    cbn [unsupportedExport]; try discriminate; intros H.
  - apply andb_true_iff in H. destruct H as [Hexp Hbad].
    unfold hasExportModifier in Hexp. destruct ms as [ms|]; [|discriminate].
    destruct (existsb_find _ _ Hexp) as [m Hm].
    cbn [replaceExport]. rewrite Hm.
    apply existsb_exists in Hbad. destruct Hbad as (v & Hv & Hvbad).
    unfold bind at 1.
    destruct (removeExport astOffset (TsAst.modifier_pos m)
                (TsAst.modifier_end m) str) as [[u str1]|err]; [|eauto].
    apply (foldM_throws _ v); [exact Hv|].
    intros b str2. unfold bind, lift. destruct v; [discriminate|cbn; eauto..].
  - apply andb_true_iff in H. destruct H as [Hexp Hbad].
    unfold hasExportModifier in Hexp. destruct ms as [ms|]; [|discriminate].
    destruct (existsb_find _ _ Hexp) as [m Hm].
    cbn [replaceExport]. rewrite Hm.
    destruct n; [discriminate|cbn; eauto..].
  - cbn [replaceExport].
    apply existsb_exists in H. destruct H as (ne & Hne & Hbad).
    apply (foldM_throws _ ne); [exact Hne|].
    intros b str2. destruct ne as [[pn|] n]; cbn in Hbad |- *.
    + destruct pn; cbn in Hbad.
      * destruct n; [discriminate|cbn; eauto..].
      * cbn. eauto.
      * cbn. eauto.
    + destruct n; [discriminate|cbn; eauto..].
Qed.

Lemma replaceExports_unsupported tsAst astOffset s str :
  In s (TsAst.statements tsAst) -> unsupportedExport s = true ->
  exists e, replaceExports tsAst astOffset str = Thrown e.
Proof.
  intros Hin Hbad. unfold replaceExports.
  apply (foldM_throws _ s); [exact Hin|].
  intros b str'. now apply replaceExport_unsupported.
Qed.

Section TranspilerAborts.
Context {env : Collaborators}.

Lemma processScriptTag_unsupported ast slots target script s str :
  findInstanceScript ast = Some script ->
  In s (TsAst.statements (instanceAst (Magic.original str) script)) ->
  unsupportedExport s = true ->
  exists e, processScriptTag ast slots target str = Thrown e.
Proof.
  intros Hscript Hin Hbad. unfold processScriptTag.
  unfold bind at 1. cbn [original]. rewrite Hscript.
  fold (instanceAst (Magic.original str) script).
  repeat (unfold bind at 1;
          match goal with
          | |- context [match ?m ?st with _ => _ end] =>
              lazymatch m with
              | replaceExports _ _ => fail
              | _ => destruct (m st) as [[? ?]|?]; [|eauto]
              end
          end).
  unfold bind at 1.
  match goal with
  | |- context [replaceExports ?a ?o ?st] =>
      destruct (replaceExports_unsupported a o s st Hin Hbad) as [e ->]
  end.
  eauto.
Qed.

End TranspilerAborts.

Section TranspilerOutcome.
Context {env : Collaborators}.

Lemma keepsOriginal_convertHtmlxToJsx ast w :
  keepsOriginal (convertHtmlxToJsx ast w).
Proof. unfold convertHtmlxToJsx. auto 10 with tx. Qed.

Lemma keepsOriginal_removeStyleTags ast : keepsOriginal (removeStyleTags ast).
Proof.
  unfold removeStyleTags. apply keepsOriginal_forEach. intros n.
  destruct (String.eqb _ _); auto with tx.
Qed.

Lemma neverThrows_removeStyleTags ast : neverThrows (removeStyleTags ast).
Proof.
  unfold removeStyleTags. apply neverThrows_forEach. intros n.
  destruct (String.eqb _ _); auto with tx.
Qed.

Lemma neverThrows_processModuleScriptTag script :
  neverThrows (processModuleScriptTag script).
Proof. unfold processModuleScriptTag. auto 10 with tx. Qed.

Lemma neverThrows_addComponentExport b : neverThrows (addComponentExport b).
Proof. unfold addComponentExport. auto with tx. Qed.

Lemma neverThrows_processScriptTag_no_script ast slots target :
  findInstanceScript ast = None ->
  neverThrows (processScriptTag ast slots target).
Proof.
  intros H. unfold processScriptTag. rewrite H. auto 10 with tx.
Qed.

Lemma convertHtmlxToJsx_returns ast w0 w str :
  walkAll (Magic.original str) w0 (walked (Magic.original str) ast) = Returned w ->
  exists str', convertHtmlxToJsx ast w0 str = Returned (w, str').
Proof.
  intros H. unfold convertHtmlxToJsx. unfold bind at 1. cbn [original].
  unfold bind at 1. unfold lift. rewrite H.
  destruct (neverThrows_forEach (converted (Magic.original str) ast) edit
              neverThrows_edit str) as ([] & str' & E).
  unfold bind. rewrite E. now exists str'.
Qed.

(** The part of [svelte2tsx] in front of [processScriptTag] returns with
    the original text unchanged, or throws. *)
Lemma transpile_unsupported ast script s str :
  findInstanceScript ast = Some script ->
  In s (TsAst.statements (instanceAst (Magic.original str) script)) ->
  unsupportedExport s = true ->
  exists e, transpile ast str = Thrown e.
Proof.
  intros Hscript Hin Hbad. unfold transpile.
  unfold bind at 1.
  destruct (convertHtmlxToJsx ast _ str) as [[w str1]|e] eqn:E1; [|eauto].
  pose proof (keepsOriginal_convertHtmlxToJsx _ _ _ _ _ E1) as O1.
  unfold bind at 1.
  destruct (removeStyleTags ast str1) as [[u str2]|e] eqn:E2; [|eauto].
  pose proof (keepsOriginal_removeStyleTags _ _ _ _ E2) as O2.
  unfold bind at 1.
  match goal with
  | |- context [match ?m str2 with _ => _ end] =>
      destruct (m str2) as [[u3 str3]|e] eqn:E3; [|eauto];
      assert (O3 : Magic.original str3 = Magic.original str2)
  end.
  { destruct (findModuleScriptTag ast) as [m|].
    - destruct (negb _); injection E3 as _ <-; reflexivity.
    - injection E3 as _ <-; reflexivity. }
  unfold bind at 1.
  destruct (processScriptTag_unsupported ast (slots w)
              (match findModuleScriptTag ast with
               | Some m => if Z.eqb (Htmlx.start m) 0 then Htmlx.end_ m else 0
               | None => 0
               end) script s str3 Hscript) as [e ->]; [|assumption|eauto].
  now rewrite O3, O2, O1.
Qed.

Lemma transpile_no_script ast w str :
  findInstanceScript ast = None ->
  walkAll (Magic.original str) {| uses_props := false; slots := [] |}
    (walked (Magic.original str) ast) = Returned w ->
  exists str', transpile ast str = Returned (tt, str').
Proof.
  intros Hnone Hwalk. unfold transpile.
  destruct (convertHtmlxToJsx_returns ast _ _ _ Hwalk) as [str1 E1].
  rewrite (bind_returned _ _ _ _ _ E1).
  match goal with
  | |- exists s', ?t str1 = _ =>
      assert (Hn : neverThrows t)
  end.
  { apply neverThrows_bind; [apply neverThrows_removeStyleTags|]. intros _.
    apply neverThrows_bind.
    { destruct (findModuleScriptTag ast); [destruct (negb _)|]; auto with tx. }
    intros _. apply neverThrows_bind.
    { now apply neverThrows_processScriptTag_no_script. }
    intros _. apply neverThrows_bind.
    { destruct (findModuleScriptTag ast);
        [apply neverThrows_processModuleScriptTag|auto with tx]. }
    intros _. apply neverThrows_addComponentExport. }
  destruct (Hn str1) as ([] & str' & ->). eauto.
Qed.

(** C10. A script in which an exported binding name or a rename target is
    not a plain identifier makes [svelte2tsx] throw, so that no code is
    returned. A component without instance script, a function export or a
    variable export that is already typed do not throw: the first gets the
    empty [render] function, the others are left as they are. *)
Theorem structural_mismatch_aborts (svelte : string) :
  (forall script s,
      findInstanceScript (parseHtmlx svelte) = Some script ->
      In s (TsAst.statements (instanceAst svelte script)) ->
      unsupportedExport s = true ->
      exists e, svelte2tsx svelte = Thrown e)
  /\ (findInstanceScript (parseHtmlx svelte) = None ->
      (forall slots target str,
          exists str',
            processScriptTag (parseHtmlx svelte) slots target str
            = Returned (tt, str'))
      /\ (forall w,
             walkAll svelte {| uses_props := false; slots := [] |}
               (walked svelte (parseHtmlx svelte)) = Returned w ->
             exists r, svelte2tsx svelte = Returned r))
  /\ (forall exports surround name type returnType node l,
         exports name = Some (Ts.function node true) ->
         addTypeToFunction exports surround name type returnType l = l)
  /\ (forall exports surround name type node l,
         exports name = Some (Ts.var node true) ->
         addTypeToVariable exports surround name type l = l).
Proof.
  split; [|split; [|split]].
  - intros script s Hscript Hin Hbad. unfold svelte2tsx.
    destruct (transpile_unsupported (parseHtmlx svelte) script s
                (Magic.new svelte) Hscript Hin Hbad) as [e ->]. eauto.
  - intros Hnone. split.
    + intros sl target str.
      destruct (neverThrows_processScriptTag_no_script _ sl target Hnone str)
        as ([] & str' & E). eauto.
    + intros w Hwalk. unfold svelte2tsx.
      destruct (transpile_no_script (parseHtmlx svelte) w (Magic.new svelte)
                  Hnone Hwalk) as [str' ->]. eauto.
  - intros exports surround name type returnType node l H.
    unfold addTypeToFunction. rewrite H.
    now destruct (Ts.parameters node) as [|? [|? ?]].
  - intros exports surround name type node l H.
    unfold addTypeToVariable. now rewrite H.
Qed.

End TranspilerOutcome.

Lemma structural_mismatch_aborts_witness :
  let svelte := "<script>export let { a } = options;</script>" in
  let script :=
    {| Htmlx.type := "Script"; Htmlx.start := 0; Htmlx.end_ := 44;
       Htmlx.name := "script"; Htmlx.attributes := Some [];
       Htmlx.content_start := 8; Htmlx.content_end := 35 |} in
  let bad :=
    TsAst.VariableStatement 0 27
      (Some [TsAst.mkModifier TsAst.ExportKeyword 0 6])
      [TsAst.ObjectBindingPattern] in
  let env :=
    fixedTrees {| Htmlx.children := [script] |} {| TsAst.statements := [bad] |} in
  let plain :=
    fixedTrees {| Htmlx.children := [] |} {| TsAst.statements := [] |} in
  let typed : Ts.Exports :=
    fun _ => Some (Ts.function
                     {| Ts.kind := Ts.FunctionDeclaration;
                        Ts.parameters := [Ts.mkNode 20 25];
                        Ts.type := None; Ts.body := Some (Ts.mkNode 27 29) |}
                     true) in
  unsupportedExport bad = true
  /\ (exists e, svelte2tsx (env := env) svelte = Thrown e)
  /\ (exists r, svelte2tsx (env := plain) "<p>hello</p>" = Returned r)
  /\ addTypeToFunction typed (fun t => t) "GET" "T" None [] = [].
Proof.
  intros svelte script bad env plain typed.
  split; [reflexivity|]. split; [|split].
  - exact (proj1 (structural_mismatch_aborts (env := env) svelte)
             script bad eq_refl (or_introl eq_refl) eq_refl).
  - exact (proj2 (proj1 (proj2 (structural_mismatch_aborts (env := plain)
                                  "<p>hello</p>")) eq_refl)
             {| uses_props := false; slots := [] |} eq_refl).
  - exact (proj1 (proj2 (proj2 (structural_mismatch_aborts (env := plain)
                                  "<p>hello</p>")))
             typed (fun t => t) "GET"%string "T"%string None _ [] eq_refl).
Defined.

(** The error of the example above. *)
Example unsupported_export_error :
  svelte2tsx
    (env := fixedTrees
              {| Htmlx.children :=
                   [ {| Htmlx.type := "Script"; Htmlx.start := 0;
                        Htmlx.end_ := 44; Htmlx.name := "script";
                        Htmlx.attributes := Some [];
                        Htmlx.content_start := 8;
                        Htmlx.content_end := 35 |} ] |}
              {| TsAst.statements :=
                   [ TsAst.VariableStatement 0 27
                       (Some [TsAst.mkModifier TsAst.ExportKeyword 0 6])
                       [TsAst.ObjectBindingPattern] ] |})
    "<script>export let { a } = options;</script>"
  = Thrown "export source kind not supported [object Object]".
Proof. reflexivity. Qed.

(** ** Transpiler: inverting a run that returned *)

Lemma bind_inv {A B} (m : Tx A) (k : A -> Tx B) str r :
  bind m k str = Returned r ->
  exists a str1, m str = Returned (a, str1) /\ k a str1 = Returned r.
Proof.
  unfold bind. destruct (m str) as [[a str1]|e]; [eauto|discriminate].
Qed.

Lemma lift_inv {A} (r : outcome A) str a str' :
  lift r str = Returned (a, str') -> r = Returned a /\ str' = str.
Proof.
  unfold lift. destruct r; [|discriminate]. intros H. injection H as -> ->.
  now split.
Qed.

Lemma ret_inv {A} (a : A) str a' str' :
  ret a str = Returned (a', str') -> a' = a /\ str' = str.
Proof. intros H. injection H as -> ->. now split. Qed.

Lemma withEdits_nil str : withEdits str [] = str.
Proof. destruct str. unfold withEdits. cbn. now rewrite app_nil_r. Qed.

Lemma withEdits_app str a b :
  withEdits (withEdits str a) b = withEdits str (a ++ b).
Proof. unfold withEdits. cbn. now rewrite app_assoc. Qed.




(** ** Transpiler: forward declarations of reactive assignments *)

Lemma length_append (s t : string) :
  String.length (s ++ t) = (String.length s + String.length t)%nat.
Proof. induction s as [|c s IH]; cbn; [reflexivity|now rewrite IH]. Qed.







(** ** Transpiler: the names that [replaceExports] records *)

Lemma foldM_returned {A B} (body : B -> A -> Tx B)
      (P : B -> list A -> B -> Prop) :
  (forall b, P b [] b) ->
  (forall b x xs b1 b2 str str1,
      body b x str = Returned (b1, str1) -> P b1 xs b2 -> P b (x :: xs) b2) ->
  forall xs b str b' str',
    foldM body b xs str = Returned (b', str') -> P b xs b'.
Proof.
  intros Hnil Hcons. induction xs as [|x xs IH]; intros b str b' str' H.
  - apply ret_inv in H. destruct H as [-> _]. apply Hnil.
  - cbn [foldM] in H. apply bind_inv in H.
    destruct H as (b1 & str1 & E1 & E2).
    eapply Hcons; [exact E1|]. eapply IH. exact E2.
Qed.

Lemma addExport_declaredNames n t ns ns' :
  addExport n t ns = Returned ns' -> declaredNames ns' = declaredNames ns.
Proof.
  unfold addExport. destruct n as [[x| |]|]; try discriminate.
  destruct t as [[y| |]|]; try discriminate; intros H; now injection H as <-.
Qed.

Lemma addDeclaredName_declaredNames n ns ns' x :
  addDeclaredName n ns = Returned ns' ->
  In x (declaredNames ns')
  <-> In x (declaredNames ns) \/ n = Some (TsAst.Identifier x).
Proof.
  unfold addDeclaredName. destruct n as [[y| |]|]; try discriminate;
    intros H; injection H as <-; cbn.
  - rewrite in_app_iff. cbn. split.
    + intros [H|[->|[]]]; auto.
    + intros [H|H]; [auto|]. injection H as ->. auto.
  - split; [auto|]. now intros [H|H].
  - split; [auto|]. now intros [H|H].
Qed.

Lemma replaceExport_declaredNames astOffset ns s str ns' str' x :
  replaceExport astOffset ns s str = Returned (ns', str') ->
  In x (declaredNames ns') <-> In x (declaredNames ns) \/ declaresName x s.
Proof.
  destruct s as [p e ms ds|p e ms n|p e [els|]|p e l st|p e ex|p e|p e];
    cbn [replaceExport declaresName]; intros H;
    try (apply ret_inv in H; destruct H as [-> _]; tauto).
  - apply bind_inv in H. destruct H as (u & str1 & _ & H).
    revert x. pattern ns, ds, ns'.
    eapply foldM_returned; [| |exact H]; clear.
    + intros b x. cbn. tauto.
    + intros b v vs b1 b2 str str1 Hbody IH x.
      apply bind_inv in Hbody. destruct Hbody as (b0 & str0 & E0 & E1).
      apply lift_inv in E1. destruct E1 as [E1 _].
      assert (Hb0 : declaredNames b0 = declaredNames b).
      { destruct (match ms with Some ms0 => find TsAst.isExportKeyword ms0
                                | None => None end).
        - apply lift_inv in E0. destruct E0 as [E0 _].
          now apply addExport_declaredNames in E0.
        - apply ret_inv in E0. now destruct E0 as [-> _]. }
      rewrite IH, (addDeclaredName_declaredNames _ _ _ x E1), Hb0. cbn.
      split.
      * intros [[H|H]|H]; auto. injection H as ->. auto.
      * intros [H|[->|H]]; auto.
  - apply bind_inv in H. destruct H as (b0 & str0 & E0 & E1).
    apply lift_inv in E1. destruct E1 as [E1 _].
    assert (Hb0 : declaredNames b0 = declaredNames ns).
    { destruct ms as [ms|]; [destruct (find _ ms)|].
      - apply bind_inv in E0. destruct E0 as (b1 & str1 & E0 & E2).
        apply lift_inv in E0. destruct E0 as [E0 _].
        apply addExport_declaredNames in E0.
        apply bind_inv in E2. destruct E2 as (u & str2 & _ & E2).
        apply ret_inv in E2. destruct E2 as [-> _]. exact E0.
      - apply ret_inv in E0. now destruct E0 as [-> _].
      - apply ret_inv in E0. now destruct E0 as [-> _]. }
    rewrite (addDeclaredName_declaredNames _ _ _ x E1), Hb0.
    destruct n as [[y| |]|]; cbn; split;
      try (intros [H|H]; auto; try discriminate; try contradiction).
    + injection H as ->. auto.
    + subst. auto.
  - revert x. assert (Heq : declaredNames ns' = declaredNames ns).
    { pattern ns, els, ns'. eapply foldM_returned; [| |exact H]; clear.
      - reflexivity.
      - intros b ne nes b1 b2 str str1 Hbody IH. rewrite IH.
        apply bind_inv in Hbody. destruct Hbody as (b0 & str0 & E0 & E1).
        apply bind_inv in E1. destruct E1 as (u & str2 & _ & E1).
        apply ret_inv in E1. destruct E1 as [-> _].
        destruct (TsAst.propertyName ne);
          apply lift_inv in E0; destruct E0 as [E0 _];
          now apply addExport_declaredNames in E0. }
    intros x. rewrite Heq. tauto.
  - discriminate.
Qed.

Lemma replaceExports_declaredNames tsAst astOffset str names str' x :
  replaceExports tsAst astOffset str = Returned (names, str') ->
  In x (declaredNames names) <-> declaredAtTopLevel x (TsAst.statements tsAst).
Proof.
  unfold replaceExports. intros H.
  assert (Hgen : In x (declaredNames names)
                 <-> In x (declaredNames {| exportedNames := [];
                                            declaredNames := [] |})
                     \/ declaredAtTopLevel x (TsAst.statements tsAst)).
  { revert x. pattern {| exportedNames := []; declaredNames := [] |},
      (TsAst.statements tsAst), names.
    eapply foldM_returned; [| |exact H]; clear.
    - intros b x. unfold declaredAtTopLevel. split; [auto|].
      intros [H|(s & [] & _)]. exact H.
    - intros b s ss b1 b2 str str1 Hbody IH x.
      rewrite IH, (replaceExport_declaredNames _ _ _ _ _ _ x Hbody).
      unfold declaredAtTopLevel. split.
      + intros [[H|H]|(s' & Hin & Hd)]; [auto| |].
        * right. exists s. split; [now left|exact H].
        * right. exists s'. split; [now right|exact Hd].
      + intros [H|(s' & [<-|Hin] & Hd)]; [auto|auto|].
        right. now exists s'. }
  rewrite Hgen. cbn. tauto.
Qed.



(** ** Transpiler: the map of exported names *)

Lemma get_set_same {V} (a : string) (v : V) m :
  JSMap.get String.eqb a (JSMap.set String.eqb a v m) = Some v.
Proof.
  induction m as [|[k' v'] m IH]; cbn.
  - now rewrite String.eqb_refl.
  - destruct (String.eqb k' a) eqn:E; cbn; rewrite E; [reflexivity|exact IH].
Qed.

Lemma get_set_other {V} (a k : string) (v : V) m :
  a <> k ->
  JSMap.get String.eqb a (JSMap.set String.eqb k v m)
  = JSMap.get String.eqb a m.
Proof.
  intros Hne. induction m as [|[k' v'] m IH]; cbn.
  - destruct (String.eqb_spec k a); [congruence|reflexivity].
  - destruct (String.eqb_spec k' k) as [->|Hk]; cbn.
    + destruct (String.eqb_spec k a); [congruence|reflexivity].
    + destruct (String.eqb k' a); [reflexivity|exact IH].
Qed.

Lemma returnElements_entry m a b :
  JSMap.get String.eqb a m = Some (Some b) -> b <> ""%string ->
  exists l r, returnElements m = l ++ (b ++ ": " ++ a)%string :: r.
Proof.
  intros Hget Hb. induction m as [|[k v] m IH]; [discriminate|].
  cbn in Hget. destruct (String.eqb_spec k a) as [->|Hk].
  - injection Hget as ->. exists [], (returnElements m). cbn.
    unfold JSString.truthy. now destruct (String.eqb_spec b ""); [contradiction|].
  - destruct (IH Hget) as (l & r & E). eexists (_ :: l), r.
    unfold returnElements in *. cbn [map]. rewrite E. reflexivity.
Qed.

Lemma addExport_get n t ns ns' a :
  addExport n t ns = Returned ns' -> n <> Some (TsAst.Identifier a) ->
  JSMap.get String.eqb a (exportedNames ns')
  = JSMap.get String.eqb a (exportedNames ns).
Proof.
  unfold addExport. destruct n as [[x| |]|]; try discriminate.
  intros H Hne. assert (a <> x) by congruence.
  destruct t as [[y| |]|]; try discriminate; injection H as <-; cbn;
    now apply get_set_other.
Qed.

Lemma addDeclaredName_exportedNames n ns ns' :
  addDeclaredName n ns = Returned ns' -> exportedNames ns' = exportedNames ns.
Proof.
  unfold addDeclaredName. destruct n as [[y| |]|]; try discriminate;
    intros H; now injection H as <-.
Qed.

Lemma in_identifierTexts a v vs :
  ~ In a (identifierTexts (v :: vs)) ->
  Some v <> Some (TsAst.Identifier a) /\ ~ In a (identifierTexts vs).
Proof.
  unfold identifierTexts. cbn [flat_map]. rewrite in_app_iff. intros H. split.
  - intros E. injection E as ->. apply H. left. now left.
  - tauto.
Qed.

Lemma specifierSource_key ne a :
  ~ In a (specifierSource ne) ->
  match TsAst.propertyName ne with
  | Some p => Some p
  | None => Some (TsAst.name ne)
  end <> Some (TsAst.Identifier a).
Proof.
  unfold specifierSource. destruct ne as [[p|] n]; cbn.
  - destruct p; cbn; intros H E; try discriminate.
    injection E as ->. apply H. now left.
  - destruct n; cbn; intros H E; try discriminate.
    injection E as ->. apply H. now left.
Qed.

(** The body of the loop over the elements of an export clause. *)
Lemma exportSpecifier_get astOffset pos end_ ns ne str ns' str' a :
  (do ns <- match TsAst.propertyName ne with
            | Some propertyName =>
                lift (addExport (Some propertyName) (Some (TsAst.name ne)) ns)
            | None => lift (addExport (Some (TsAst.name ne)) None ns)
            end;
   removeExport astOffset pos end_ >> ret ns) str = Returned (ns', str') ->
  ~ In a (specifierSource ne) ->
  JSMap.get String.eqb a (exportedNames ns')
  = JSMap.get String.eqb a (exportedNames ns).
Proof.
  intros H Hne. apply specifierSource_key in Hne.
  apply bind_inv in H. destruct H as (b0 & str0 & E0 & E1).
  apply bind_inv in E1. destruct E1 as (u & str2 & _ & E1).
  apply ret_inv in E1. destruct E1 as [-> _].
  destruct (TsAst.propertyName ne);
    apply lift_inv in E0; destruct E0 as [E0 _];
    now apply (addExport_get _ _ _ _ a) in E0.
Qed.

Lemma exportSpecifiers_get astOffset pos end_ els ns str ns' str' a :
  foldM (fun ns ne =>
           do ns <- match TsAst.propertyName ne with
                    | Some propertyName =>
                        lift (addExport (Some propertyName)
                                (Some (TsAst.name ne)) ns)
                    | None => lift (addExport (Some (TsAst.name ne)) None ns)
                    end;
           removeExport astOffset pos end_ >> ret ns) ns els str
  = Returned (ns', str') ->
  ~ In a (flat_map specifierSource els) ->
  JSMap.get String.eqb a (exportedNames ns')
  = JSMap.get String.eqb a (exportedNames ns).
Proof.
  intros H. pattern ns, els, ns'. eapply foldM_returned; [| |exact H]; clear.
  - reflexivity.
  - intros b ne nes b1 b2 str str1 Hbody IH Hnot.
    cbn [flat_map] in Hnot. rewrite in_app_iff in Hnot.
    rewrite IH by tauto.
    eapply exportSpecifier_get; [exact Hbody|tauto].
Qed.

Lemma find_existsb_some {A} (f : A -> bool) l m :
  find f l = Some m -> existsb f l = true.
Proof.
  intros H. apply find_some in H. apply existsb_exists. now exists m.
Qed.

(** A statement that does not export [a] leaves its entry as it is. *)
Lemma replaceExport_get astOffset ns s str ns' str' a :
  replaceExport astOffset ns s str = Returned (ns', str') ->
  ~ In a (exportedSources s) ->
  JSMap.get String.eqb a (exportedNames ns')
  = JSMap.get String.eqb a (exportedNames ns).
Proof.
  destruct s as [p e ms ds|p e ms n|p e [els|]|p e l st|p e ex|p e|p e];
    cbn [replaceExport exportedSources]; intros H;
    try (apply ret_inv in H; destruct H as [-> _]; reflexivity).
  - apply bind_inv in H. destruct H as (u & str1 & _ & H).
    unfold hasExportModifier.
    destruct (match ms with Some ms0 => find TsAst.isExportKeyword ms0
                            | None => None end) as [m|] eqn:Em.
    + destruct ms as [ms|]; [|discriminate].
      rewrite (find_existsb_some _ _ _ Em).
      pattern ns, ds, ns'. eapply foldM_returned; [| |exact H]; clear.
      * reflexivity.
      * intros b v vs b1 b2 str str1 Hbody IH Hnot.
        apply in_identifierTexts in Hnot. destruct Hnot as [Hv Hvs].
        rewrite IH by assumption.
        apply bind_inv in Hbody. destruct Hbody as (b0 & str0 & E0 & E1).
        apply lift_inv in E1. destruct E1 as [E1 _].
        apply lift_inv in E0. destruct E0 as [E0 _].
        rewrite (addDeclaredName_exportedNames _ _ _ E1).
        now apply (addExport_get _ _ _ _ a) in E0.
    + intros _.
      pattern ns, ds, ns'. eapply foldM_returned; [| |exact H]; clear.
      * reflexivity.
      * intros b v vs b1 b2 str str1 Hbody IH. rewrite IH.
        apply bind_inv in Hbody. destruct Hbody as (b0 & str0 & E0 & E1).
        apply lift_inv in E1. destruct E1 as [E1 _].
        apply ret_inv in E0. destruct E0 as [-> _].
        now rewrite (addDeclaredName_exportedNames _ _ _ E1).
  - apply bind_inv in H. destruct H as (b0 & str0 & E0 & E1).
    apply lift_inv in E1. destruct E1 as [E1 _].
    rewrite (addDeclaredName_exportedNames _ _ _ E1).
    unfold hasExportModifier.
    destruct ms as [ms|]; [destruct (find _ ms) as [m|] eqn:Em|].
    + rewrite (find_existsb_some _ _ _ Em).
      apply bind_inv in E0. destruct E0 as (b1 & str1 & E0 & E2).
      apply lift_inv in E0. destruct E0 as [E0 _].
      apply bind_inv in E2. destruct E2 as (u & str2 & _ & E2).
      apply ret_inv in E2. destruct E2 as [-> _].
      intros Hnot. apply (addExport_get _ _ _ _ a) in E0; [exact E0|].
      destruct n as [[y| |]|]; try discriminate.
      intros E. injection E as ->. apply Hnot. now left.
    + apply ret_inv in E0. now destruct E0 as [-> _].
    + apply ret_inv in E0. now destruct E0 as [-> _].
  - intros Hnot. eapply exportSpecifiers_get; eassumption.
  - discriminate.
Qed.

Lemma replaceExports_rest_get astOffset ns post str ns' str' a :
  foldM (replaceExport astOffset) ns post str = Returned (ns', str') ->
  ~ In a (flat_map exportedSources post) ->
  JSMap.get String.eqb a (exportedNames ns')
  = JSMap.get String.eqb a (exportedNames ns).
Proof.
  intros H. pattern ns, post, ns'. eapply foldM_returned; [| |exact H]; clear.
  - reflexivity.
  - intros b s ss b1 b2 str str1 Hbody IH Hnot.
    cbn [flat_map] in Hnot. rewrite in_app_iff in Hnot.
    rewrite IH by tauto.
    eapply replaceExport_get; [exact Hbody|tauto].
Qed.

(** ** Transpiler: calls are only added *)

Lemma onlyAdds_ret {A} (a : A) : onlyAdds (ret a).
Proof.
  intros str a' str' H. apply ret_inv in H. destruct H as [_ ->].
  exists []. now rewrite withEdits_nil.
Qed.

Lemma onlyAdds_edit e : onlyAdds (edit e).
Proof. intros str a' str' H. injection H as _ <-. now exists [e]. Qed.

Lemma onlyAdds_original : onlyAdds original.
Proof.
  intros str a' str' H. injection H as _ <-. exists [].
  now rewrite withEdits_nil.
Qed.

Lemma onlyAdds_lift {A} (r : outcome A) : onlyAdds (lift r).
Proof.
  intros str a' str' H. apply lift_inv in H. destruct H as [_ ->].
  exists []. now rewrite withEdits_nil.
Qed.

Lemma onlyAdds_throw {A} e : onlyAdds (@throw A e).
Proof. intros str a' str' H. discriminate. Qed.

Lemma onlyAdds_bind {A B} (m : Tx A) (k : A -> Tx B) :
  onlyAdds m -> (forall a, onlyAdds (k a)) -> onlyAdds (bind m k).
Proof.
  intros Hm Hk str b str' H. apply bind_inv in H.
  destruct H as (a & str1 & E1 & E2).
  destruct (Hm _ _ _ E1) as [m1 ->]. destruct (Hk _ _ _ _ E2) as [m2 ->].
  exists (m1 ++ m2). apply withEdits_app.
Qed.

Lemma onlyAdds_foldM {A B} (body : B -> A -> Tx B) xs :
  (forall b x, onlyAdds (body b x)) -> forall b, onlyAdds (foldM body b xs).
Proof.
  intros Hb. induction xs as [|x xs IH]; intros b; cbn [foldM].
  - apply onlyAdds_ret.
  - apply onlyAdds_bind; [apply Hb|exact IH].
Qed.

#[local] Hint Resolve onlyAdds_ret onlyAdds_edit onlyAdds_original
  onlyAdds_lift onlyAdds_throw onlyAdds_bind onlyAdds_foldM : tx.

Lemma onlyAdds_removeExport astOffset start end_ :
  onlyAdds (removeExport astOffset start end_).
Proof. unfold removeExport. auto with tx. Qed.

#[local] Hint Resolve onlyAdds_removeExport : tx.

Lemma onlyAdds_replaceExport astOffset ns s :
  onlyAdds (replaceExport astOffset ns s).
Proof.
  destruct s as [p e ms ds|p e ms n|p e [els|]|p e l st|p e ex|p e|p e];
    cbn [replaceExport]; auto with tx.
  - apply onlyAdds_bind.
    + destruct (match ms with Some _ => _ | None => _ end); auto with tx.
    + intros _. apply onlyAdds_foldM. intros b v.
      apply onlyAdds_bind; [|auto with tx].
      destruct (match ms with Some _ => _ | None => _ end); auto with tx.
  - apply onlyAdds_bind; [|auto with tx].
    destruct ms as [ms|]; [destruct (find _ ms)|]; auto 10 with tx.
  - apply onlyAdds_foldM. intros b ne. apply onlyAdds_bind; [|auto with tx].
    destruct (TsAst.propertyName ne); auto with tx.
Qed.

Lemma foldM_app {A B} (body : B -> A -> Tx B) xs ys b str :
  foldM body b (xs ++ ys) str
  = bind (foldM body b xs) (fun b' => foldM body b' ys) str.
Proof.
  revert b str. induction xs as [|x xs IH]; intros b str; cbn [foldM app].
  - reflexivity.
  - unfold bind in *. destruct (body b x str) as [[b1 str1]|e]; [|reflexivity].
    apply IH.
Qed.

Lemma original_withEdits str more :
  Magic.original (withEdits str more) = Magic.original str.
Proof. reflexivity. Qed.

Lemma in_edits_withEdits e str more :
  In e (Magic.edits str) -> In e (Magic.edits (withEdits str more)).
Proof. intros H. cbn. apply in_or_app. now left. Qed.

(** C8 (as the code behaves). For a script with a top-level export clause
    that has the element [a as b] (two identifiers, [b] not empty), when
    the scan [replaceExports] returns: the transpiler removes the six
    characters that start at the first occurrence of [export] at or after
    the statement's [pos] (the text of the clause stays), and, unless a
    later element or statement exports [a] again, the entry of [a] in the
    map of exported names is [b], so that the props object literal of the
    return statement has the element [b: a]. *)
Theorem export_clause_rename
        (tsAst : TsAst.SourceFile) (astOffset : Z)
        (str str1 : Magic.MagicString) (names : Names)
        (pre post : list TsAst.Statement) (pos end_ : Z)
        (before after : list TsAst.ExportSpecifier) (a b : string) :
  TsAst.statements tsAst
  = pre ++ TsAst.ExportDeclaration pos end_
             (Some (before
                    ++ {| TsAst.propertyName := Some (TsAst.Identifier a);
                          TsAst.name := TsAst.Identifier b |} :: after))
        :: post ->
  b <> ""%string ->
  replaceExports tsAst astOffset str = Returned (names, str1) ->
  let exportStart :=
    JSString.indexOf (Magic.original str) "export" (pos + astOffset) in
  In (Magic.remove exportStart (exportStart + 6)) (Magic.edits str1)
  /\ (~ In a (flat_map specifierSource after) ->
      ~ In a (flat_map exportedSources post) ->
      JSMap.get String.eqb a (exportedNames names) = Some (Some b)
      /\ exists l r,
          returnElements (exportedNames names)
          = l ++ (b ++ ": " ++ a)%string :: r
          /\ forall slots,
              returnString (exportedNames names) slots
              = (nl ++ "return { props: {"
                 ++ JSString.join " , " (l ++ (b ++ ": " ++ a) :: r)
                 ++ "}, slots: " ++ slotsAsString slots ++ " }}")%string).
Proof.
  intros Hst Hb Hscan exportStart. unfold replaceExports in Hscan.
  rewrite Hst, foldM_app in Hscan.
  apply bind_inv in Hscan. destruct Hscan as (nsP & strP & EP & Hscan).
  destruct (onlyAdds_foldM _ pre (onlyAdds_replaceExport astOffset) _ _ _ _ EP)
    as [mP ->].
  cbn [foldM] in Hscan. apply bind_inv in Hscan.
  destruct Hscan as (nsE & strE & EE & Epost).
  destruct (onlyAdds_foldM _ post (onlyAdds_replaceExport astOffset) _ _ _ _ Epost)
    as [mPost ->].
  cbn [replaceExport] in EE. rewrite foldM_app in EE.
  apply bind_inv in EE. destruct EE as (nsA & strA & EA & EE).
  match type of EA with
  | foldM ?body _ _ _ = _ =>
      assert (Hbody : forall b x, onlyAdds (body b x))
  end.
  { intros b0 ne. apply onlyAdds_bind; [|auto with tx].
    destruct (TsAst.propertyName ne); auto with tx. }
  destruct (onlyAdds_foldM _ before Hbody _ _ _ _ EA) as [mA ->].
  cbn [foldM] in EE. apply bind_inv in EE.
  destruct EE as (nsB & strB & EB & Eafter).
  destruct (onlyAdds_foldM _ after Hbody _ _ _ _ Eafter) as [mAfter ->].
  cbn in EB. injection EB as <- <-.
  split.
  - apply in_edits_withEdits, in_edits_withEdits. cbn.
    apply in_or_app. right. left. reflexivity.
  - intros Hafter Hpost.
    assert (Hget : JSMap.get String.eqb a (exportedNames names) = Some (Some b)).
    { rewrite (replaceExports_rest_get _ _ _ _ _ _ a Epost Hpost).
      rewrite (exportSpecifiers_get _ _ _ _ _ _ _ _ a Eafter Hafter).
      cbn. apply get_set_same. }
    split; [exact Hget|].
    destruct (returnElements_entry _ _ _ Hget Hb) as (l & r & E).
    exists l, r. split; [exact E|]. intros sl. unfold returnString.
    now rewrite E.
Qed.

Lemma export_clause_rename_witness :
  let spec a b :=
    {| TsAst.propertyName := Some (TsAst.Identifier a);
       TsAst.name := TsAst.Identifier b |} in
  let tsAst :=
    {| TsAst.statements :=
         [ TsAst.VariableStatement 0 10 None [TsAst.Identifier "a"];
           TsAst.ExportDeclaration 10 29 (Some [spec "a" "b"]) ] |} in
  let str := Magic.new "<script>let a = 1; export { a as b };</script>" in
  let names :=
    {| exportedNames := [("a"%string, Some "b"%string)];
       declaredNames := ["a"%string] |} in
  let str1 := withEdits str [Magic.remove 19 25] in
  replaceExports tsAst 8 str = Returned (names, str1)
  /\ In (Magic.remove 19 25) (Magic.edits str1)
  /\ JSMap.get String.eqb "a" (exportedNames names) = Some (Some "b"%string)
  /\ returnString (exportedNames names) []
     = (nl ++ "return { props: {b: a}, slots: {} }}")%string.
Proof.
  intros spec tsAst str names str1.
  assert (Hb : "b"%string <> ""%string) by discriminate.
  assert (Hnone : ~ In "a"%string []) by (intros []).
  destruct (export_clause_rename tsAst 8 str str1 names
              [TsAst.VariableStatement 0 10 None [TsAst.Identifier "a"]] []
              10 29 [] [] "a" "b" eq_refl Hb eq_refl) as [Hrem Hmap].
  destruct (Hmap Hnone Hnone) as (Hget & _).
  split; [reflexivity|]. split; [exact Hrem|]. split; [exact Hget|].
  reflexivity.
Defined.

(** C8 (as the specification words it) does not hold. In
    [let a = 1; export { a as b }; export { a as c };] the second clause
    replaces the entry of [a], and the return statement has [c: a] but not
    [b: a]; of each clause only the word [export] is removed. *)
Lemma export_clause_rename_counterexample :
  let svelte :=
    "<script>let a = 1; export { a as b }; export { a as c };</script>" in
  let script :=
    {| Htmlx.type := "Script"; Htmlx.start := 0; Htmlx.end_ := 65;
       Htmlx.name := "script"; Htmlx.attributes := Some [];
       Htmlx.content_start := 8; Htmlx.content_end := 56 |} in
  let spec a b :=
    {| TsAst.propertyName := Some (TsAst.Identifier a);
       TsAst.name := TsAst.Identifier b |} in
  let tsAst :=
    {| TsAst.statements :=
         [ TsAst.VariableStatement 0 10 None [TsAst.Identifier "a"];
           TsAst.ExportDeclaration 10 29 (Some [spec "a" "b"]);
           TsAst.ExportDeclaration 29 48 (Some [spec "a" "c"]) ] |} in
  let env := fixedTrees {| Htmlx.children := [script] |} tsAst in
  processScriptTag (env := env) {| Htmlx.children := [script] |} [] 0
    (Magic.new svelte)
  = Returned
      (tt, {| Magic.original := svelte;
              Magic.edits :=
                [ Magic.overwrite 0 1 "</>;";
                  Magic.overwrite 1 8 ("function render() {" ++ nl);
                  Magic.overwrite 56 65 (";" ++ nl ++ "<>");
                  Magic.remove 19 25;
                  Magic.remove 38 44;
                  Magic.append
                    (nl ++ "return { props: {c: a}, slots: {} }}") ] |})
  /\ JSString.includes (nl ++ "return { props: {c: a}, slots: {} }}") "b: a"
     = false.
Proof. split; reflexivity. Qed.

(* ================================================================= *)
(** * Part IV: further properties of the code *)
(* ================================================================= *)

(** ** Ledger: the two translations on any ledger *)

(** X1. On every ledger the code can build, also one with several records
    at one offset, translating an original offset to the generated text
    and back gives the offset, not flagged as generated. *)
Theorem roundtrip_reachable (l : list AddedCode) (p : Z) :
  reachable l ->
  toOriginalPos (toVirtualPos p l) l = {| pos := p; inGenerated := false |}.
Proof.
  intros Hr. rewrite toOriginalPos_outside_spans.
  - rewrite startedBy_virtual_image by assumption. unfold toVirtualPos.
    f_equal. lia.
  - now apply reachable_spansOrdered.
  - intros c Hc. now apply virtual_image_outside_spans.
Qed.

Lemma roundtrip_reachable_witness :
  let l := insertCode (insertCode (insertCode [] 5 "abc") 5 "de") 2 "x" in
  reachable l
  /\ toVirtualPos 5 l = 11
  /\ toOriginalPos 11 l = {| pos := 5; inGenerated := false |}.
Proof.
  intros l. assert (Hl : reachable l) by (repeat constructor).
  split; [exact Hl|]. split; [reflexivity|].
  exact (roundtrip_reachable l 5 Hl).
Defined.

Lemma toVirtualPos_loop_lower p l tot :
  Forall (fun c => 0 <= length c) l -> tot <= toVirtualPos_loop p l tot.
Proof.
  intros H. revert tot. induction H as [|c l Hc _ IH]; intros tot; cbn; [lia|].
  destruct (p <? originalPos c); [lia|]. specialize (IH (tot + length c)). lia.
Qed.

Lemma toVirtualPos_loop_monotone p q l tot :
  Forall (fun c => 0 <= length c) l -> p <= q ->
  toVirtualPos_loop p l tot <= toVirtualPos_loop q l tot.
Proof.
  intros H Hpq. revert tot. induction H as [|c l Hc Hl IH]; intros tot; cbn; [lia|].
  destruct (Z.ltb_spec p (originalPos c)); destruct (Z.ltb_spec q (originalPos c));
    try lia.
  - pose proof (toVirtualPos_loop_lower q l (tot + length c) Hl). lia.
  - apply IH.
Qed.

Lemma toOriginalPos_loop_lower g l tot idx :
  Forall (fun c => 0 <= length c) l ->
  tot <= fst (toOriginalPos_loop g l tot idx).
Proof.
  intros H. revert tot idx.
  induction H as [|c l Hc _ IH]; intros tot idx; cbn; [lia|].
  destruct (g <? generatedPos c); cbn; [lia|].
  specialize (IH (tot + length c) (S idx)). lia.
Qed.

(** X2. On every ledger the code can build, [toVirtualPos] keeps the order
    of original offsets and never moves an offset backwards, and
    [toOriginalPos] never returns an offset beyond the one it is given. *)
Theorem translations_ordered (l : list AddedCode) :
  reachable l ->
  (forall p q, p < q -> toVirtualPos p l < toVirtualPos q l)
  /\ (forall p, p <= toVirtualPos p l)
  /\ (forall g, pos (toOriginalPos g l) <= g).
Proof.
  intros Hr. destruct (reachable_spansOrdered _ Hr) as [_ Hlen].
  pose proof (reachable_chained _ Hr) as Hch.
  split; [|split].
  - intros p q Hpq. unfold toVirtualPos.
    pose proof (toVirtualPos_loop_monotone p q l 0 Hlen). lia.
  - intros p. unfold toVirtualPos.
    pose proof (toVirtualPos_loop_lower p l 0 Hlen). lia.
  - intros g. unfold toOriginalPos.
    pose proof (toOriginalPos_loop_lower g l 0 O Hlen) as Hlow.
    destruct (toOriginalPos_loop g l 0 O) as [tot idx]. cbn in Hlow.
    destruct idx as [|i]; [cbn; lia|].
    destruct (nth_error l i) as [prev|] eqn:Hprev; [|cbn; lia].
    destruct (Z.gtb_spec g (generatedPos prev)); [|cbn; lia].
    destruct (Z.ltb_spec g (generatedPos prev + length prev)); cbn; [|lia].
    apply nth_error_In in Hprev.
    destruct (chained_offset _ _ _ Hch Hprev) as (_ & Hbase & _). lia.
Qed.

Lemma translations_ordered_witness :
  let l := insertCode (insertCode [] 9 "de") 5 "abc" in
  reachable l
  /\ toVirtualPos 4 l < toVirtualPos 5 l
  /\ 9 <= toVirtualPos 9 l
  /\ pos (toOriginalPos 6 l) <= 6.
Proof.
  intros l. assert (Hl : reachable l) by (repeat constructor).
  destruct (translations_ordered l Hl) as (H1 & H2 & H3).
  split; [exact Hl|]. split; [apply H1; lia|]. split; [apply H2|apply H3].
Defined.

(** X3. The first character of an inserted span is not treated as part of
    it: at the [generatedPos] of a record of positive length,
    [toOriginalPos] returns [originalPos - length] with
    [inGenerated = false]. *)
Theorem toOriginalPos_span_start (l : list AddedCode) (c : AddedCode) :
  reachable l -> In c l -> 0 < length c ->
  toOriginalPos (generatedPos c) l
  = {| pos := originalPos c - length c; inGenerated := false |}.
Proof.
  intros Hr Hin Hpos.
  pose proof (reachable_spansOrdered _ Hr) as Hsp.
  pose proof (reachable_chained _ Hr) as Hch.
  apply in_split in Hin. destruct Hin as (l1 & l2 & ->).
  destruct Hsp as [Hs Hlen].
  destruct (StronglySorted_middle _ _ _ _ Hs) as [Hbefore Hafter].
  rewrite Forall_forall in Hbefore, Hafter, Hlen.
  assert (H1 : Forall (fun d => generatedPos d <= generatedPos c) (l1 ++ [c])).
  { apply Forall_app. split; [|constructor; [lia|constructor]].
    apply Forall_forall. intros d Hd. specialize (Hbefore _ Hd).
    specialize (Hlen d (in_or_app _ _ _ (or_introl Hd))). cbn in Hbefore, Hlen. lia. }
  assert (H2 : stopsAt (generatedPos c) l2).
  { destruct l2 as [|d l2]; [exact I|]. cbn.
    specialize (Hafter d (or_introl eq_refl)). cbn in Hafter. lia. }
  rewrite toOriginalPos_outside_spans.
  - replace (l1 ++ c :: l2) with ((l1 ++ [c]) ++ l2) by now rewrite <- app_assoc.
    rewrite (startedBy_split _ (l1 ++ [c]) l2); try assumption.
    + destruct (chained_app _ _ _ Hch) as [_ (Hl & Ht & Hg & _)].
      f_equal. unfold sumLength in *. rewrite fold_right_app. cbn.
      assert (Hsum : forall acc l0,
                 fold_right (fun c0 a => length c0 + a) acc l0
                 = fold_right (fun c0 a => length c0 + a) 0 l0 + acc).
      { intros acc l0. induction l0 as [|x l0 IH]; cbn; lia. }
      rewrite Hsum. lia.
    + split; [now rewrite <- app_assoc|].
      apply Forall_forall. rewrite <- app_assoc. exact Hlen.
  - split; [exact Hs|now apply Forall_forall].
  - intros d Hd. unfold insideSpan. apply in_app_or in Hd.
    destruct Hd as [Hd|[<-|Hd]].
    + specialize (Hbefore _ Hd). cbn in Hbefore. lia.
    + lia.
    + specialize (Hafter _ Hd). cbn in Hafter. lia.
Qed.

Lemma toOriginalPos_span_start_witness :
  let l := insertCode [] 5 "abc" in
  let c := {| generatedPos := 5; originalPos := 5; length := 3; total := 3;
              inserted := "abc" |} in
  reachable l /\ In c l
  /\ toOriginalPos 5 l = {| pos := 2; inGenerated := false |}.
Proof.
  intros l c. assert (Hl : reachable l) by (repeat constructor).
  assert (Hc : In c l) by (left; reflexivity).
  split; [exact Hl|]. split; [exact Hc|].
  apply (toOriginalPos_span_start l c Hl Hc). cbn. lia.
Defined.

(** ** Ledger: a ledger is determined by its insertions *)

Lemma shift_rebuild n base ps :
  map (shift n) (rebuild base ps) = rebuild (base + n) ps.
Proof.
  revert base. induction ps as [|[q t] ps IH]; intros base; cbn; [reflexivity|].
  rewrite IH. unfold shift, entry. cbn. f_equal; [f_equal; lia|f_equal; lia].
Qed.

Lemma insertFrom_rebuild base ps p text :
  insertFrom base (rebuild base ps) p text
  = rebuild base (insertPair p text ps).
Proof.
  revert base. induction ps as [|[q t] ps IH]; intros base; [reflexivity|].
  cbn [rebuild insertFrom insertPair]. cbn [originalPos entry].
  destruct (q >? p).
  - change (entry base q t :: rebuild (base + JS.strlen t) ps)
      with (rebuild base ((q, t) :: ps)).
    now rewrite shift_rebuild.
  - cbn [rebuild]. f_equal. cbn [total entry]. apply IH.
Qed.

Lemma reachable_rebuild l :
  reachable l -> exists ps, l = rebuild 0 ps.
Proof.
  induction 1 as [|l p text _ (ps & ->)].
  - now exists [].
  - exists (insertPair p text ps).
    rewrite insertCode_insertFrom. apply insertFrom_rebuild.
Qed.

Lemma insertPair_comm p s q t ps :
  p <> q ->
  insertPair q t (insertPair p s ps) = insertPair p s (insertPair q t ps).
Proof.
  intros Hpq. induction ps as [|[x u] ps IH]; cbn.
  - destruct (Z.gtb_spec p q); destruct (Z.gtb_spec q p); try lia; reflexivity.
  - destruct (Z.gtb_spec x p); destruct (Z.gtb_spec x q); cbn.
    + destruct (Z.gtb_spec p q); destruct (Z.gtb_spec q p); try lia; cbn.
      * destruct (Z.gtb_spec x p); [reflexivity|lia].
      * destruct (Z.gtb_spec x q); [reflexivity|lia].
    + destruct (Z.gtb_spec p q); [lia|]. destruct (Z.gtb_spec x q); [lia|].
      destruct (Z.gtb_spec x p); [reflexivity|lia].
    + destruct (Z.gtb_spec q p); [lia|]. destruct (Z.gtb_spec x p); [lia|].
      destruct (Z.gtb_spec x q); [reflexivity|lia].
    + destruct (Z.gtb_spec x p); [lia|]. destruct (Z.gtb_spec x q); [lia|].
      now rewrite IH.
Qed.

(** X4. On a ledger the code can build, two insertions at different
    positions give the same ledger in either order. *)
Theorem insertCode_commutes (l : list AddedCode) (p q : Z) (s t : string) :
  reachable l -> p <> q ->
  insertCode (insertCode l p s) q t = insertCode (insertCode l q t) p s.
Proof.
  intros Hr Hpq. destruct (reachable_rebuild _ Hr) as [ps ->].
  rewrite !insertCode_insertFrom, !insertFrom_rebuild.
  now rewrite insertPair_comm.
Qed.

Lemma insertCode_commutes_witness :
  let l := insertCode [] 7 "mid" in
  reachable l
  /\ insertCode (insertCode l 3 "ab") 9 "c"
     = insertCode (insertCode l 9 "c") 3 "ab".
Proof.
  intros l. assert (Hl : reachable l) by (repeat constructor).
  split; [exact Hl|].
  apply (insertCode_commutes l 3 9 "ab" "c" Hl). lia.
Defined.

Lemma sumLength_app l1 l2 :
  sumLength (l1 ++ l2) = sumLength l1 + sumLength l2.
Proof.
  unfold sumLength. induction l1 as [|c l1 IH]; cbn; [reflexivity|].
  rewrite IH. lia.
Qed.

(** X5. With pairwise distinct positions, the original offset of a record
    is translated to the end of the text inserted there. *)
Theorem toVirtualPos_recorded (calls : list (Z * string)) (c : AddedCode) :
  NoDup (map fst calls) -> In c (build calls) ->
  toVirtualPos (originalPos c) (build calls) = generatedPos c + length c.
Proof.
  intros Hnd Hin.
  pose proof (build_distinct_ordered _ Hnd) as Hord.
  pose proof (reachable_chained _ (reachable_build calls)) as Hch.
  apply in_split in Hin. destruct Hin as (l1 & l2 & E). rewrite E in *.
  destruct (StronglySorted_middle _ _ _ _ Hord) as [Hbefore Hafter].
  unfold toVirtualPos.
  replace (l1 ++ c :: l2) with ((l1 ++ [c]) ++ l2) by now rewrite <- app_assoc.
  rewrite toVirtualPos_loop_app.
  - destruct (chained_app _ _ _ Hch) as [_ (Hl & Ht & Hg & _)].
    rewrite sumLength_app. unfold sumLength at 2. cbn. lia.
  - apply Forall_app. split; [|constructor; [lia|constructor]].
    rewrite Forall_forall in Hbefore |- *. intros d Hd.
    specialize (Hbefore _ Hd). cbn in Hbefore. lia.
  - destruct l2 as [|d l2]; [exact I|]. cbn.
    rewrite Forall_forall in Hafter. exact (Hafter d (or_introl eq_refl)).
Qed.

Lemma toVirtualPos_recorded_witness :
  let calls := [(9, "de"); (5, "abc")] in
  let c := {| generatedPos := 12; originalPos := 9; length := 2; total := 5;
              inserted := "de" |} in
  In c (build calls) /\ toVirtualPos 9 (build calls) = 14.
Proof.
  intros calls c.
  assert (Hc : In c (build calls)) by (right; left; reflexivity).
  split; [exact Hc|].
  apply (toVirtualPos_recorded calls c); [|exact Hc].
  cbn. repeat constructor; cbn; intuition lia.
Defined.

(** ** Strings: lengths, substrings and concatenation *)

Lemma append_assoc (a b c : string) :
  ((a ++ b) ++ c)%string = (a ++ b ++ c)%string.
Proof. induction a as [|x a IH]; cbn; [reflexivity|now rewrite IH]. Qed.

Lemma append_nil_r (a : string) : (a ++ "")%string = a.
Proof. induction a as [|x a IH]; cbn; [reflexivity|now rewrite IH]. Qed.

Lemma length_substring (s : string) (n m : nat) :
  (n + m <= String.length s)%nat -> String.length (substring n m s) = m.
Proof.
  revert n m. induction s as [|c s IH]; intros n m H; cbn in H.
  - destruct n, m; cbn; try reflexivity; lia.
  - destruct n as [|n]; cbn.
    + destruct m as [|m]; cbn; [reflexivity|]. f_equal. apply IH. cbn. lia.
    + apply IH. lia.
Qed.

Lemma substring_all (s : string) : substring 0 (String.length s) s = s.
Proof. induction s as [|c s IH]; cbn; [reflexivity|now rewrite IH]. Qed.

Lemma substring_zero (s : string) (n : nat) : substring n 0 s = ""%string.
Proof.
  revert n. induction s as [|c s IH]; intros [|n]; cbn; try reflexivity.
  apply IH.
Qed.

Lemma substring_prefix_append (a b : string) :
  substring 0 (String.length a) (a ++ b) = a.
Proof.
  induction a as [|x a IH]; cbn.
  - apply substring_zero.
  - now rewrite IH.
Qed.

Lemma substring_skip_append (a b : string) (n m : nat) :
  substring (String.length a + n) m (a ++ b) = substring n m b.
Proof. induction a as [|x a IH]; cbn; [reflexivity|exact IH]. Qed.

Lemma strlen_append (a b : string) :
  JS.strlen (a ++ b) = JS.strlen a + JS.strlen b.
Proof. unfold JS.strlen. rewrite length_append. lia. Qed.

Lemma slice_between (s : string) (a b : Z) :
  0 <= a <= b -> b <= JS.strlen s ->
  JSString.slice s a (Some b) = substring (Z.to_nat a) (Z.to_nat (b - a)) s.
Proof.
  intros Ha Hb. unfold JSString.slice.
  destruct (Z.ltb_spec a 0); [lia|]. destruct (Z.ltb_spec b 0); [lia|].
  rewrite !Z.min_l by lia. now rewrite Z.max_l by lia.
Qed.

Lemma slice_from (s : string) (a : Z) :
  0 <= a <= JS.strlen s ->
  JSString.slice s a None
  = substring (Z.to_nat a) (Z.to_nat (JS.strlen s - a)) s.
Proof.
  intros Ha. unfold JSString.slice.
  destruct (Z.ltb_spec a 0); [lia|].
  rewrite Z.min_l by lia. now rewrite Z.max_l by lia.
Qed.

Lemma strlen_slice_between (s : string) (a b : Z) :
  0 <= a <= b -> b <= JS.strlen s ->
  JS.strlen (JSString.slice s a (Some b)) = b - a.
Proof.
  intros Ha Hb. rewrite slice_between by assumption. unfold JS.strlen in *.
  rewrite length_substring; lia.
Qed.

Lemma strlen_slice_from (s : string) (a : Z) :
  0 <= a <= JS.strlen s ->
  JS.strlen (JSString.slice s a None) = JS.strlen s - a.
Proof.
  intros Ha. rewrite slice_from by assumption. unfold JS.strlen in *.
  rewrite length_substring; lia.
Qed.

(** ** Augmentor: the generated text *)

Lemma assemble_loop_pieces orig l pos text :
  (let '(pos', text') := assemble_loop orig l pos text in
   text' ++ JSString.slice orig pos' None)%string
  = (text ++ pieces orig pos l)%string.
Proof.
  revert pos text. induction l as [|a rest IH]; intros pos text; cbn.
  - reflexivity.
  - rewrite IH. now rewrite !append_assoc.
Qed.

Lemma rebuild_textual base ps :
  Forall (fun c => length c = JS.strlen (inserted c)) (rebuild base ps).
Proof.
  revert base. induction ps as [|[q t] ps IH]; intros base; cbn [rebuild].
  - constructor.
  - constructor; [reflexivity|apply IH].
Qed.

Lemma reachable_textual l :
  reachable l -> Forall (fun c => length c = JS.strlen (inserted c)) l.
Proof.
  intros Hr. destruct (reachable_rebuild _ Hr) as [ps ->].
  apply rebuild_textual.
Qed.

Lemma runFrom_sorted orig pos l :
  0 <= pos <= JS.strlen orig ->
  Forall (fun c => pos <= originalPos c <= JS.strlen orig
                   /\ length c = JS.strlen (inserted c)) l ->
  orderedBy Z.le l -> runFrom orig pos l.
Proof.
  revert pos. induction l as [|a rest IH]; intros pos Hpos Hall Hs; cbn.
  - exact Hpos.
  - apply Forall_cons_iff in Hall. destruct Hall as [(Ha & Hlen) Hall].
    apply StronglySorted_inv in Hs. destruct Hs as [Hs Hle].
    split; [lia|]. split; [exact Hlen|]. apply IH; [lia| |exact Hs].
    rewrite Forall_forall in Hall, Hle |- *. intros c Hc.
    specialize (Hall _ Hc). specialize (Hle _ Hc). cbn in Hle. lia.
Qed.

Lemma reachable_runFrom orig l :
  reachable l -> inBounds orig l -> runFrom orig 0 l.
Proof.
  intros Hr Hb. apply runFrom_sorted.
  - unfold JS.strlen. lia.
  - pose proof (reachable_textual _ Hr) as Ht. unfold inBounds in Hb.
    rewrite Forall_forall in Hb, Ht |- *. intros c Hc.
    specialize (Hb _ Hc). specialize (Ht _ Hc). lia.
  - now apply reachable_ordered.
Qed.

Lemma runFrom_start orig pos l : runFrom orig pos l -> 0 <= pos <= JS.strlen orig.
Proof.
  revert pos. induction l as [|a rest IH]; intros pos H; cbn in H; [exact H|].
  destruct H as (Hp & _ & Hrest). specialize (IH _ Hrest). lia.
Qed.

Lemma strlen_pieces orig pos l :
  runFrom orig pos l ->
  JS.strlen (pieces orig pos l) = JS.strlen orig - pos + sumLength l.
Proof.
  revert pos. induction l as [|a rest IH]; intros pos H; cbn [pieces].
  - rewrite strlen_slice_from by exact H. unfold sumLength. cbn. lia.
  - destruct H as (Hp & Hlen & Hrest).
    pose proof (runFrom_start _ _ _ Hrest) as Ha.
    rewrite !strlen_append, strlen_slice_between, IH by (assumption || lia).
    unfold sumLength. cbn. lia.
Qed.

Lemma toVirtualPos_loop_acc p l tot :
  toVirtualPos_loop p l tot = tot + toVirtualPos_loop p l 0.
Proof.
  revert tot. induction l as [|c l IH]; intros tot; cbn; [lia|].
  destruct (p <? originalPos c); [lia|].
  rewrite (IH (tot + length c)), (IH (length c)). lia.
Qed.

Lemma runFrom_lengths orig pos l :
  runFrom orig pos l -> Forall (fun c => 0 <= length c) l.
Proof.
  revert pos. induction l as [|a rest IH]; intros pos H; [constructor|].
  destruct H as (_ & Hlen & Hrest). constructor; [|now apply (IH _ Hrest)].
  rewrite Hlen. apply strlen_nonneg.
Qed.

Lemma get_pieces orig pos l p :
  runFrom orig pos l -> pos <= p < JS.strlen orig ->
  String.get (Z.to_nat (p - pos + toVirtualPos_loop p l 0)) (pieces orig pos l)
  = String.get (Z.to_nat p) orig.
Proof.
  revert pos. induction l as [|a rest IH]; intros pos H Hp; cbn [pieces].
  - cbn in H |- *. rewrite slice_from by exact H.
    rewrite substring_correct1 by (unfold JS.strlen in *; lia).
    f_equal. lia.
  - destruct H as (Hpos & Hlen & Hrest).
    pose proof (runFrom_start _ _ _ Hrest) as Ha.
    cbn [toVirtualPos_loop].
    destruct (Z.ltb_spec p (originalPos a)) as [Hlt|Hge].
    + rewrite <- append_correct1.
      * rewrite slice_between by lia.
        rewrite substring_correct1 by lia. f_equal. lia.
      * pose proof (strlen_slice_between orig pos (originalPos a)) as Hs.
        unfold JS.strlen in Hs at 2. lia.
    + rewrite toVirtualPos_loop_acc.
      pose proof (toVirtualPos_loop_lower p rest 0
                    (runFrom_lengths _ _ _ Hrest)) as Hlow.
      pose proof (strlen_slice_between orig pos (originalPos a)) as Hs.
      unfold JS.strlen in Hs at 2.
      assert (Hi : String.length (inserted a) = Z.to_nat (length a)).
      { rewrite Hlen. unfold JS.strlen. lia. }
      pose proof (strlen_nonneg (inserted a)).
      replace (Z.to_nat (p - pos + (0 + length a + toVirtualPos_loop p rest 0)))
        with (Z.to_nat (p - originalPos a + toVirtualPos_loop p rest 0)
              + String.length (inserted a)
              + String.length (JSString.slice orig pos (Some (originalPos a))))%nat
        by (rewrite Hi; lia).
      rewrite <- !append_correct2. apply IH; [exact Hrest|lia].
Qed.

Lemma substring_pieces orig pos base l c :
  runFrom orig pos l -> chained base l -> In c l ->
  substring (Z.to_nat (generatedPos c - base - pos)) (Z.to_nat (length c))
    (pieces orig pos l)
  = inserted c.
Proof.
  revert pos base. induction l as [|a rest IH]; intros pos base H Hch Hin; [easy|].
  destruct H as (Hpos & Hlen & Hrest).
  destruct Hch as (Hnn & Htot & Hgen & Hchr).
  pose proof (runFrom_start _ _ _ Hrest) as Ha.
  pose proof (strlen_slice_between orig pos (originalPos a)) as Hs.
  unfold JS.strlen in Hs at 2.
  assert (Hi : String.length (inserted a) = Z.to_nat (length a)).
  { rewrite Hlen. unfold JS.strlen. lia. }
  cbn [pieces]. destruct Hin as [<-|Hin].
  - replace (Z.to_nat (generatedPos a - base - pos))
      with (String.length (JSString.slice orig pos (Some (originalPos a))) + 0)%nat
      by lia.
    rewrite substring_skip_append, <- Hi. apply substring_prefix_append.
  - assert (Hge : originalPos a <= generatedPos c - total a).
    { clear - Hrest Hchr Hin. revert Hrest Hchr Hin.
      generalize (originalPos a) (total a). induction rest as [|d rest IHr];
        intros o b Hrest Hchr Hin; [easy|].
      destruct Hrest as (Hp & _ & Hr). destruct Hchr as (Hn & Ht & Hg & Hc).
      destruct Hin as [<-|Hin]; [lia|].
      specialize (IHr _ _ Hr Hc Hin). lia. }
    pose proof (strlen_nonneg (inserted a)).
    rewrite <- append_assoc.
    replace (Z.to_nat (generatedPos c - base - pos))
      with (String.length
              (JSString.slice orig pos (Some (originalPos a)) ++ inserted a)
            + Z.to_nat (generatedPos c - total a - originalPos a))%nat
      by (rewrite length_append, Hi; lia).
    rewrite substring_skip_append.
    exact (IH (originalPos a) (total a) Hrest Hchr Hin).
Qed.

(** ** Augmentor: the ledger and the text that [upsertKitFile] returns *)

Lemma keepsLedger_insert p t : keepsLedger (insert p t).
Proof. intros l Hl. now constructor. Qed.

Lemma keepsLedger_skip : keepsLedger skip.
Proof. intros l Hl. exact Hl. Qed.

Lemma keepsLedger_andThen a b :
  keepsLedger a -> keepsLedger b -> keepsLedger (andThen a b).
Proof. intros Ha Hb l Hl. apply Hb, Ha, Hl. Qed.

#[local] Hint Resolve keepsLedger_insert keepsLedger_skip keepsLedger_andThen
  : tx.

Lemma keepsLedger_addTypeToVariable exports surround name type :
  keepsLedger (addTypeToVariable exports surround name type).
Proof.
  unfold addTypeToVariable. destruct (exports name) as [[n td|n td]|]; auto with tx.
  destruct (negb td), (Ts.initializer n); auto with tx.
Qed.

Lemma keepsLedger_addTypeToFunction exports surround name type returnType :
  keepsLedger (addTypeToFunction exports surround name type returnType).
Proof.
  unfold addTypeToFunction. destruct (exports name) as [[n td|n td]|]; auto with tx.
  destruct (Ts.parameters n) as [|param [|? ?]]; auto with tx.
  destruct (negb td); auto with tx.
  apply keepsLedger_andThen; auto with tx.
  destruct (Ts.type n), (Ts.body n); auto with tx.
Qed.

Lemma keepsLedger_addTypeToLoad basename exports surround :
  keepsLedger (addTypeToLoad basename exports surround).
Proof.
  unfold addTypeToLoad. destruct (exports "load"%string) as [[n td|n td]|];
    auto with tx.
  destruct (Ts.parameters n) as [|param [|? ?]]; auto with tx.
  destruct (negb td); auto with tx.
Qed.

Lemma keepsLedger_addTypeToActions exports surround :
  keepsLedger (addTypeToActions exports surround).
Proof.
  unfold addTypeToActions. destruct (exports "actions"%string) as [[n td|n td]|];
    auto with tx.
  destruct (negb td), (Ts.initializer n); auto with tx.
Qed.

#[local] Hint Resolve keepsLedger_addTypeToVariable
  keepsLedger_addTypeToFunction keepsLedger_addTypeToLoad
  keepsLedger_addTypeToActions : tx.

(** The ledger of a strategy: its steps, run on the empty array. *)
Ltac ledger_steps :=
  match goal with
  | |- reachable (?s ?l) =>
      let H := fresh in
      assert (H : keepsLedger s)
        by (cbv beta zeta;
            repeat first [ apply keepsLedger_addTypeToLoad
                         | apply keepsLedger_addTypeToActions
                         | apply keepsLedger_addTypeToVariable
                         | apply keepsLedger_addTypeToFunction
                         | apply keepsLedger_andThen ]);
      apply H; constructor
  end.

Section GeneratedText.
Context {path : PathModule} {host : TsHost}.

Lemma upserKitRouteFile_reachable b getSource surround r :
  upserKitRouteFile b getSource surround = Some r -> reachable (addedCode r).
Proof.
  unfold upserKitRouteFile. destruct (negb _); [discriminate|].
  destruct (getSource tt); [|discriminate]. intros H. injection H as <-.
  cbn [addedCode]. ledger_steps.
Qed.

Lemma upserKitServerHooksFile_reachable f b s getSource surround r :
  upserKitServerHooksFile f b s getSource surround = Some r ->
  reachable (addedCode r).
Proof.
  unfold upserKitServerHooksFile. destruct (negb _); [discriminate|].
  destruct (getSource tt); [|discriminate]. intros H. injection H as <-.
  cbn [addedCode]. ledger_steps.
Qed.

Lemma upserKitClientHooksFile_reachable f b s getSource surround r :
  upserKitClientHooksFile f b s getSource surround = Some r ->
  reachable (addedCode r).
Proof.
  unfold upserKitClientHooksFile. destruct (negb _); [discriminate|].
  destruct (getSource tt); [|discriminate]. intros H. injection H as <-.
  cbn [addedCode]. ledger_steps.
Qed.

Lemma upserKitParamsFile_reachable f b s getSource surround r :
  upserKitParamsFile f b s getSource surround = Some r ->
  reachable (addedCode r).
Proof.
  unfold upserKitParamsFile. destruct (negb _); [discriminate|].
  destruct (getSource tt); [|discriminate]. intros H. injection H as <-.
  cbn [addedCode]. ledger_steps.
Qed.

Lemma upsertKitFile_result_reachable f settings getSource surround r :
  upsertKitFile_result f settings getSource surround = Some r ->
  reachable (addedCode r).
Proof.
  unfold upsertKitFile_result, orElse.
  destruct (upserKitRouteFile _ _ _) eqn:E1.
  { intros H. injection H as <-. eapply upserKitRouteFile_reachable, E1. }
  destruct (upserKitServerHooksFile _ _ _ _ _) eqn:E2.
  { intros H. injection H as <-. eapply upserKitServerHooksFile_reachable, E2. }
  destruct (upserKitClientHooksFile _ _ _ _ _) eqn:E3.
  { intros H. injection H as <-. eapply upserKitClientHooksFile_reachable, E3. }
  intros H. eapply upserKitParamsFile_reachable, H.
Qed.

Lemma upsertKitFile_pieces f settings getSource surround :
  upsertKitFile f settings getSource surround
  = match upsertKitFile_result f settings getSource surround with
    | Some r =>
        Some {| text := pieces (originalText r) 0 (addedCode r);
                kitAddedCode := addedCode r |}
    | None => None
    end.
Proof.
  unfold upsertKitFile.
  destruct (upsertKitFile_result f settings getSource surround) as [r|];
    [|reflexivity].
  pose proof (assemble_loop_pieces (originalText r) (addedCode r) 0 "") as H.
  destruct (assemble_loop (originalText r) (addedCode r) 0 "") as [pos' text'].
  cbn in H. now rewrite H.
Qed.

(** X6. The ledger that [upsertKitFile] returns is one that [insertCode]
    builds from the empty array: its records are ordered by [originalPos],
    each [length] is the length of the inserted text, each [total] is the
    sum of the lengths up to the record, and each [generatedPos] is
    [originalPos] plus the previous [total]. *)
Theorem upsertKitFile_ledger (fileName : string) (settings : KitFilesSettings)
        (getSource : unit -> option SourceFile) (surround : string -> string)
        (file : KitFile) :
  upsertKitFile fileName settings getSource surround = Some file ->
  reachable (kitAddedCode file)
  /\ orderedBy Z.le (kitAddedCode file)
  /\ Forall (fun c => length c = JS.strlen (inserted c)) (kitAddedCode file)
  /\ totalsAccumulate (kitAddedCode file)
  /\ generatedPosFollows (kitAddedCode file).
Proof.
  rewrite upsertKitFile_pieces.
  destruct (upsertKitFile_result fileName settings getSource surround)
    as [r|] eqn:E; [|discriminate].
  intros H. injection H as <-. cbn [kitAddedCode].
  pose proof (upsertKitFile_result_reachable _ _ _ _ _ E) as Hr.
  split; [exact Hr|]. split; [now apply reachable_ordered|].
  split; [now apply reachable_textual|].
  apply chained_indexwise. now apply reachable_chained.
Qed.

(** X7. When every record lies at an offset of the original text, the
    generated text is as long as the original text and the inserted texts
    together. *)
Theorem generated_text_length (fileName : string) (settings : KitFilesSettings)
        (getSource : unit -> option SourceFile) (surround : string -> string)
        (r : Upserted) :
  upsertKitFile_result fileName settings getSource surround = Some r ->
  inBounds (originalText r) (addedCode r) ->
  exists file,
    upsertKitFile fileName settings getSource surround = Some file
    /\ kitAddedCode file = addedCode r
    /\ JS.strlen (text file)
       = JS.strlen (originalText r) + sumLength (addedCode r).
Proof.
  intros E Hb. rewrite upsertKitFile_pieces, E. eexists.
  split; [reflexivity|]. split; [reflexivity|]. cbn [text].
  rewrite strlen_pieces; [lia|].
  apply reachable_runFrom; [|exact Hb].
  eapply upsertKitFile_result_reachable, E.
Qed.

(** X8. When every record lies at an offset of the original text, each
    character of the original text is found in the generated text at the
    offset that [toVirtualPos] gives. *)
Theorem original_text_kept (fileName : string) (settings : KitFilesSettings)
        (getSource : unit -> option SourceFile) (surround : string -> string)
        (r : Upserted) (p : Z) :
  upsertKitFile_result fileName settings getSource surround = Some r ->
  inBounds (originalText r) (addedCode r) ->
  0 <= p < JS.strlen (originalText r) ->
  exists file,
    upsertKitFile fileName settings getSource surround = Some file
    /\ String.get (Z.to_nat (toVirtualPos p (kitAddedCode file))) (text file)
       = String.get (Z.to_nat p) (originalText r).
Proof.
  intros E Hb Hp. rewrite upsertKitFile_pieces, E. eexists.
  split; [reflexivity|]. cbn [text kitAddedCode].
  pose proof (upsertKitFile_result_reachable _ _ _ _ _ E) as Hr.
  rewrite <- (get_pieces (originalText r) 0 (addedCode r) p
                (reachable_runFrom _ _ Hr Hb)) by lia.
  unfold toVirtualPos. f_equal. f_equal. lia.
Qed.

(** X9. When every record lies at an offset of the original text, the
    inserted text of each record is found in the generated text at the
    record's [generatedPos]. *)
Theorem inserted_text_placed (fileName : string) (settings : KitFilesSettings)
        (getSource : unit -> option SourceFile) (surround : string -> string)
        (r : Upserted) (c : AddedCode) :
  upsertKitFile_result fileName settings getSource surround = Some r ->
  inBounds (originalText r) (addedCode r) ->
  In c (addedCode r) ->
  exists file,
    upsertKitFile fileName settings getSource surround = Some file
    /\ substring (Z.to_nat (generatedPos c)) (Z.to_nat (length c)) (text file)
       = inserted c.
Proof.
  intros E Hb Hc. rewrite upsertKitFile_pieces, E. eexists.
  split; [reflexivity|]. cbn [text].
  pose proof (upsertKitFile_result_reachable _ _ _ _ _ E) as Hr.
  etransitivity;
    [|exact (substring_pieces (originalText r) 0 0 (addedCode r) c
               (reachable_runFrom _ _ Hr Hb) (reachable_chained _ Hr) Hc)].
  f_equal. lia.
Qed.

End GeneratedText.

Lemma getUpserted_inBounds :
  inBounds (originalText getUpserted) (addedCode getUpserted).
Proof. repeat constructor; cbn; lia. Defined.

Lemma upsertKitFile_ledger_witness :
  exists file,
    upsertKitFile (path := PosixPath.posix) (host := tableHost)
      "src/routes/+server.ts" usualSettings (fun _ => Some getSourceFile)
      (fun t => t) = Some file
    /\ kitAddedCode file = addedCode getUpserted
    /\ orderedBy Z.le (kitAddedCode file)
    /\ totalsAccumulate (kitAddedCode file).
Proof.
  eexists. split; [reflexivity|]. split; [reflexivity|].
  destruct (upsertKitFile_ledger (path := PosixPath.posix) (host := tableHost)
              "src/routes/+server.ts" usualSettings
              (fun _ => Some getSourceFile) (fun t => t) _ eq_refl)
    as (_ & Ho & _ & Ht & _).
  split; [exact Ho|exact Ht].
Defined.

Lemma generated_text_length_witness :
  exists file,
    upsertKitFile (path := PosixPath.posix) (host := tableHost)
      "src/routes/+server.ts" usualSettings (fun _ => Some getSourceFile)
      (fun t => t) = Some file
    /\ JS.strlen (text file) = 29 + 67.
Proof.
  destruct (generated_text_length (path := PosixPath.posix) (host := tableHost)
              "src/routes/+server.ts" usualSettings
              (fun _ => Some getSourceFile) (fun t => t) getUpserted
              eq_refl getUpserted_inBounds) as (file & E & _ & Hlen).
  exists file. split; [exact E|exact Hlen].
Defined.

Lemma original_text_kept_witness :
  exists file,
    upsertKitFile (path := PosixPath.posix) (host := tableHost)
      "src/routes/+server.ts" usualSettings (fun _ => Some getSourceFile)
      (fun t => t) = Some file
    /\ String.get (Z.to_nat (toVirtualPos 27 (kitAddedCode file))) (text file)
       = Some "{"%char.
Proof.
  assert (Hp : 0 <= 27 < JS.strlen (originalText getUpserted)) by (cbn; lia).
  destruct (original_text_kept (path := PosixPath.posix) (host := tableHost)
              "src/routes/+server.ts" usualSettings
              (fun _ => Some getSourceFile) (fun t => t) getUpserted 27
              eq_refl getUpserted_inBounds Hp) as (file & E & Hget).
  exists file. split; [exact E|exact Hget].
Defined.

Lemma inserted_text_placed_witness :
  exists file,
    upsertKitFile (path := PosixPath.posix) (host := tableHost)
      "src/routes/+server.ts" usualSettings (fun _ => Some getSourceFile)
      (fun t => t) = Some file
    /\ substring 63 31 (text file) = ": Response | Promise<Response> "%string.
Proof.
  assert (Hc : In {| generatedPos := 63; originalPos := 27; length := 31;
                     total := 67;
                     inserted := ": Response | Promise<Response> " |}
                  (addedCode getUpserted)) by (right; left; reflexivity).
  destruct (inserted_text_placed (path := PosixPath.posix) (host := tableHost)
              "src/routes/+server.ts" usualSettings
              (fun _ => Some getSourceFile) (fun t => t) getUpserted _
              eq_refl getUpserted_inBounds Hc) as (file & E & Hsub).
  exists file. split; [exact E|exact Hsub].
Defined.

(** ** Augmentor: files that need no annotation, files that get a result *)

Lemma addTypeToVariable_typed exports surround name type l :
  allTyped exports -> addTypeToVariable exports surround name type l = l.
Proof.
  intros H. specialize (H name). unfold addTypeToVariable.
  destruct (exports name) as [[n td|n td]|]; try reflexivity. now rewrite H.
Qed.

Lemma addTypeToFunction_typed exports surround name type returnType l :
  allTyped exports ->
  addTypeToFunction exports surround name type returnType l = l.
Proof.
  intros H. specialize (H name). unfold addTypeToFunction.
  destruct (exports name) as [[n td|n td]|]; try reflexivity. rewrite H.
  now destruct (Ts.parameters n) as [|? [|? ?]].
Qed.

Lemma addTypeToLoad_typed basename exports surround l :
  allTyped exports -> addTypeToLoad basename exports surround l = l.
Proof.
  intros H. specialize (H "load"%string). unfold addTypeToLoad.
  destruct (exports "load"%string) as [[n td|n td]|]; try reflexivity.
  rewrite H. now destruct (Ts.parameters n) as [|? [|? ?]].
Qed.

Lemma addTypeToActions_typed exports surround l :
  allTyped exports -> addTypeToActions exports surround l = l.
Proof.
  intros H. specialize (H "actions"%string). unfold addTypeToActions.
  destruct (exports "actions"%string) as [[n td|n td]|]; try reflexivity.
  now rewrite H.
Qed.

Lemma pieces_nil orig : pieces orig 0 [] = orig.
Proof.
  cbn. rewrite slice_from by (unfold JS.strlen; lia).
  rewrite Z.sub_0_r. unfold JS.strlen. rewrite Nat2Z.id. apply substring_all.
Qed.

Section NoAnnotation.
Context {path : PathModule} {host : TsHost}.

Lemma upsertKitFile_returns fileName settings getSource surround source :
  isKitFile fileName settings = true -> getSource tt = Some source ->
  exists r,
    upsertKitFile_result fileName settings getSource surround = Some r
    /\ originalText r = getFullText source.
Proof.
  intros Hkit Hsrc. unfold isKitFile in Hkit.
  unfold upsertKitFile_result, orElse.
  unfold upserKitRouteFile, upserKitServerHooksFile, upserKitClientHooksFile,
    upserKitParamsFile.
  rewrite Hsrc.
  destruct (isKitRouteFile (basename fileName)); cbn [negb]; [eauto|].
  destruct (isServerHooksFile _ _ _); cbn [negb]; [eauto|].
  destruct (isClientHooksFile _ _ _); cbn [negb]; [eauto|].
  destruct (isParamsFile _ _ _); cbn [negb]; [eauto|discriminate].
Qed.

(** X10. A recognised file whose source is supplied and in which every
    export that [findExports] reports already has a type definition (or
    which has no exports) comes back unchanged: the text is the original
    text and the ledger is empty. *)
Theorem typed_file_unchanged (fileName : string) (settings : KitFilesSettings)
        (getSource : unit -> option SourceFile) (surround : string -> string)
        (source : SourceFile) :
  isKitFile fileName settings = true ->
  getSource tt = Some source ->
  allTyped (findExports source
              (JSString.endsWith (basename fileName) ".ts")) ->
  upsertKitFile fileName settings getSource surround
  = Some {| text := getFullText source; kitAddedCode := [] |}.
Proof.
  intros Hkit Hsrc Htyped. rewrite upsertKitFile_pieces.
  assert (E : upsertKitFile_result fileName settings getSource surround
              = Some {| addedCode := []; originalText := getFullText source |}).
  { unfold isKitFile in Hkit. unfold upsertKitFile_result, orElse.
    unfold upserKitRouteFile, upserKitServerHooksFile, upserKitClientHooksFile,
      upserKitParamsFile.
    rewrite Hsrc. unfold andThen.
    repeat first [ rewrite (addTypeToLoad_typed _ _ _ _ Htyped)
                 | rewrite (addTypeToActions_typed _ _ _ Htyped)
                 | rewrite (addTypeToVariable_typed _ _ _ _ _ Htyped)
                 | rewrite (addTypeToFunction_typed _ _ _ _ _ _ Htyped) ].
    destruct (isKitRouteFile (basename fileName)); cbn [negb]; [reflexivity|].
    destruct (isServerHooksFile _ _ _); cbn [negb]; [reflexivity|].
    destruct (isClientHooksFile _ _ _); cbn [negb]; [reflexivity|].
    destruct (isParamsFile _ _ _); cbn [negb]; [reflexivity|discriminate]. }
  rewrite E. cbn [originalText addedCode]. now rewrite pieces_nil.
Qed.

(** X11. [upsertKitFile] returns [undefined] exactly for the files that
    [isKitFile] rejects and for the files whose source is not supplied. *)
Theorem upsertKitFile_undefined_iff (fileName : string)
        (settings : KitFilesSettings)
        (getSource : unit -> option SourceFile) (surround : string -> string) :
  upsertKitFile fileName settings getSource surround = None
  <-> isKitFile fileName settings = false \/ getSource tt = None.
Proof.
  rewrite upsertKitFile_pieces. split.
  - intros H. destruct (isKitFile fileName settings) eqn:Hkit; [|now left].
    destruct (getSource tt) as [source|] eqn:Hsrc; [|now right].
    destruct (upsertKitFile_returns fileName settings getSource surround
                source Hkit Hsrc) as (r & E & _).
    rewrite E in H. discriminate.
  - intros H.
    assert (E : upsertKitFile_result fileName settings getSource surround = None).
    { unfold upsertKitFile_result. destruct H as [H|H].
      - unfold isKitFile in H.
        apply orb_false_iff in H. destruct H as [H Hp].
        apply orb_false_iff in H. destruct H as [H Hc].
        apply orb_false_iff in H. destruct H as [Hr Hs].
        now rewrite (upserKitRouteFile_no_match _ _ _ Hr),
          (upserKitServerHooksFile_no_match _ _ _ _ _ Hs),
          (upserKitClientHooksFile_no_match _ _ _ _ _ Hc),
          (upserKitParamsFile_no_match _ _ _ _ _ Hp).
      - now rewrite (upserKitRouteFile_no_source _ _ _ H),
          (upserKitServerHooksFile_no_source _ _ _ _ _ H),
          (upserKitClientHooksFile_no_source _ _ _ _ _ H),
          (upserKitParamsFile_no_source _ _ _ _ _ H). }
    now rewrite E.
Qed.

End NoAnnotation.

Lemma typed_file_unchanged_witness :
  let source : @SourceFile tableHost :=
    ("export const prerender: boolean = true;"%string,
     [("prerender"%string,
       Ts.var {| Ts.name := Ts.mkNode 13 22;
                 Ts.initializer := Some (Ts.mkNode 34 38) |} true)]) in
  isKitFile (path := PosixPath.posix) "src/routes/+page.ts" usualSettings = true
  /\ upsertKitFile (path := PosixPath.posix) (host := tableHost)
       "src/routes/+page.ts" usualSettings (fun _ => Some source) (fun t => t)
     = Some {| text := "export const prerender: boolean = true;";
               kitAddedCode := [] |}.
Proof.
  intros source.
  assert (Hkit : isKitFile (path := PosixPath.posix) "src/routes/+page.ts"
                   usualSettings = true) by reflexivity.
  split; [exact Hkit|].
  apply (typed_file_unchanged (path := PosixPath.posix) (host := tableHost)
           "src/routes/+page.ts" usualSettings (fun _ => Some source)
           (fun t => t) source Hkit eq_refl).
  intros name. cbv [findExports tableHost source snd fst find option_map].
  destruct (String.eqb "prerender" name); first [reflexivity|exact I].
Defined.

(** ** Classification: edge cases of the patterns *)

Lemma endsWith_empty (s : string) : JSString.endsWith s "" = true.
Proof.
  unfold JSString.endsWith. cbn [String.length]. rewrite substring_zero.
  reflexivity.
Qed.

Lemma slice_to_zero (s : string) : JSString.slice s 0 (Some 0) = ""%string.
Proof.
  unfold JSString.slice. cbn [Z.ltb Z.compare].
  replace (Z.max (Z.min 0 (JS.strlen s) - Z.min 0 (JS.strlen s)) 0) with 0 by lia.
  apply substring_zero.
Qed.

Section ClassificationEdges.
Context {path : PathModule}.

(** X12. A basename without [@] for which [path.extname] is empty is not a
    route file, whatever its name: stripping an extension of length zero
    strips everything. *)
Theorem extensionless_not_route (basename : string) :
  JSString.includes basename "@" = false ->
  extname basename = ""%string ->
  isKitRouteFile basename = false.
Proof.
  intros Hat Hext. unfold isKitRouteFile. rewrite Hat, Hext.
  change (- JS.strlen "") with 0. now rewrite slice_to_zero.
Qed.

(** X13. An empty configured path matches every file: with an empty
    server or client hooks path every file is a hooks file, with an empty
    params path every file that is not a test or spec file is a params
    file, and in each case [isKitFile] accepts the file. *)
Theorem empty_path_matches_all (fileName basename : string) :
  isServerHooksFile fileName basename "" = true
  /\ isClientHooksFile fileName basename "" = true
  /\ isParamsFile fileName basename ""
     = negb (JSString.includes basename ".test")
       && negb (JSString.includes basename ".spec")
  /\ (forall c p,
         isKitFile fileName
           {| serverHooksPath := ""; clientHooksPath := c; paramsPath := p |}
         = true)
  /\ (forall s p,
         isKitFile fileName
           {| serverHooksPath := s; clientHooksPath := ""; paramsPath := p |}
         = true).
Proof.
  assert (Hs : forall f b, isServerHooksFile f b "" = true).
  { intros f b. unfold isServerHooksFile. rewrite !endsWith_empty.
    apply orb_true_r. }
  assert (Hc : forall f b, isClientHooksFile f b "" = true).
  { intros f b. unfold isClientHooksFile. rewrite !endsWith_empty.
    apply orb_true_r. }
  split; [apply Hs|]. split; [apply Hc|]. split.
  - unfold isParamsFile. now rewrite endsWith_empty.
  - split; intros; unfold isKitFile; cbn [serverHooksPath clientHooksPath].
    + rewrite Hs. now rewrite orb_true_r.
    + rewrite Hc. now rewrite !orb_true_r.
Qed.

End ClassificationEdges.

Lemma extensionless_not_route_witness :
  JSString.includes "+page" "@" = false
  /\ extname (PathModule := PosixPath.posix) "+page" = ""%string
  /\ isKitRouteFile (path := PosixPath.posix) "+page" = false
  /\ isKitRouteFile (path := PosixPath.posix) "+page.ts" = true.
Proof.
  assert (H1 : JSString.includes "+page" "@" = false) by reflexivity.
  assert (H2 : extname (PathModule := PosixPath.posix) "+page" = ""%string)
    by reflexivity.
  split; [exact H1|]. split; [exact H2|]. split; [|reflexivity].
  exact (extensionless_not_route (path := PosixPath.posix) "+page" H1 H2).
Defined.

(** ** Transpiler: slot attributes and the walk *)

(** X14. [AttributeValueAsJsExpression] throws exactly for an attribute
    whose value is [true] or a single part of a type other than
    [AttributeShorthand], [Text] and [MustacheTag]; an unknown part among
    several parts does not make it throw. *)
Theorem AttributeValueAsJsExpression_throws (htmlx : string)
        (attr : Htmlx.Attribute) :
  (exists e, AttributeValueAsJsExpression htmlx attr = Thrown e)
  <-> Htmlx.value attr = None
      \/ exists type, Htmlx.value attr = Some [Htmlx.OtherPart type].
Proof.
  unfold AttributeValueAsJsExpression.
  destruct (Htmlx.value attr) as [[|part [|part2 rest]]|].
  - split; [intros [e H]; discriminate|].
    intros [H|[t H]]; discriminate.
  - destruct part; (split; [intros [e H]|intros [H|[t H]]]);
      try discriminate; eauto.
  - split; [intros [e H]; discriminate|].
    intros [H|[t H]]; discriminate.
  - split; eauto.
Qed.

Lemma handleSlot_uses_props svelte w node w' :
  handleSlot svelte w node = Returned w' -> uses_props w' = uses_props w.
Proof.
  unfold handleSlot. destruct (Htmlx.attributes node) as [attrs|]; [|discriminate].
  destruct (match find _ attrs with Some _ => _ | None => _ end);
    [|discriminate].
  destruct (collectAttributes svelte attrs []); [|discriminate].
  intros H. now injection H as <-.
Qed.

Lemma onHtmlxWalk_uses_props svelte w node w' :
  onHtmlxWalk svelte w node = Returned w' ->
  uses_props w' = uses_props w || isPropsIdentifier node.
Proof.
  unfold onHtmlxWalk, isPropsIdentifier, handleIdentifier.
  destruct (String.eqb (Htmlx.type node) "Identifier") eqn:Et.
  - intros H. injection H as <-.
    destruct (String.eqb (Htmlx.name node) "$$props"); cbn;
      [now rewrite orb_true_r|now rewrite orb_false_r].
  - cbn [andb]. rewrite orb_false_r.
    destruct (String.eqb (Htmlx.type node) "Slot").
    + apply handleSlot_uses_props.
    + intros H. now injection H as <-.
Qed.

Lemma walkAll_uses_props svelte nodes w0 w :
  walkAll svelte w0 nodes = Returned w ->
  uses_props w = uses_props w0 || existsb isPropsIdentifier nodes.
Proof.
  revert w0. induction nodes as [|node nodes IH]; intros w0 H; cbn in H.
  - injection H as <-. cbn. now rewrite orb_false_r.
  - destruct (onHtmlxWalk svelte w0 node) as [w1|e] eqn:E; [|discriminate].
    rewrite (IH _ H), (onHtmlxWalk_uses_props _ _ _ _ E). cbn.
    now rewrite orb_assoc.
Qed.

(** X15. When the callbacks of the walk return, [uses$$props] is set
    exactly when one of the walked nodes is an identifier named
    [$$props]. *)
Theorem uses_props_iff (svelte : string) (nodes : list Htmlx.Node) (w : Walk) :
  walkAll svelte walkStart nodes = Returned w ->
  uses_props w = existsb isPropsIdentifier nodes.
Proof. intros H. now rewrite (walkAll_uses_props _ _ _ _ H). Qed.

Lemma uses_props_iff_witness :
  let ident n :=
    {| Htmlx.type := "Identifier"; Htmlx.start := 0; Htmlx.end_ := 0;
       Htmlx.name := n; Htmlx.attributes := None;
       Htmlx.content_start := 0; Htmlx.content_end := 0 |} in
  let nodes := [ident "a"%string; ident "$$props"%string] in
  walkAll "" walkStart nodes
  = Returned {| uses_props := true; slots := [] |}
  /\ existsb isPropsIdentifier nodes = true.
Proof.
  intros ident nodes. split; [reflexivity|].
  exact (eq_sym (uses_props_iff "" nodes
                   {| uses_props := true; slots := [] |} eq_refl)).
Defined.

Section TranspilerEnd.
Context {env : Collaborators}.

Lemma convertHtmlxToJsx_walk ast w0 str w str1 :
  convertHtmlxToJsx ast w0 str = Returned (w, str1) ->
  walkAll (Magic.original str) w0 (walked (Magic.original str) ast)
  = Returned w.
Proof.
  unfold convertHtmlxToJsx. intros H.
  apply bind_inv in H. destruct H as (sv & s0 & E0 & H).
  injection E0 as <- <-.
  apply bind_inv in H. destruct H as (w1 & s1 & E1 & H).
  apply lift_inv in E1. destruct E1 as [E1 ->].
  apply bind_inv in H. destruct H as (u & s2 & _ & H).
  apply ret_inv in H. destruct H as [-> _]. exact E1.
Qed.

(** X16. When the transpilation returns, its last call on the
    [MagicString] is the one of [addComponentExport], made with the
    [uses$$props] flag that the walk of the template computed. *)
Theorem transpile_ends_with_export (ast : Htmlx.Ast)
        (str str' : Magic.MagicString) :
  transpile ast str = Returned (tt, str') ->
  exists w before,
    walkAll (Magic.original str) walkStart (walked (Magic.original str) ast)
    = Returned w
    /\ addComponentExport (uses_props w) before = Returned (tt, str')
    /\ uses_props w
       = existsb isPropsIdentifier (walked (Magic.original str) ast).
Proof.
  unfold transpile. intros H.
  apply bind_inv in H. destruct H as (w & s1 & E1 & H).
  apply convertHtmlxToJsx_walk in E1.
  apply bind_inv in H. destruct H as (u2 & s2 & _ & H).
  apply bind_inv in H. destruct H as (u3 & s3 & _ & H).
  apply bind_inv in H. destruct H as (u4 & s4 & _ & H).
  apply bind_inv in H. destruct H as (u5 & s5 & _ & H).
  exists w, s5. split; [exact E1|]. split; [exact H|].
  now rewrite (walkAll_uses_props _ _ _ _ E1).
Qed.

End TranspilerEnd.

Lemma transpile_ends_with_export_witness :
  let env := fixedTrees {| Htmlx.children := [] |} {| TsAst.statements := [] |} in
  exists str' before,
    transpile (env := env) {| Htmlx.children := [] |} (Magic.new "<p>hi</p>")
    = Returned (tt, str')
    /\ addComponentExport false before = Returned (tt, str').
Proof.
  intros env.
  destruct (transpile (env := env) {| Htmlx.children := [] |}
              (Magic.new "<p>hi</p>")) as [[[] str']|e] eqn:E;
    [|discriminate E].
  destruct (transpile_ends_with_export (env := env) _ _ _ E)
    as (w & before & Hw & Hend & Hflag).
  exists str', before. split; [reflexivity|].
  cbn in Hflag. rewrite Hflag in Hend. exact Hend.
Defined.

(** ** Transpiler: when the scan of the exports throws *)

Lemma neverThrows_lift_returned {A} (a : A) : neverThrows (lift (Returned a)).
Proof. intros str. now exists a, str. Qed.

Lemma neverThrows_foldM {A B} (body : B -> A -> Tx B) xs :
  (forall b x, In x xs -> neverThrows (body b x)) ->
  forall b, neverThrows (foldM body b xs).
Proof.
  induction xs as [|x xs IH]; intros Hb b; cbn [foldM].
  - apply neverThrows_ret.
  - apply neverThrows_bind; [apply Hb; now left|].
    intros b'. apply IH. intros b0 y Hy. apply Hb. now right.
Qed.

Lemma neverThrows_removeExport astOffset start end_ :
  neverThrows (removeExport astOffset start end_).
Proof. unfold removeExport. auto with tx. Qed.

Lemma addDeclaredName_some v ns :
  exists ns', addDeclaredName (Some v) ns = Returned ns'.
Proof. destruct v; cbn; eauto. Qed.

Lemma addExport_identifiers n t ns :
  match n with Some v => isIdentifier v = true | None => False end ->
  match t with Some v => isIdentifier v = true | None => True end ->
  exists ns', addExport n t ns = Returned ns'.
Proof.
  destruct n as [[x| |]|]; try easy. intros _.
  destruct t as [[y| |]|]; try easy; cbn; eauto.
Qed.

Lemma replaceExport_returns astOffset ns s :
  throwsOn s = false -> neverThrows (replaceExport astOffset ns s).
Proof.
  unfold throwsOn. intros H. apply orb_false_iff in H. destruct H as [Hu Hm].
  destruct s as [p e ms ds|p e ms [n|]|p e [els|]|p e l st|p e ex|p e|p e];
    cbn [replaceExport]; try discriminate; auto with tx.
  - cbn [unsupportedExport] in Hu. unfold hasExportModifier in Hu.
    destruct (match ms with Some ms0 => find TsAst.isExportKeyword ms0
                            | None => None end) as [m|] eqn:Em.
    + destruct ms as [ms|]; [|discriminate].
      rewrite (find_existsb_some _ _ _ Em) in Hu. cbn [andb] in Hu.
      apply neverThrows_bind; [apply neverThrows_removeExport|]. intros _.
      apply neverThrows_foldM. intros b v Hv.
      assert (Hid : isIdentifier v = true).
      { destruct (isIdentifier v) eqn:Ev; [reflexivity|].
        assert (existsb (fun v0 => negb (isIdentifier v0)) ds = true).
        { apply existsb_exists. exists v. now rewrite Ev. }
        congruence. }
      destruct (addExport_identifiers (Some v) None b Hid I) as [b1 E1].
      apply neverThrows_bind; [rewrite E1; apply neverThrows_lift_returned|].
      intros b2. destruct (addDeclaredName_some v b2) as [b3 ->].
      apply neverThrows_lift_returned.
    + apply neverThrows_bind; [auto with tx|]. intros _.
      apply neverThrows_foldM. intros b v Hv.
      apply neverThrows_bind; [auto with tx|].
      intros b2. destruct (addDeclaredName_some v b2) as [b3 ->].
      apply neverThrows_lift_returned.
  - cbn [unsupportedExport] in Hu. unfold hasExportModifier in Hu.
    apply neverThrows_bind.
    + destruct ms as [ms|]; [|auto with tx].
      destruct (find TsAst.isExportKeyword ms) as [m|] eqn:Em; [|auto with tx].
      rewrite (find_existsb_some _ _ _ Em) in Hu. cbn [andb] in Hu.
      apply negb_false_iff in Hu.
      destruct (addExport_identifiers (Some n) None ns Hu I) as [b1 ->].
      apply neverThrows_bind; [apply neverThrows_lift_returned|].
      intros b2. apply neverThrows_bind;
        [apply neverThrows_removeExport|auto with tx].
    + intros b2. destruct (addDeclaredName_some n b2) as [b3 ->].
      apply neverThrows_lift_returned.
  - cbn [unsupportedExport] in Hu.
    apply neverThrows_foldM. intros b ne Hne.
    assert (Hok : negb (isIdentifier (TsAst.name ne))
                  || match TsAst.propertyName ne with
                     | Some p0 => negb (isIdentifier p0)
                     | None => false
                     end = false).
    { destruct (negb (isIdentifier (TsAst.name ne))
                || match TsAst.propertyName ne with
                   | Some p0 => negb (isIdentifier p0)
                   | None => false
                   end) eqn:Eb; [|reflexivity].
      assert (existsb (fun ne0 =>
                         negb (isIdentifier (TsAst.name ne0))
                         || match TsAst.propertyName ne0 with
                            | Some p0 => negb (isIdentifier p0)
                            | None => false
                            end) els = true).
      { apply existsb_exists. now exists ne. }
      congruence. }
    apply orb_false_iff in Hok. destruct Hok as [Hn Hp].
    apply negb_false_iff in Hn.
    apply neverThrows_bind.
    + destruct (TsAst.propertyName ne) as [pn|].
      * apply negb_false_iff in Hp.
        destruct (addExport_identifiers (Some pn) (Some (TsAst.name ne)) b
                    Hp Hn) as [b1 ->].
        apply neverThrows_lift_returned.
      * destruct (addExport_identifiers (Some (TsAst.name ne)) None b Hn I)
          as [b1 ->].
        apply neverThrows_lift_returned.
    + intros b2. apply neverThrows_bind;
        [apply neverThrows_removeExport|auto with tx].
Qed.

Lemma replaceExport_throws astOffset ns s str :
  throwsOn s = true -> exists e, replaceExport astOffset ns s str = Thrown e.
Proof.
  unfold throwsOn. intros H. apply orb_true_iff in H. destruct H as [H|H].
  - now apply replaceExport_unsupported.
  - destruct s as [p e ms ds|p e ms [n|]|p e [els|]|p e l st|p e ex|p e|p e];
      try discriminate; cbn [replaceExport].
    + destruct ms as [ms|]; [destruct (find TsAst.isExportKeyword ms)|];
        unfold bind, lift, ret, addExport, addDeclaredName; eauto.
    + unfold throw. eauto.
Qed.

Lemma replaceExports_returns tsAst astOffset :
  existsb throwsOn (TsAst.statements tsAst) = false ->
  neverThrows (replaceExports tsAst astOffset).
Proof.
  intros Ex. unfold replaceExports.
  apply neverThrows_foldM. intros b s Hs. apply replaceExport_returns.
  destruct (throwsOn s) eqn:Es; [|reflexivity].
  assert (existsb throwsOn (TsAst.statements tsAst) = true)
    by (apply existsb_exists; now exists s).
  congruence.
Qed.

Lemma replaceExports_throws tsAst astOffset str :
  existsb throwsOn (TsAst.statements tsAst) = true ->
  exists e, replaceExports tsAst astOffset str = Thrown e.
Proof.
  intros H. apply existsb_exists in H. destruct H as (s & Hs & Hbad).
  unfold replaceExports. apply (foldM_throws _ s); [exact Hs|].
  intros b str'. now apply replaceExport_throws.
Qed.

(** X17. The scan of the exports throws exactly when one of the top-level
    statements is an export whose binding name or rename target is not an
    identifier, a function declaration without a name, or an export
    declaration without an export clause. *)
Theorem replaceExports_throws_iff (tsAst : TsAst.SourceFile) (astOffset : Z)
        (str : Magic.MagicString) :
  (exists e, replaceExports tsAst astOffset str = Thrown e)
  <-> existsb throwsOn (TsAst.statements tsAst) = true.
Proof.
  split.
  - intros [e He].
    destruct (existsb throwsOn (TsAst.statements tsAst)) eqn:Ex; [reflexivity|].
    destruct (replaceExports_returns tsAst astOffset Ex str) as (a & str' & E).
    congruence.
  - apply replaceExports_throws.
Qed.

(** ** Transpiler: when [svelte2tsx] throws *)



Section TranspilerThrows.
Context {env : Collaborators}.






End TranspilerThrows.

(** ** Transpiler: the props of a slot *)

Lemma slotName_eqb_refl k : slotName_eqb k k = true.
Proof. destruct k; cbn; [apply String.eqb_refl|reflexivity]. Qed.

Lemma get_set_same_key {K V} (eqb : K -> K -> bool) (a : K) (v : V) m :
  eqb a a = true -> JSMap.get eqb a (JSMap.set eqb a v m) = Some v.
Proof.
  intros Hrefl. induction m as [|[k' v'] m IH]; cbn.
  - now rewrite Hrefl.
  - destruct (eqb k' a) eqn:E; cbn; rewrite E; [reflexivity|exact IH].
Qed.

Lemma collectAttributes_skipped svelte n after m0 m :
  collectAttributes svelte after m0 = Returned m ->
  (forall a, In a after -> Htmlx.attr_name a = n ->
             Htmlx.value a = None \/ Htmlx.value a = Some []) ->
  JSMap.get String.eqb n m = JSMap.get String.eqb n m0.
Proof.
  revert m0. induction after as [|a after IH]; intros m0 H Hskip; cbn in H.
  - now injection H as <-.
  - assert (Hrest : forall a0, In a0 after -> Htmlx.attr_name a0 = n ->
                               Htmlx.value a0 = None \/ Htmlx.value a0 = Some [])
      by (intros a0 Ha0; apply Hskip; now right).
    destruct (String.eqb (Htmlx.attr_name a) "name"); [now apply IH|].
    destruct (Htmlx.value a) as [[|part parts]|] eqn:Ev;
      [now apply IH| |now apply IH].
    destruct (AttributeValueAsJsExpression svelte a) as [e|e]; [|discriminate].
    rewrite (IH _ H Hrest). apply get_set_other.
    intros Heq.
    destruct (Hskip a (or_introl eq_refl) (eq_sym Heq)); congruence.
Qed.

Lemma collectAttributes_text svelte before after n raw m0 m :
  collectAttributes svelte
    (before ++ {| Htmlx.attr_name := n; Htmlx.value := Some [Htmlx.Text raw] |}
            :: after) m0 = Returned m ->
  n <> "name"%string ->
  (forall a, In a after -> Htmlx.attr_name a = n ->
             Htmlx.value a = None \/ Htmlx.value a = Some []) ->
  JSMap.get String.eqb n m = Some (dq ++ raw ++ dq)%string.
Proof.
  intros H Hn Hskip. revert m0 H.
  induction before as [|b before IH]; intros m0 H; cbn in H.
  - destruct (String.eqb_spec n "name"); [contradiction|].
    rewrite (collectAttributes_skipped _ _ _ _ _ H Hskip).
    apply get_set_same.
  - destruct (String.eqb (Htmlx.attr_name b) "name"); [now apply (IH m0)|].
    destruct (Htmlx.value b) as [[|part parts]|];
      [now apply (IH m0)| |now apply (IH m0)].
    destruct (AttributeValueAsJsExpression svelte b) as [e|e]; [|discriminate].
    eapply IH. exact H.
Qed.

(** X19. For a slot element without a [name] attribute, when [handleSlot]
    returns, the slot is recorded under the name [default], and an
    attribute whose value is one literal text is recorded there as that
    text between double quotes, unless a later attribute of the element
    with a value has the same name. *)
Theorem default_slot_literal_prop (svelte : string) (w w' : Walk)
        (node : Htmlx.Node) (before after : list Htmlx.Attribute)
        (n raw : string) :
  Htmlx.attributes node
  = Some (before
          ++ {| Htmlx.attr_name := n; Htmlx.value := Some [Htmlx.Text raw] |}
          :: after) ->
  (forall a, In a (before ++ after) -> Htmlx.attr_name a <> "name"%string) ->
  n <> "name"%string ->
  (forall a, In a after -> Htmlx.attr_name a = n ->
             Htmlx.value a = None \/ Htmlx.value a = Some []) ->
  handleSlot svelte w node = Returned w' ->
  exists attributes,
    JSMap.get slotName_eqb (Some "default"%string) (slots w') = Some attributes
    /\ JSMap.get String.eqb n attributes = Some (dq ++ raw ++ dq)%string.
Proof.
  intros Hattrs Hnoname Hn Hskip H. unfold handleSlot in H. rewrite Hattrs in H.
  assert (Hfind : find (fun a => String.eqb (Htmlx.attr_name a) "name")
                    (before
                     ++ {| Htmlx.attr_name := n;
                           Htmlx.value := Some [Htmlx.Text raw] |} :: after)
                  = None).
  { apply find_none_existsb. apply not_true_is_false. intros Hex.
    apply existsb_exists in Hex. destruct Hex as (a & Ha & Hname).
    apply String.eqb_eq in Hname. apply in_app_or in Ha.
    destruct Ha as [Ha|[<-|Ha]].
    - apply (Hnoname a); [apply in_or_app; now left|exact Hname].
    - cbn in Hname. contradiction.
    - apply (Hnoname a); [apply in_or_app; now right|exact Hname]. }
  rewrite Hfind in H.
  destruct (collectAttributes svelte _ []) as [attributes|e] eqn:E;
    [|discriminate].
  injection H as <-. cbn [slots]. exists attributes. split.
  - apply get_set_same_key. reflexivity.
  - exact (collectAttributes_text _ _ _ _ _ _ _ E Hn Hskip).
Qed.

Lemma default_slot_literal_prop_witness :
  let bar := {| Htmlx.attr_name := "bar";
                Htmlx.value := Some [Htmlx.Text "baz"] |} in
  let node :=
    {| Htmlx.type := "Slot"; Htmlx.start := 0; Htmlx.end_ := 22;
       Htmlx.name := "slot"; Htmlx.attributes := Some [bar];
       Htmlx.content_start := 0; Htmlx.content_end := 0 |} in
  exists w' attributes,
    handleSlot "<slot bar=baz></slot>" walkStart node = Returned w'
    /\ JSMap.get slotName_eqb (Some "default"%string) (slots w')
       = Some attributes
    /\ JSMap.get String.eqb "bar" attributes = Some (dq ++ "baz" ++ dq)%string
    /\ slotsAsString (slots w') = ("{default: {bar:" ++ dq ++ "baz" ++ dq ++ "}}")%string.
Proof.
  intros bar node.
  assert (Hno : forall a, In a ([] ++ []) -> Htmlx.attr_name a <> "name"%string)
    by (intros a []).
  assert (Hn : "bar"%string <> "name"%string) by discriminate.
  assert (Hskip : forall a, In a [] -> Htmlx.attr_name a = "bar"%string ->
                            Htmlx.value a = None \/ Htmlx.value a = Some [])
    by (intros a []).
  destruct (default_slot_literal_prop "<slot bar=baz></slot>" walkStart
              _ node [] [] "bar" "baz" eq_refl Hno Hn Hskip eq_refl)
    as (attributes & Hget & Hbar).
  eexists. exists attributes.
  split; [reflexivity|]. split; [exact Hget|]. split; [exact Hbar|reflexivity].
Defined.

(** ** Ledger: no insertion is lost *)

Lemma insertions_insertFrom base l p t :
  Permutation (insertions (insertFrom base l p t)) ((p, t) :: insertions l).
Proof.
  unfold insertions. revert base.
  induction l as [|c rest IH]; intros base; cbn [insertFrom].
  - reflexivity.
  - destruct (originalPos c >? p).
    + cbn [map]. rewrite map_map. cbn. reflexivity.
    + cbn [map]. rewrite IH. apply perm_swap.
Qed.

(** X20. The ledger built by a sequence of [insert] calls holds every call
    exactly once, with its offset and its text, in the order of the
    offsets. *)
Theorem build_keeps_calls (calls : list (Z * string)) :
  Permutation (insertions (build calls)) calls
  /\ orderedBy Z.le (build calls).
Proof.
  split; [|apply reachable_ordered, reachable_build].
  unfold build. induction calls as [|call calls IH] using rev_ind.
  - reflexivity.
  - rewrite fold_left_app. cbn [fold_left].
    rewrite insertCode_insertFrom, insertions_insertFrom, IH.
    destruct call as [p t]. cbn [fst snd].
    apply Permutation_cons_append.
Qed.

(** ** Transpiler: exported variables *)

Lemma returnElements_plain m a :
  JSMap.get String.eqb a m = Some None ->
  exists l r, returnElements m = l ++ a :: r.
Proof.
  intros Hget. induction m as [|[k v] m IH]; [discriminate|].
  cbn in Hget. destruct (String.eqb_spec k a) as [->|Hk].
  - injection Hget as ->. now exists [], (returnElements m).
  - destruct (IH Hget) as (l & r & E). eexists (_ :: l), r.
    unfold returnElements in *. cbn [map]. rewrite E. reflexivity.
Qed.

Lemma exportedVariables_get em ds ns str ns' str' a :
  foldM (fun ns v =>
           do ns <- match em : option TsAst.Modifier with
                    | Some _ => lift (addExport (Some v) None ns)
                    | None => ret ns
                    end;
           lift (addDeclaredName (Some v) ns)) ns ds str
  = Returned (ns', str') ->
  ~ In a (identifierTexts ds) ->
  JSMap.get String.eqb a (exportedNames ns')
  = JSMap.get String.eqb a (exportedNames ns).
Proof.
  intros H. pattern ns, ds, ns'. eapply foldM_returned; [| |exact H]; clear.
  - reflexivity.
  - intros b v vs b1 b2 str str1 Hbody IH Hnot.
    apply in_identifierTexts in Hnot. destruct Hnot as [Hv Hvs].
    rewrite IH by assumption.
    apply bind_inv in Hbody. destruct Hbody as (b0 & str0 & E0 & E1).
    apply lift_inv in E1. destruct E1 as [E1 _].
    rewrite (addDeclaredName_exportedNames _ _ _ E1).
    destruct em.
    + apply lift_inv in E0. destruct E0 as [E0 _].
      now apply (addExport_get _ _ _ _ a) in E0.
    + apply ret_inv in E0. now destruct E0 as [-> _].
Qed.

(** X21. For a script with a top-level variable statement that has the
    [export] modifier and declares the identifier [a], when the scan of
    the exports returns: the six characters that start at the first
    occurrence of [export] at or after the modifier's [pos] are removed,
    and, unless a later declaration or statement exports [a] again, [a] is
    recorded without a rename, so that the props object literal of the
    return statement has the element [a]. *)
Theorem exported_variable_prop
        (tsAst : TsAst.SourceFile) (astOffset : Z)
        (str str1 : Magic.MagicString) (names : Names)
        (pre post : list TsAst.Statement) (pos end_ : Z)
        (modifiers : list TsAst.Modifier) (m : TsAst.Modifier)
        (before after : list TsAst.BindingName) (a : string) :
  TsAst.statements tsAst
  = pre ++ TsAst.VariableStatement pos end_ (Some modifiers)
             (before ++ TsAst.Identifier a :: after) :: post ->
  find TsAst.isExportKeyword modifiers = Some m ->
  replaceExports tsAst astOffset str = Returned (names, str1) ->
  let exportStart :=
    JSString.indexOf (Magic.original str) "export"
      (TsAst.modifier_pos m + astOffset) in
  In (Magic.remove exportStart (exportStart + 6)) (Magic.edits str1)
  /\ In a (declaredNames names)
  /\ (~ In a (identifierTexts after) ->
      ~ In a (flat_map exportedSources post) ->
      JSMap.get String.eqb a (exportedNames names) = Some None
      /\ exists l r, returnElements (exportedNames names) = l ++ a :: r).
Proof.
  intros Hst Hm Hscan exportStart.
  assert (Hdecl : In a (declaredNames names)).
  { apply (replaceExports_declaredNames _ _ _ _ _ a Hscan).
    rewrite Hst. eexists. split; [apply in_elt|]. cbn. apply in_elt. }
  unfold replaceExports in Hscan.
  rewrite Hst, foldM_app in Hscan.
  apply bind_inv in Hscan. destruct Hscan as (nsP & strP & EP & Hscan).
  destruct (onlyAdds_foldM _ pre (onlyAdds_replaceExport astOffset) _ _ _ _ EP)
    as [mP ->].
  cbn [foldM] in Hscan. apply bind_inv in Hscan.
  destruct Hscan as (nsE & strE & EE & Epost).
  destruct (onlyAdds_foldM _ post (onlyAdds_replaceExport astOffset) _ _ _ _ Epost)
    as [mPost ->].
  cbn [replaceExport] in EE. rewrite Hm in EE.
  apply bind_inv in EE. destruct EE as ([] & strR & ER & EE).
  cbn in ER. injection ER as <-.
  rewrite foldM_app in EE.
  apply bind_inv in EE. destruct EE as (nsA & strA & EA & EE).
  cbn [foldM] in EE. apply bind_inv in EE.
  destruct EE as (nsB & strB & EB & Eafter).
  match type of EA with
  | foldM ?body _ _ _ = _ =>
      assert (Hbody : forall b x, onlyAdds (body b x))
        by (intros b0 v; auto with tx)
  end.
  destruct (onlyAdds_foldM _ before Hbody _ _ _ _ EA) as [mA ->].
  destruct (onlyAdds_foldM _ after Hbody _ _ _ _ Eafter) as [mAfter ->].
  cbn in EB. injection EB as <- <-.
  split; [|split; [exact Hdecl|]].
  - do 3 apply in_edits_withEdits. cbn.
    apply in_or_app. right. left. reflexivity.
  - intros Hafter Hpost.
    assert (Hget : JSMap.get String.eqb a (exportedNames names) = Some None).
    { rewrite (replaceExports_rest_get _ _ _ _ _ _ a Epost Hpost).
      rewrite (exportedVariables_get (Some m) _ _ _ _ _ a Eafter Hafter).
      cbn. apply get_set_same. }
    split; [exact Hget|]. now apply returnElements_plain.
Qed.

Lemma exported_variable_prop_witness :
  let m := TsAst.mkModifier TsAst.ExportKeyword 0 6 in
  let tsAst :=
    {| TsAst.statements :=
         [ TsAst.VariableStatement 0 15 (Some [m]) [TsAst.Identifier "foo"] ] |} in
  let str := Magic.new "<script>export let foo;</script>" in
  let names :=
    {| exportedNames := [("foo"%string, None)];
       declaredNames := ["foo"%string] |} in
  let str1 := withEdits str [Magic.remove 8 14] in
  replaceExports tsAst 8 str = Returned (names, str1)
  /\ In (Magic.remove 8 14) (Magic.edits str1)
  /\ returnString (exportedNames names) []
     = (nl ++ "return { props: {foo}, slots: {} }}")%string
  /\ JSMap.get String.eqb "foo" (exportedNames names) = Some None.
Proof.
  intros m tsAst str names str1.
  assert (Hnone : ~ In "foo"%string []) by (intros []).
  destruct (exported_variable_prop tsAst 8 str str1 names [] [] 0 15 [m] m
              [] [] "foo" eq_refl eq_refl eq_refl) as (Hrem & _ & Hmap).
  destruct (Hmap Hnone Hnone) as (Hget & _).
  split; [reflexivity|]. split; [exact Hrem|]. split; [reflexivity|exact Hget].
Defined.

(** ** Augmentor: the annotation of [match] in a params file *)

Section ParamsFile.
Context {host : TsHost}.

(** X22. In a params file whose [match] export is a function with one
    parameter, no type definition, no return type and a body, the ledger
    has exactly two records: [: string] at the end of the parameter and
    [: boolean ] at the start of the body (for an arrow function, at the
    start of its arrow), provided the parameter ends at or before that
    place. With a return type present only the first record is made. *)
Theorem params_match_annotation
        (fileName basename paramsPath : string)
        (getSource : unit -> option SourceFile) (surround : string -> string)
        (source : SourceFile) (node : Ts.FunctionNode) (param : Ts.Node) :
  isParamsFile fileName basename paramsPath = true ->
  getSource tt = Some source ->
  findExports source (JSString.endsWith basename ".ts") "match"%string
  = Some (Ts.function node false) ->
  Ts.parameters node = [param] ->
  (forall body,
      Ts.type node = None -> Ts.body node = Some body ->
      let returnPos :=
        match Ts.kind node with
        | Ts.ArrowFunction equalsGreaterThanToken =>
            Ts.getStart equalsGreaterThanToken
        | _ => Ts.getStart body
        end in
      Ts.getEnd param <= returnPos ->
      upserKitParamsFile fileName basename paramsPath getSource surround
      = Some {| addedCode :=
                  [ entry 0 (Ts.getEnd param) (surround ": string");
                    entry (JS.strlen (surround ": string")) returnPos
                      (surround ": boolean ") ];
                originalText := getFullText source |})
  /\ (forall ty,
         Ts.type node = Some ty ->
         upserKitParamsFile fileName basename paramsPath getSource surround
         = Some {| addedCode :=
                     [ entry 0 (Ts.getEnd param) (surround ": string") ];
                   originalText := getFullText source |}).
Proof.
  intros Hp Hsrc Hmatch Hparams.
  unfold upserKitParamsFile. rewrite Hp, Hsrc. cbn [negb].
  unfold addTypeToFunction. rewrite Hmatch, Hparams. cbn [negb].
  split.
  - intros body Hty Hbody. cbv zeta. intros Hle. rewrite Hty, Hbody.
    set (returnPos := match Ts.kind node with
                      | Ts.ArrowFunction equalsGreaterThanToken =>
                          Ts.getStart equalsGreaterThanToken
                      | _ => Ts.getStart body
                      end) in *.
    unfold andThen, insert. rewrite !insertCode_insertFrom.
    change (JSString.truthyOpt (Some "boolean"%string)) with true.
    change (JSString.truthy "boolean") with true.
    cbn [negb append insertFrom originalPos entry total].
    destruct (Z.gtb_spec (Ts.getEnd param) returnPos); [lia|]. reflexivity.
  - intros ty Hty. rewrite Hty. reflexivity.
Qed.

End ParamsFile.

Lemma params_match_annotation_witness :
  let node :=
    {| Ts.kind := Ts.FunctionDeclaration; Ts.parameters := [Ts.mkNode 22 27];
       Ts.type := None; Ts.body := Some (Ts.mkNode 29 44) |} in
  let source : @SourceFile tableHost :=
    ("export function match(param) { return true; }"%string,
     [("match"%string, Ts.function node false)]) in
  option_map (fun r => insertions (addedCode r))
    (upserKitParamsFile (host := tableHost)
       "src/params/slug.ts" "slug.ts" "src/params" (fun _ => Some source)
       (fun t => t))
  = Some [(22 + 5, ": string"%string); (29, ": boolean "%string)].
Proof.
  intros node source.
  rewrite (proj1 (params_match_annotation
                    (host := tableHost) "src/params/slug.ts" "slug.ts"
                    "src/params" (fun _ => Some source) (fun t => t) source
                    node (Ts.mkNode 22 27) eq_refl eq_refl eq_refl eq_refl)
             (Ts.mkNode 29 44) eq_refl eq_refl).
  - reflexivity.
  - cbn. lia.
Defined.
